(** * Vive Lighthouse light-pulse decoder: shallow embedding of src/vl_light.cpp

    The development follows the source file top to bottom: sample and group
    records, the two medians, the pulse-class table and its lookup, channel
    detection, the pulse state machine ([update_pulse_state]), the sanitizer,
    the segmentation loop ([process_lighthouse_samples]) and the angle
    collator ([collect_readings]).  Theorems come after the definitions. *)

From Stdlib Require Import ZArith List Bool Lia Ascii String.
From Stdlib Require Import Sorted Permutation.
From stdpp Require Import gmap.
Import ListNotations.
Local Open Scope Z_scope.

(** ** Machine integers

    Fixed-width values are integers of [Z]; every place where the C++ code
    narrows or wraps is written out with one of these reductions. *)

Definition u16 (x : Z) : Z := x mod 2 ^ 16.
Definition u32 (x : Z) : Z := x mod 2 ^ 32.
Definition size_t (x : Z) : Z := x mod 2 ^ 64.
Definition UINT32_MAX : Z := 2 ^ 32 - 1.

(** ** Doubles

    Every [double] of this file is a tick count: a [uint32_t] timestamp
    converted to [double], the mean of two such values, the literal [-1e6],
    or [0.0].  All of them are multiples of one half with magnitude far
    below 2^53, so binary64 arithmetic on them is exact.  A double is
    therefore represented by its (integer) number of half ticks. *)

Record double : Type := Dbl { halves : Z }.

Definition double_of_Z (n : Z) : double := Dbl (2 * n).
Definition double_add (a b : double) : double := Dbl (halves a + halves b).
(** Division by two; exact on integer-valued arguments (even [halves]),
    the only ones it is applied to. *)
Definition double_div2 (a : double) : double := Dbl (halves a / 2).
Definition double_leb (a b : double) : bool := halves a <=? halves b.
(** Conversion of a double to a signed integer truncates toward zero. *)
Definition double_to_int64 (d : double) : Z := Z.quot (halves d) 2.
(** Conversion to [uint32_t]: truncation, then reduction modulo 2^32. *)
Definition double_to_u32 (d : double) : Z := u32 (double_to_int64 d).

(** ** Logging

    [vl_error], [vl_warn] and [vl_info] only write to the log.  The log is
    tracked for the functions whose logged errors are part of their
    contract ([lookup_pulse_class], [collect_readings]); their callers in
    the segmentation pipeline use the returned value only. *)

Inductive log_entry : Type :=
| vl_error (fmt : string)
| vl_warn (fmt : string)
| vl_info (fmt : string).

Definition Logged (A : Type) : Type := (A * list log_entry)%type.

(** ** Records *)

(** [vive_headset_lighthouse_pulse2]: timestamp is [uint32_t], sensor_id
    [uint8_t], length [uint16_t]. *)
Module Pulse2.
Record t : Type := mk { timestamp : Z; sensor_id : Z; length : Z }.

Definition wf (s : t) : Prop :=
  0 <= timestamp s < 2 ^ 32 /\ 0 <= sensor_id s < 2 ^ 8 /\
  0 <= length s < 2 ^ 16.
End Pulse2.

Abbreviation vive_headset_lighthouse_pulse2 := Pulse2.t.
Abbreviation vl_lighthouse_samples := (list Pulse2.t).

(** [lighthouse_sync_pulse], with the field order of the initialisers of
    [pulse_table]. *)
Module SyncPulse.
Record t : Type := mk { duration : Z; skip : Z; sweep : Z; data : Z }.
End SyncPulse.

Abbreviation lighthouse_sync_pulse := SyncPulse.t.

(** [vl_light_sample_group], with the field order of the aggregate
    initialisers in [process_pulse_set] and [update_pulse_state]. *)
Module Group.
Record t : Type := mk {
  channel : ascii;
  sweep : ascii;
  epoch : double;
  skip : Z;
  seq : Z;
  samples : vl_lighthouse_samples
}.
End Group.

Abbreviation vl_light_sample_group := Group.t.

(** [vl_light_sample_group()]: value-initialisation, an empty sample vector
    and zeroed scalars. *)
Definition vl_light_sample_group_default : vl_light_sample_group :=
  Group.mk "000"%char "000"%char (double_of_Z 0) 0 0 [].

(** ** std::sort and vector access *)

Fixpoint insert_sorted {A : Type} (leb : A -> A -> bool) (x : A) (l : list A)
  : list A :=
  match l with
  | [] => [x]
  | y :: l' => if leb x y then x :: l else y :: insert_sorted leb x l'
  end.

Definition std_sort {A : Type} (leb : A -> A -> bool) (l : list A) : list A :=
  fold_right (insert_sorted leb) [] l.

(** Element access by a [size_t] index.  [None] stands for the access
    outside the vector: the exception of [vector::at], undefined behaviour
    of [operator[]]. *)
Definition vec_at {A : Type} (v : list A) (i : Z) : option A :=
  if (0 <=? i) && (i <? Z.of_nat (length v))
  then nth_error v (Z.to_nat i) else None.

(** ** Medians *)

Definition median_timestamp (samples : vl_lighthouse_samples) : option double :=
  let timestamps :=
    std_sort double_leb
      (map (fun s => double_of_Z (Pulse2.timestamp s)) samples) in
  let size := Z.of_nat (length timestamps) in
  if size mod 2 =? 0 then
    match vec_at timestamps (size_t (size / 2 - 1)),
          vec_at timestamps (size / 2) with
    | Some a, Some b => Some (double_div2 (double_add a b))
    | _, _ => None
    end
  else vec_at timestamps (size / 2).

Definition median_length (samples : vl_lighthouse_samples) : option Z :=
  let lengths := std_sort Z.leb (map Pulse2.length samples) in
  let size := Z.of_nat (length lengths) in
  if size mod 2 =? 0 then
    match vec_at lengths (size_t (size / 2 - 1)),
          vec_at lengths (size / 2) with
    | Some a, Some b => Some (Z.quot (a + b) 2)
    | _, _ => None
    end
  else vec_at lengths (size / 2).

(** ** Pulse classes *)

Definition pulse_table : list lighthouse_sync_pulse :=
  [ SyncPulse.mk 2500 (-1) (-1) (-1);
    SyncPulse.mk 3000 0 0 0;
    SyncPulse.mk 3500 0 1 0;
    SyncPulse.mk 4000 0 0 1;
    SyncPulse.mk 4500 0 1 1;
    SyncPulse.mk 5000 1 0 0;
    SyncPulse.mk 5500 1 1 0;
    SyncPulse.mk 6000 1 0 1;
    SyncPulse.mk 6500 1 1 1;
    SyncPulse.mk 7000 (-1) (-1) (-1) ].

(** [lighthouse_sync_pulse()], the value returned when no table entry
    matches.  The struct is declared in vl_light.h, whose text is missing;
    [pulse_table] initialises it with brace lists of four scalars, that is
    as an aggregate without constructors, and value-initialisation of such
    a struct zeroes every member, as it does for [vl_light_sample_group()]
    above. *)
Definition lighthouse_sync_pulse_default : lighthouse_sync_pulse :=
  SyncPulse.mk 0 0 0 0.

(** The window test of one loop iteration; both sides are computed in
    [int], so nothing wraps. *)
Definition pulse_window (pulselen : Z) (e : lighthouse_sync_pulse) : bool :=
  (SyncPulse.duration e - 250 <? pulselen) &&
  (pulselen <? SyncPulse.duration e + 250).

(** The scan [for (i = 0; i < 10; i++) if (...) return pulse_table[i];]. *)
Fixpoint scan_pulse_table (tbl : list lighthouse_sync_pulse) (pulselen : Z)
  : option lighthouse_sync_pulse :=
  match tbl with
  | [] => None
  | e :: tbl' =>
      if pulse_window pulselen e then Some e
      else scan_pulse_table tbl' pulselen
  end.

Definition no_pulse_class_msg : log_entry :=
  vl_error "no pulse class found for length %u".

Definition lookup_pulse_class (pulselen : Z) : Logged lighthouse_sync_pulse :=
  match scan_pulse_table pulse_table pulselen with
  | Some e => (e, [])
  | None => (lighthouse_sync_pulse_default, [no_pulse_class_msg])
  end.

(** [decode_pulse]: the duplicate-sensor warning only logs; the median is
    narrowed to [uint16_t]. *)
Definition decode_pulse (S : vl_lighthouse_samples) : option (Z * Z * Z) :=
  match median_length S with
  | None => None
  | Some m =>
      let pulselen := u16 m in
      let pulse := fst (lookup_pulse_class pulselen) in
      Some (SyncPulse.skip pulse, SyncPulse.sweep pulse, SyncPulse.data pulse)
  end.

(** ** Sanitizer *)

Definition filter_reports (reports : vl_lighthouse_samples)
  (filter_fun : vive_headset_lighthouse_pulse2 -> bool) : vl_lighthouse_samples :=
  List.filter filter_fun reports.

Definition is_sample_valid (s : vive_headset_lighthouse_pulse2) : bool :=
  negb ((Pulse2.timestamp s =? 4294967295) &&
        (Pulse2.sensor_id s =? 255) &&
        (Pulse2.length s =? 65535)).

(** The sanitizer: [filter_reports(raw, &is_sample_valid)], as called by
    [vl_light_classify_samples] and [dump_pnp_positions]. *)
Definition sanitize (S : vl_lighthouse_samples) : vl_lighthouse_samples :=
  filter_reports S is_sample_valid.

(** ** Helpers and state of the segmentation loop *)

(** [subset(D, indices)]; [None] stands for an index outside [D]. *)
Fixpoint subset (D : vl_lighthouse_samples) (indices : list nat)
  : option vl_lighthouse_samples :=
  match indices with
  | [] => Some []
  | i :: rest =>
      match nth_error D i, subset D rest with
      | Some s, Some r => Some (s :: r)
      | _, _ => None
      end
  end.

Definition isempty (g : vl_light_sample_group) : bool :=
  match Group.samples g with [] => true | _ :: _ => false end.

(** The local variables of [process_lighthouse_samples]. *)
Module St.
Record t : Type := mk {
  pulse_inds : list nat;
  sweep_inds : list nat;
  last_pulse_epoch : double;
  seq : Z;
  current_sweep : vl_light_sample_group;
  pulse_range : Z * Z;
  pulses : list vl_light_sample_group;
  sweeps : list vl_light_sample_group
}.
End St.

Definition initial_state : St.t :=
  St.mk [] [] (double_of_Z (-1000000)) 0 vl_light_sample_group_default
    (UINT32_MAX, 0) [] [].

Definition is_nil {A : Type} (l : list A) : bool :=
  match l with [] => true | _ :: _ => false end.

(** The membership test of a pulse sample; [timestamp + length] is a
    [uint32_t] sum. *)
Definition overlaps_range (range : Z * Z) (sample : Pulse2.t) : bool :=
  (Pulse2.timestamp sample <=? snd range) &&
  (fst range <=? u32 (Pulse2.timestamp sample + Pulse2.length sample)).

Definition extend_range (range : Z * Z) (sample : Pulse2.t) : Z * Z :=
  (Z.min (fst range) (Pulse2.timestamp sample),
   Z.max (snd range) (u32 (Pulse2.timestamp sample + Pulse2.length sample))).

(** ** Channel detection and the pulse state machine

    [VL_TICK_RATE] and [VL_ROTOR_RPS] are macros of vl_light.h, whose text
    is missing; they are parameters of the decoder. *)

Section Decoder.

Variables VL_TICK_RATE VL_ROTOR_RPS : Z.

(** [channel_detect(uint32_t last_pulse_time, double new_pulse_time)].
    [period] is [VL_TICK_RATE / VL_ROTOR_RPS / 2] stored in an [int64_t];
    for positive integer values of the macros the result is the same
    whether they are written as integer or as floating constants.  The
    subtraction for [dt] is carried out in [double] (exact) and truncated
    to [int64_t]; the three tests take [abs] of an [int64_t]. *)
Definition channel_detect (last_pulse_time : Z) (new_pulse_time : double)
  : ascii :=
  let period := Z.quot (Z.quot VL_TICK_RATE VL_ROTOR_RPS) 2 in
  let space := 20000 in
  let dt :=
    double_to_int64
      (Dbl (halves new_pulse_time - halves (double_of_Z last_pulse_time))) in
  if Z.abs (dt - period) <? 4000 then "A"%char
  else if Z.abs (dt - (period - space)) <? 4000 then "B"%char
  else if Z.abs (dt - space) <? 4000 then "C"%char
  else "e"%char.

(** [char key[] = { 'e', 'H', 'V' }; sweep = key[sweepi + 1]].  The index
    is always 0, 1 or 2 for the classes that [lookup_pulse_class]
    returns. *)
Definition sweep_key (sweepi : Z) : ascii :=
  match sweepi + 1 with
  | 0 => "e"%char
  | 1 => "H"%char
  | 2 => "V"%char
  | _ => "000"%char
  end.

(** [process_pulse_set(S, int64_t last_pulse)]; [channel_detect] receives
    [last_pulse] narrowed to [uint32_t]. *)
Definition process_pulse_set (S : vl_lighthouse_samples) (last_pulse : Z)
  : option vl_light_sample_group :=
  match decode_pulse S with
  | None => None
  | Some (skip, sweepi, databit) =>
      match median_timestamp S with
      | None => None
      | Some t =>
          let ch := channel_detect (u32 last_pulse) t in
          let sweep := sweep_key sweepi in
          Some (Group.mk ch sweep t skip 0 [])
      end
  end.

(** [update_pulse_state]: returns
    [(last_pulse_epoch, current_sweep, seq, out_pulse)].  The [double]
    [last_pulse_epoch] is converted to the [int64_t] parameter of
    [process_pulse_set].  [seq] is an [int]; it is not bounded here. *)
Definition update_pulse_state (pulse_samples : vl_lighthouse_samples)
  (last_pulse_epoch : double) (current_sweep : vl_light_sample_group)
  (seq : Z)
  : option (double * vl_light_sample_group * Z * vl_light_sample_group) :=
  let out_pulse := vl_light_sample_group_default in
  match process_pulse_set pulse_samples (double_to_int64 last_pulse_epoch) with
  | None => None
  | Some pulse =>
      let last_pulse_epoch := Group.epoch pulse in
      if Ascii.eqb (Group.channel pulse) "e" ||
         (Z.of_nat (length pulse_samples) <? 5)
      then
        Some (last_pulse_epoch, vl_light_sample_group_default, seq, out_pulse)
      else if Group.skip pulse =? 0 then
        let seq :=
          if (Ascii.eqb (Group.channel pulse) "A" ||
              Ascii.eqb (Group.channel pulse) "B") &&
             Ascii.eqb (Group.sweep pulse) "H"
          then seq + 1 else seq in
        let current_sweep :=
          Group.mk (Group.channel pulse) (Group.sweep pulse)
            (Group.epoch pulse) (Group.skip pulse) (Group.seq pulse)
            pulse_samples in
        let out_pulse :=
          Group.mk (Group.channel pulse) (Group.sweep pulse)
            (Group.epoch pulse) 0 seq pulse_samples in
        Some (last_pulse_epoch, current_sweep, seq, out_pulse)
      else
        Some (last_pulse_epoch, current_sweep, seq, out_pulse)
  end.

(** ** The segmentation loop *)

(** "process the pulse set": the block that occurs twice in the loop body
    (after a sweep sample, and after a pulse sample outside the current
    range).  [UINT_MAX] in the second occurrence equals [UINT32_MAX]. *)
Definition flush_pulse_set (D : vl_lighthouse_samples) (st : St.t)
  : option St.t :=
  match subset D (St.pulse_inds st) with
  | None => None
  | Some pulse_samples =>
      match update_pulse_state pulse_samples (St.last_pulse_epoch st)
              (St.current_sweep st) (St.seq st) with
      | None => None
      | Some (last_pulse_epoch, current_sweep, seq, pulse) =>
          Some (St.mk [] (St.sweep_inds st) last_pulse_epoch seq current_sweep
                  (UINT32_MAX, 0)
                  (if isempty pulse then St.pulses st
                   else St.pulses st ++ [pulse])
                  (St.sweeps st))
      end
  end.

(** "store one sweep": the block at the start of the pulse-sample branch. *)
Definition store_sweep (D : vl_lighthouse_samples) (st : St.t)
  : option St.t :=
  match subset D (St.sweep_inds st) with
  | None => None
  | Some sweep_samples =>
      let sweep :=
        Group.mk (Group.channel (St.current_sweep st))
          (Group.sweep (St.current_sweep st))
          (Group.epoch (St.current_sweep st)) 0 (St.seq st) sweep_samples in
      Some (St.mk (St.pulse_inds st) [] (St.last_pulse_epoch st) (St.seq st)
              (St.current_sweep st) (St.pulse_range st) (St.pulses st)
              (if isempty (St.current_sweep st) then St.sweeps st
               else St.sweeps st ++ [sweep]))
  end.

(** One iteration of [for (unsigned i = 0; i < D.size(); i++)]. *)
Definition loop_body (D : vl_lighthouse_samples) (st : St.t) (i : nat)
  : option St.t :=
  match nth_error D i with
  | None => None
  | Some sample =>
      if Pulse2.length sample <? 2000 then
        (* sweep sample *)
        match (if is_nil (St.pulse_inds st) then Some st
               else flush_pulse_set D st) with
        | None => None
        | Some st1 =>
            if isempty (St.current_sweep st1) then Some st1
            else
              Some (St.mk (St.pulse_inds st1) (St.sweep_inds st1 ++ [i])
                      (St.last_pulse_epoch st1) (St.seq st1)
                      (St.current_sweep st1) (St.pulse_range st1)
                      (St.pulses st1) (St.sweeps st1))
        end
      else
        (* pulse sample *)
        match (if is_nil (St.sweep_inds st) then Some st
               else store_sweep D st) with
        | None => None
        | Some st1 =>
            if is_nil (St.pulse_inds st1) ||
               overlaps_range (St.pulse_range st1) sample
            then
              Some (St.mk (St.pulse_inds st1 ++ [i]) (St.sweep_inds st1)
                      (St.last_pulse_epoch st1) (St.seq st1)
                      (St.current_sweep st1)
                      (extend_range (St.pulse_range st1) sample)
                      (St.pulses st1) (St.sweeps st1))
            else
              (* a new pulse set starts; the source does not push [i] *)
              flush_pulse_set D st1
        end
  end.

Fixpoint run_loop (D : vl_lighthouse_samples) (indices : list nat)
  (st : St.t) : option St.t :=
  match indices with
  | [] => Some st
  | i :: rest =>
      match loop_body D st i with
      | None => None
      | Some st' => run_loop D rest st'
      end
  end.

(** The state after the first [n] iterations. *)
Definition state_after (D : vl_lighthouse_samples) (n : nat) : option St.t :=
  run_loop D (List.seq 0 n) initial_state.

(** Returns [(sweeps, pulses)]. *)
Definition process_lighthouse_samples (D : vl_lighthouse_samples)
  : option (list vl_light_sample_group * list vl_light_sample_group) :=
  match state_after D (length D) with
  | None => None
  | Some st => Some (St.sweeps st, St.pulses st)
  end.

End Decoder.

(** ** The angle collator *)

(** [ticks_sample_to_angle(sample, uint32_t epoch)]: [length / 2] is an
    [int] division, the sum and the difference are [uint32_t]. *)
Definition ticks_sample_to_angle (sample : vive_headset_lighthouse_pulse2)
  (epoch : Z) : Z :=
  u32 (u32 (Pulse2.timestamp sample + Z.quot (Pulse2.length sample) 2) - epoch).

(** [vl_angles] is declared in vl_light.h; its three vectors are printed
    with [%u] by [print_readings] and hold [uint32_t] values here. *)
Module Angles.
Record angles : Type := mk { x : list Z; y : list Z; t : list Z }.
End Angles.

Abbreviation vl_angles := Angles.angles.

Definition vl_angles_default : vl_angles := Angles.mk [] [] [].

Definition sweep_vector_empty_msg : log_entry :=
  vl_error "error: Sweep vector empty.".

Definition find_max_seq (sweeps : list vl_light_sample_group) : Logged Z :=
  match map Group.seq sweeps with
  | [] => (0, [sweep_vector_empty_msg])
  | q :: seqs => (fold_left Z.max seqs q, [])
  end.

Definition filter_sweeps (sweeps : list vl_light_sample_group) (ch : ascii)
  (seq : Z) (rotor : ascii) : list vl_light_sample_group :=
  List.filter
    (fun g => Ascii.eqb (Group.channel g) ch && (Group.seq g =? seq) &&
              Ascii.eqb (Group.sweep g) rotor)
    sweeps.

Definition filter_samples_by_sensor_id (samples : vl_lighthouse_samples)
  (sensor_id : Z) : vl_lighthouse_samples :=
  List.filter (fun s => Pulse2.sensor_id s =? sensor_id) samples.

Definition sweeps_empty_msg : log_entry :=
  vl_warn "Warning: Either or both sweeps are empty, ignore.".
Definition unexpected_number_msg : log_entry :=
  vl_error "error: Unexpected number of indices [%zu %zu], should be just one each".
Definition dimension_missing_msg : log_entry :=
  vl_warn "Warning: one dimension is missing for sweep %u".
Definition sensor_multiple_msg : log_entry :=
  vl_error "error: Same sensor sampled multiple times??".

(** The map [R] together with the log written so far. *)
Abbreviation readings := (gmap Z vl_angles * list log_entry)%type.

Definition push_x (v : Z) (a : vl_angles) : vl_angles :=
  Angles.mk (Angles.x a ++ [v]) (Angles.y a) (Angles.t a).
Definition push_y (v : Z) (a : vl_angles) : vl_angles :=
  Angles.mk (Angles.x a) (Angles.y a ++ [v]) (Angles.t a).
Definition push_t (v : Z) (a : vl_angles) : vl_angles :=
  Angles.mk (Angles.x a) (Angles.y a) (Angles.t a ++ [v]).

(** Body of [for (unsigned s = 0; s < 32; s++)].  The [double] epochs are
    converted to [uint32_t] at the two calls of [ticks_sample_to_angle] and
    at the [push_back] on [t]. *)
Definition sensor_body (x_sweep y_sweep : vl_light_sample_group)
  (acc : readings) (s : Z) : readings :=
  let '(R, log) := acc in
  let xi := filter_samples_by_sensor_id (Group.samples x_sweep) s in
  let yi := filter_samples_by_sensor_id (Group.samples y_sweep) s in
  let log :=
    if (1 <? Z.of_nat (length xi)) || (1 <? Z.of_nat (length yi))
    then log ++ [sensor_multiple_msg] else log in
  match xi, yi with
  | xi0 :: _, yi0 :: _ =>
      let R :=
        match R !! s with
        | None => <[s := vl_angles_default]> R
        | Some _ => R
        end in
      let x_ang :=
        ticks_sample_to_angle xi0 (double_to_u32 (Group.epoch x_sweep)) in
      let y_ang :=
        ticks_sample_to_angle yi0 (double_to_u32 (Group.epoch y_sweep)) in
      let R := alter (push_x x_ang) s R in
      let R := alter (push_y y_ang) s R in
      let R := alter (push_t (double_to_u32 (Group.epoch x_sweep))) s R in
      (R, log)
  | _, _ => (R, log)
  end.

Definition sensor_ids : list Z := map Z.of_nat (List.seq 0 32).

(** Body of [for (unsigned sweep_i = 0; sweep_i < x_sweeps.size(); sweep_i++)];
    [vector::at] throws on a missing entry and the handler continues. *)
Definition sweep_body (x_sweeps y_sweeps : list vl_light_sample_group)
  (acc : readings) (sweep_i : nat) : readings :=
  match nth_error x_sweeps sweep_i, nth_error y_sweeps sweep_i with
  | Some x_sweep, Some y_sweep =>
      fold_left (sensor_body x_sweep y_sweep) sensor_ids acc
  | _, _ => (fst acc, snd acc ++ [dimension_missing_msg])
  end.

(** Body of [for (int i = 1; i < maxseq; i++)]; the boolean tells whether
    the loop goes on ([false] after [break]). *)
Definition seq_body (station : ascii) (sweeps : list vl_light_sample_group)
  (i : Z) (acc : readings) : readings * bool :=
  let x_sweeps := filter_sweeps sweeps station i "H" in
  let y_sweeps := filter_sweeps sweeps station i "V" in
  if (Z.of_nat (length x_sweeps) <? 1) || (Z.of_nat (length y_sweeps) <? 1)
  then ((fst acc, snd acc ++ [sweeps_empty_msg]), false)
  else
    let acc :=
      if negb (Z.of_nat (length x_sweeps) =? 1) ||
         negb (Z.of_nat (length y_sweeps) =? 1)
      then (fst acc, snd acc ++ [unexpected_number_msg]) else acc in
    (fold_left (sweep_body x_sweeps y_sweeps)
       (List.seq 0 (length x_sweeps)) acc, true).

(** The loop over sequence numbers [i, i+1, ...], [count] iterations at
    most. *)
Fixpoint seq_loop (station : ascii) (sweeps : list vl_light_sample_group)
  (count : nat) (i : Z) (acc : readings) : readings :=
  match count with
  | O => acc
  | S count' =>
      let '(acc', continue) := seq_body station sweeps i acc in
      if continue then seq_loop station sweeps count' (i + 1) acc' else acc'
  end.

Definition collect_readings (station : ascii)
  (sweeps : list vl_light_sample_group) : readings :=
  let '(maxseq, log) := find_max_seq sweeps in
  seq_loop station sweeps (Z.to_nat (maxseq - 1)) 1 (empty, log).

(** ** Vocabulary of the statements *)

(** The matching window of the pulse classifier, [|L - duration| < 250]. *)
Definition in_window (L : Z) (e : lighthouse_sync_pulse) : Prop :=
  Z.abs (L - SyncPulse.duration e) < 250.

(** End of the lit period of a sample as the loop computes it, the
    [uint32_t] sum [timestamp + length]. *)
Definition sample_end (s : vive_headset_lighthouse_pulse2) : Z :=
  u32 (Pulse2.timestamp s + Pulse2.length s).

(** The value of [pulse_range] after the samples of [ps] joined an empty
    pulse set one after the other. *)
Definition range_of (ps : vl_lighthouse_samples) : Z * Z :=
  fold_left extend_range ps (UINT32_MAX, 0).

(** Every sample but the first overlaps the range spanned by the samples
    that precede it in the list. *)
Definition chain_overlap (ps : vl_lighthouse_samples) : Prop :=
  forall l1 s l2, ps = l1 ++ s :: l2 -> l1 <> [] ->
    overlaps_range (range_of l1) s = true.

(** The closed intervals [[timestamp, timestamp + length]] of two samples
    intersect. *)
Definition intervals_overlap (a b : vive_headset_lighthouse_pulse2) : Prop :=
  Pulse2.timestamp a <= Pulse2.timestamp b + Pulse2.length b /\
  Pulse2.timestamp b <= Pulse2.timestamp a + Pulse2.length a.

(** Sweep-group [s] carries the channel, rotor, epoch and sequence number
    of pulse-group [p]. *)
Definition inherits (s p : vl_light_sample_group) : Prop :=
  Group.channel p = Group.channel s /\ Group.sweep p = Group.sweep s /\
  Group.epoch p = Group.epoch s /\ Group.seq p = Group.seq s.

(** The invariant of the loop of [process_lighthouse_samples] before
    iteration [n]: the buffered indices are below [n], the two buffers are
    never both non-empty, [pulse_range] is the range of the accumulated
    pulse set, every emitted pulse-group is a chain of samples of [D], a
    non-empty [current_sweep] repeats an emitted pulse-group whose [seq] is
    the running one, and every emitted sweep-group inherits from an emitted
    pulse-group. *)
Record loop_inv (D : vl_lighthouse_samples) (n : nat) (st : St.t) : Prop := {
  inv_pulse_idx : Forall (fun i => (i < n)%nat) (St.pulse_inds st);
  inv_sweep_idx : Forall (fun i => (i < n)%nat) (St.sweep_inds st);
  inv_exclusive : St.pulse_inds st <> [] -> St.sweep_inds st = [];
  inv_range : forall ps, subset D (St.pulse_inds st) = Some ps ->
                St.pulse_range st = range_of ps /\ chain_overlap ps;
  inv_pulses_chain : forall p, In p (St.pulses st) ->
                chain_overlap (Group.samples p) /\
                incl (Group.samples p) D;
  inv_current : isempty (St.current_sweep st) = false ->
                exists p, In p (St.pulses st) /\
                  Group.channel p = Group.channel (St.current_sweep st) /\
                  Group.sweep p = Group.sweep (St.current_sweep st) /\
                  Group.epoch p = Group.epoch (St.current_sweep st) /\
                  Group.seq p = St.seq st;
  inv_sweeps : forall s, In s (St.sweeps st) ->
                exists p, In p (St.pulses st) /\ inherits s p
}.

(** The loop iteration for [sample] flushes nothing: a sweep sample met
    with an empty pulse accumulator, or a pulse sample that joins the
    accumulator while the sweep buffer is empty. *)
Definition absorbs (st : St.t) (sample : vive_headset_lighthouse_pulse2)
  : bool :=
  if Pulse2.length sample <? 2000 then is_nil (St.pulse_inds st)
  else is_nil (St.sweep_inds st) &&
       (is_nil (St.pulse_inds st) ||
        overlaps_range (St.pulse_range st) sample).

(** Every event of the tail [T] of the stream [D ++ T] is absorbed when
    its turn comes. *)
Definition absorbed_tail (VL_TICK_RATE VL_ROTOR_RPS : Z)
  (D T : vl_lighthouse_samples) : Prop :=
  forall k e, nth_error T k = Some e ->
    exists st,
      state_after VL_TICK_RATE VL_ROTOR_RPS (D ++ T) (length D + k) = Some st /\
      absorbs st e = true.

(** Number of [(x, y, t)] triples recorded for sensor [s]. *)
Definition readings_count (R : gmap Z vl_angles) (s : Z) : nat :=
  match R !! s with
  | Some a => length (Angles.x a)
  | None => O
  end.

(** The three vectors of every sensor have the same length. *)
Definition aligned (R : gmap Z vl_angles) : Prop :=
  forall s a, R !! s = Some a ->
    length (Angles.y a) = length (Angles.x a) /\
    length (Angles.t a) = length (Angles.x a).

(** Number of (k-th H sweep, k-th V sweep) pairs over [count] sequence
    numbers starting at [i]. *)
Fixpoint sweep_pairs (station : ascii) (sweeps : list vl_light_sample_group)
  (count : nat) (i : Z) : nat :=
  match count with
  | O => O
  | S count' =>
      (Nat.min (length (filter_sweeps sweeps station i "H"))
               (length (filter_sweeps sweeps station i "V"))
       + sweep_pairs station sweeps count' (i + 1))%nat
  end.

(** The triple that the pair of sweeps [(x_sweep, y_sweep)] yields for
    sensor [s]: none unless both sweeps hold a sample of [s]; otherwise the
    angles of the first such sample of each sweep and the H epoch. *)
Definition pair_triple (x_sweep y_sweep : vl_light_sample_group) (s : Z)
  : option (Z * Z * Z) :=
  match filter_samples_by_sensor_id (Group.samples x_sweep) s,
        filter_samples_by_sensor_id (Group.samples y_sweep) s with
  | xi0 :: _, yi0 :: _ =>
      Some (ticks_sample_to_angle xi0 (double_to_u32 (Group.epoch x_sweep)),
            ticks_sample_to_angle yi0 (double_to_u32 (Group.epoch y_sweep)),
            double_to_u32 (Group.epoch x_sweep))
  | _, _ => None
  end.

(** The triples of sensor [s] from the pairs (k-th H sweep, k-th V sweep),
    [k = 0, 1, ...], as far as both lists reach, in that order. *)
Definition pair_triples (x_sweeps y_sweeps : list vl_light_sample_group)
  (s : Z) : list (Z * Z * Z) :=
  flat_map (fun xy => match pair_triple (fst xy) (snd xy) s with
                      | Some tr => [tr]
                      | None => []
                      end)
    (combine x_sweeps y_sweeps).

Definition push_triple (tr : Z * Z * Z) (a : vl_angles) : vl_angles :=
  push_t (snd tr) (push_y (snd (fst tr)) (push_x (fst (fst tr)) a)).

(** The entry of a sensor after the triples of [l] were recorded one after
    the other; the entry is created by the first of them. *)
Definition record_triples (l : list (Z * Z * Z)) (o : option vl_angles)
  : option vl_angles :=
  fold_left (fun o tr => Some (push_triple tr (default vl_angles_default o)))
    l o.

(** The triples of sensor [s] over [count] sequence numbers from [i] on,
    up to the first sequence number that lacks an H or a V sweep. *)
Fixpoint cycle_triples (station : ascii) (sweeps : list vl_light_sample_group)
  (count : nat) (i : Z) (s : Z) : list (Z * Z * Z) :=
  match count with
  | O => []
  | S count' =>
      let x_sweeps := filter_sweeps sweeps station i "H" in
      let y_sweeps := filter_sweeps sweeps station i "V" in
      match x_sweeps, y_sweeps with
      | _ :: _, _ :: _ =>
          pair_triples x_sweeps y_sweeps s ++
          cycle_triples station sweeps count' (i + 1) s
      | _, _ => []
      end
  end.

Definition log_entry_eq_dec (a b : log_entry) : {a = b} + {a <> b}.
Proof. decide equality; apply string_dec. Defined.

(** How often [m] was logged. *)
Definition logged (m : log_entry) (log : list log_entry) : nat :=
  count_occ log_entry_eq_dec log m.

(** ** Concrete streams *)

(** A cluster of pulse or sweep events: one event per sensor of [ids], all
    with the same timestamp and length. *)
Definition cluster (ts len : Z) (ids : list Z) : vl_lighthouse_samples :=
  map (fun i => Pulse2.mk ts i len) ids.

(** Sweep events of length 500, sensor [i] hit at [ts + 100 * i]. *)
Definition sweep_hits (ts : Z) (ids : list Z) : vl_lighthouse_samples :=
  map (fun i => Pulse2.mk (ts + 100 * i) i 500) ids.

Definition ids8 : list Z := [0; 1; 2; 3; 4; 5; 6; 7].
Definition ids5 : list Z := [0; 1; 2; 3; 4].

(** Scenario S1 of the specification. *)
Definition scenario_S1 : vl_lighthouse_samples :=
  cluster 0 3000 ids8 ++ sweep_hits 200000 ids8 ++
  cluster 380000 3500 ids8 ++ sweep_hits 580000 ids8.

(** A stream that ends inside a valid pulse set. *)
Definition stream_trailing_pulse : vl_lighthouse_samples :=
  cluster 0 3000 ids8 ++ sweep_hits 200000 ids8 ++ cluster 380000 3500 ids8.

(** A valid H pulse of station B and its sweep, then a pulse set of
    length 2700 one period later, more sweep events and a closing pulse
    event. *)
Definition stream_len_2700 : vl_lighthouse_samples :=
  cluster 0 3000 ids5 ++ sweep_hits 200000 [0] ++
  cluster 380000 3000 ids5 ++ sweep_hits 500000 [0; 1] ++
  cluster 780000 2700 ids5 ++ sweep_hits 900000 [2; 3] ++
  cluster 1160000 3000 [0].


Definition group_in_progress : vl_light_sample_group :=
  Group.mk "A" "H" (double_of_Z 0) 0 0 (cluster 0 3000 ids5).


(** A pulse set whose events overlap as a chain: the first event ends at
    381000, the third starts at 383800. *)
Definition chained_pulse_set : vl_lighthouse_samples :=
  [ Pulse2.mk 378000 0 3000; Pulse2.mk 380900 1 3000;
    Pulse2.mk 383800 2 3000; Pulse2.mk 380900 3 3000;
    Pulse2.mk 380900 4 3000 ].

Definition stream_chained : vl_lighthouse_samples :=
  cluster 0 3000 ids5 ++ sweep_hits 200000 [0] ++
  chained_pulse_set ++ sweep_hits 500000 [0].

(** Two H and two V sweeps of station B for sequence number 1 (sensor 0 in
    each), and one sweep of sequence number 2. *)
Definition sweeps_dup : list vl_light_sample_group :=
  [ Group.mk "B" "H" (double_of_Z 200000) 0 1 [Pulse2.mk 200100 0 200];
    Group.mk "B" "V" (double_of_Z 600000) 0 1 [Pulse2.mk 600060 0 120];
    Group.mk "B" "H" (double_of_Z 1000000) 0 1 [Pulse2.mk 1000300 0 200];
    Group.mk "B" "V" (double_of_Z 1400000) 0 1 [Pulse2.mk 1400500 0 100];
    Group.mk "B" "H" (double_of_Z 1800000) 0 2 [Pulse2.mk 1800100 0 200] ].

(** Two H sweeps and a single V sweep of station B for sequence number 1:
    the second H sweep has no partner. *)
Definition sweeps_unpaired : list vl_light_sample_group :=
  [ Group.mk "B" "H" (double_of_Z 200000) 0 1 [Pulse2.mk 200100 0 200];
    Group.mk "B" "V" (double_of_Z 600000) 0 1 [Pulse2.mk 600060 0 120];
    Group.mk "B" "H" (double_of_Z 1000000) 0 1 [Pulse2.mk 1000300 0 200];
    Group.mk "B" "H" (double_of_Z 1800000) 0 2 [Pulse2.mk 1800100 0 200] ].

(** ** Further functions of vl_light.cpp *)

(** [unique_sensor_ids]: the size of the [std::set<uint8_t>] filled with
    the sensor ids. *)
Definition unique_sensor_ids (S : vl_lighthouse_samples) : nat :=
  size (fold_left (fun (unique_ids : gset Z) s =>
                     union (singleton (Pulse2.sensor_id s)) unique_ids)
          S (empty : gset Z)).

(** [unsigned ndups = S.size() - unique_sensor_ids(S)] of [decode_pulse]:
    a [size_t] difference narrowed to [unsigned]. *)
Definition ndups (S : vl_lighthouse_samples) : Z :=
  u32 (size_t (Z.of_nat (length S) - Z.of_nat (unique_sensor_ids S))).

Definition duplicate_sensors_msg : log_entry :=
  vl_warn "Warning: %d duplicate sensors".

(** What [decode_pulse] writes to the log before it decodes. *)
Definition decode_pulse_log (S : vl_lighthouse_samples) : list log_entry :=
  if ndups S =? 0 then [] else [duplicate_sensors_msg].

(** [find_max_sendor_id]: [std::max_element] over the sensor ids; [None]
    stands for dereferencing the end iterator of an empty vector. *)
Definition find_max_sendor_id (samples : vl_lighthouse_samples) : option Z :=
  match map Pulse2.sensor_id samples with
  | [] => None
  | i :: sensor_ids => Some (fold_left Z.max sensor_ids i)
  end.

(** The values computed by [vl_light_classify_samples] (and, up to the
    two maps, by [dump_pnp_positions]) before they are written out:
    [(pulses, sweeps, R_B, R_C)]. *)
Definition vl_light_classify_samples (VL_TICK_RATE VL_ROTOR_RPS : Z)
  (raw_light_samples : vl_lighthouse_samples)
  : option (list vl_light_sample_group * list vl_light_sample_group *
            readings * readings) :=
  let sanitized_light_samples :=
    filter_reports raw_light_samples is_sample_valid in
  match process_lighthouse_samples VL_TICK_RATE VL_ROTOR_RPS
          sanitized_light_samples with
  | None => None
  | Some (sweeps, pulses) =>
      Some (pulses, sweeps,
            collect_readings "B" sweeps, collect_readings "C" sweeps)
  end.

(** ** Vocabulary of the further statements *)

(** The sentinel event [{ 0xffffffff, 0xff, 0xffff }]. *)
Definition sentinel : vive_headset_lighthouse_pulse2 :=
  Pulse2.mk 4294967295 255 65535.

(** A pulse-group that opens a scanning cycle: channel A or B, rotor H. *)
Definition starts_cycle (p : vl_light_sample_group) : bool :=
  (Ascii.eqb (Group.channel p) "A" || Ascii.eqb (Group.channel p) "B") &&
  Ascii.eqb (Group.sweep p) "H".

(** The sequence numbers of a list of pulse-groups when counting starts
    from [acc]: each group that opens a cycle counts one more. *)
Fixpoint seq_numbers (acc : Z) (l : list vl_light_sample_group) : list Z :=
  match l with
  | [] => []
  | p :: rest =>
      let acc' := if starts_cycle p then acc + 1 else acc in
      acc' :: seq_numbers acc' rest
  end.

Definition is_station (c : ascii) : Prop :=
  c = "A"%char \/ c = "B"%char \/ c = "C"%char.

Definition is_rotor (c : ascii) : Prop := c = "H"%char \/ c = "V"%char.

(** Total number of samples held by a list of groups. *)
Definition samples_held (l : list vl_light_sample_group) : nat :=
  fold_right (fun g n => (length (Group.samples g) + n)%nat) O l.

(** The running cycle count after the pulse-groups of [l], starting from
    [acc]. *)
Definition seq_after (acc : Z) (l : list vl_light_sample_group) : Z :=
  fold_left (fun a p => if starts_cycle p then a + 1 else a) l acc.

(** What the state machine guarantees of a pulse-group it emits. *)
Definition valid_pulse_group (p : vl_light_sample_group) : Prop :=
  Forall (fun s => 2000 <= Pulse2.length s) (Group.samples p) /\
  (5 <= length (Group.samples p))%nat /\
  is_station (Group.channel p) /\
  Group.skip p = 0 /\
  median_timestamp (Group.samples p) = Some (Group.epoch p) /\
  exists m,
    median_length (Group.samples p) = Some m /\
    SyncPulse.skip (fst (lookup_pulse_class (u16 m))) = 0 /\
    Group.sweep p =
      sweep_key (SyncPulse.sweep (fst (lookup_pulse_class (u16 m)))).

(** What the loop guarantees of a sweep-group it emits. *)
Definition valid_sweep_group (D : vl_lighthouse_samples)
  (s : vl_light_sample_group) : Prop :=
  Group.samples s <> [] /\
  Forall (fun e => Pulse2.length e < 2000) (Group.samples s) /\
  Group.skip s = 0 /\
  incl (Group.samples s) D.

(** A second invariant of the loop of [process_lighthouse_samples], on
    what the buffers hold and on what has been emitted before iteration
    [n]. *)
Record emit_inv (D : vl_lighthouse_samples) (n : nat) (st : St.t) : Prop := {
  e_pulse_idx :
    Forall (fun i => exists s, nth_error D i = Some s /\
                               2000 <= Pulse2.length s) (St.pulse_inds st);
  e_sweep_idx :
    Forall (fun i => exists s, nth_error D i = Some s /\
                               Pulse2.length s < 2000) (St.sweep_inds st);
  e_pulses : forall p, In p (St.pulses st) -> valid_pulse_group p;
  e_sweeps : forall s, In s (St.sweeps st) -> valid_sweep_group D s;
  e_seq_numbers :
    map Group.seq (St.pulses st) = seq_numbers 0 (St.pulses st);
  e_seq : St.seq st = seq_after 0 (St.pulses st);
  e_sweeps_seq :
    Forall (fun s => 0 <= Group.seq s <= St.seq st) (St.sweeps st) /\
    StronglySorted Z.le (map Group.seq (St.sweeps st));
  e_count :
    (samples_held (St.pulses st) + samples_held (St.sweeps st)
     + length (St.pulse_inds st) + length (St.sweep_inds st) <= n)%nat
}.

(** A valid H pulse of station B, then a pulse set of length 7300 one
    period later and a closing sweep event. *)
Definition stream_len_7300 : vl_lighthouse_samples :=
  cluster 0 3000 ids5 ++ sweep_hits 200000 [0] ++
  cluster 380000 3000 ids5 ++ sweep_hits 500000 [0] ++
  cluster 780000 7300 ids5 ++ sweep_hits 900000 [0].

(** A pulse set with an outlier: three of the five timestamps are 100 and
    four of the five lengths are 3000. *)
Definition outlier_pulse_set : vl_lighthouse_samples :=
  [ Pulse2.mk 100 0 3000; Pulse2.mk 100 1 3000; Pulse2.mk 99999 2 7000;
    Pulse2.mk 100 3 3000; Pulse2.mk 101 4 3000 ].

(** What [collect_readings] keeps of its map: the keys are sensor numbers
    below 32, and each key holds at least one triple of 32-bit values. *)
Definition readings_in_range (R : gmap Z vl_angles) : Prop :=
  forall s a, R !! s = Some a ->
    0 <= s < 32 /\ Angles.x a <> [] /\
    Forall (fun v => 0 <= v < 2 ^ 32) (Angles.x a) /\
    Forall (fun v => 0 <= v < 2 ^ 32) (Angles.y a) /\
    Forall (fun v => 0 <= v < 2 ^ 32) (Angles.t a).

(** [sweeps_dup] with another sweep of sequence number 2 in the place of
    the last one. *)
Definition sweeps_dup_other_last : list vl_light_sample_group :=
  [ Group.mk "B" "H" (double_of_Z 200000) 0 1 [Pulse2.mk 200100 0 200];
    Group.mk "B" "V" (double_of_Z 600000) 0 1 [Pulse2.mk 600060 0 120];
    Group.mk "B" "H" (double_of_Z 1000000) 0 1 [Pulse2.mk 1000300 0 200];
    Group.mk "B" "V" (double_of_Z 1400000) 0 1 [Pulse2.mk 1400500 0 100];
    Group.mk "B" "V" (double_of_Z 2200000) 0 2 [Pulse2.mk 2200900 5 90] ].

(** Scenario S6 of the specification: one H and one V sweep of station B
    for sequence number 1, and a second cycle. *)
Definition sweeps_S6 : list vl_light_sample_group :=
  [ Group.mk "B" "H" (double_of_Z 200000) 0 1 [Pulse2.mk 200100 0 200];
    Group.mk "B" "V" (double_of_Z 600000) 0 1 [Pulse2.mk 600060 0 120];
    Group.mk "B" "H" (double_of_Z 1000000) 0 2 [Pulse2.mk 1000300 0 200];
    Group.mk "B" "V" (double_of_Z 1400000) 0 2 [Pulse2.mk 1400500 0 100] ].

(** * Properties *)

(** ** Sorting, vector access and the medians *)

Lemma insert_sorted_length {A : Type} (leb : A -> A -> bool) x l :
  length (insert_sorted leb x l) = S (length l).
Proof.
  induction l as [|y l IH]; simpl; [reflexivity|].
  destruct (leb x y); simpl; [reflexivity|now rewrite IH].
Qed.

Lemma std_sort_length {A : Type} (leb : A -> A -> bool) l :
  length (std_sort leb l) = length l.
Proof.
  induction l as [|x l IH]; simpl; [reflexivity|].
  unfold std_sort in *. simpl. now rewrite insert_sorted_length, IH.
Qed.

Lemma vec_at_in_range {A : Type} (v : list A) i :
  0 <= i < Z.of_nat (length v) -> exists a, vec_at v i = Some a.
Proof.
  intros H. unfold vec_at.
  replace ((0 <=? i) && (i <? Z.of_nat (length v))) with true
    by (symmetry; apply andb_true_iff; split; [apply Z.leb_le|apply Z.ltb_lt]; lia).
  destruct (nth_error v (Z.to_nat i)) eqn:E; [eauto|].
  apply nth_error_None in E. lia.
Qed.

Lemma vec_at_nil {A : Type} i : vec_at (@nil A) i = None.
Proof.
  unfold vec_at. destruct ((0 <=? i) && _); [|reflexivity].
  now destruct (Z.to_nat i).
Qed.

(** The shape shared by the two medians. *)
Lemma median_indices_in_range (n : Z) :
  0 < n ->
  (n mod 2 = 0 -> 0 <= size_t (n / 2 - 1) < n) /\ 0 <= n / 2 < n.
Proof.
  intros Hn. split.
  - intros Heven. unfold size_t.
    assert (1 <= n / 2) by (apply Z.div_le_lower_bound; [lia|];
      destruct (Z.eq_dec n 1) as [->|]; [discriminate Heven|lia]).
    assert (n / 2 < n) by (apply Z.div_lt; lia).
    split; [apply Z.mod_pos_bound; lia|].
    apply Z.le_lt_trans with (n / 2 - 1); [apply Z.mod_le; lia|lia].
  - split; [apply Z.div_pos; lia|apply Z.div_lt; lia].
Qed.

Lemma median_timestamp_some (S : vl_lighthouse_samples) :
  S <> [] -> exists t, median_timestamp S = Some t.
Proof.
  intros HS. unfold median_timestamp.
  set (ts := std_sort double_leb _).
  assert (Hlen : 0 < Z.of_nat (length ts)).
  { unfold ts. rewrite std_sort_length, length_map. destruct S; [congruence|simpl; lia]. }
  destruct (median_indices_in_range _ Hlen) as [He Ho].
  destruct (Z.of_nat (length ts) mod 2 =? 0) eqn:E.
  - apply Z.eqb_eq in E.
    destruct (vec_at_in_range ts _ (He E)) as [a ->].
    destruct (vec_at_in_range ts _ Ho) as [b ->]. eauto.
  - apply vec_at_in_range, Ho.
Qed.

Lemma median_length_some (S : vl_lighthouse_samples) :
  S <> [] -> exists m, median_length S = Some m.
Proof.
  intros HS. unfold median_length.
  set (ls := std_sort Z.leb _).
  assert (Hlen : 0 < Z.of_nat (length ls)).
  { unfold ls. rewrite std_sort_length, length_map. destruct S; [congruence|simpl; lia]. }
  destruct (median_indices_in_range _ Hlen) as [He Ho].
  destruct (Z.of_nat (length ls) mod 2 =? 0) eqn:E.
  - apply Z.eqb_eq in E.
    destruct (vec_at_in_range ls _ (He E)) as [a ->].
    destruct (vec_at_in_range ls _ Ho) as [b ->]. eauto.
  - apply vec_at_in_range, Ho.
Qed.

Lemma median_timestamp_nil : median_timestamp [] = None.
Proof. reflexivity. Qed.

Lemma median_length_nil : median_length [] = None.
Proof. reflexivity. Qed.

(** ** Index sets of the loop *)

Lemma subset_some (D : vl_lighthouse_samples) (l : list nat) :
  Forall (fun i => (i < length D)%nat) l ->
  exists ss, subset D l = Some ss /\ length ss = length l.
Proof.
  induction 1 as [|i l Hi _ [ss [IH Hlen]]]; simpl; [eauto|].
  destruct (nth_error D i) eqn:E; [|apply nth_error_None in E; lia].
  rewrite IH. eexists; split; [reflexivity|simpl; congruence].
Qed.

Lemma subset_snoc (D : vl_lighthouse_samples) (l : list nat) (i : nat) :
  subset D (l ++ [i]) =
  match subset D l, nth_error D i with
  | Some ss, Some s => Some (ss ++ [s])
  | _, _ => None
  end.
Proof.
  induction l as [|j l IH]; simpl.
  - now destruct (nth_error D i).
  - rewrite IH. destruct (nth_error D j), (subset D l), (nth_error D i); reflexivity.
Qed.

Lemma subset_prefix (D T : vl_lighthouse_samples) (l : list nat) :
  Forall (fun i => (i < length D)%nat) l -> subset (D ++ T) l = subset D l.
Proof.
  induction 1 as [|i l Hi _ IH]; simpl; [reflexivity|].
  now rewrite IH, nth_error_app1.
Qed.

Lemma subset_nil_inv (D : vl_lighthouse_samples) (l : list nat) ss :
  subset D l = Some ss -> (ss = [] <-> l = []).
Proof.
  destruct l as [|i l]; simpl.
  - intros [= <-]. tauto.
  - destruct (nth_error D i), (subset D l); intros [= <-]; split; discriminate.
Qed.

Lemma subset_incl (D : vl_lighthouse_samples) (l : list nat) ss :
  subset D l = Some ss -> incl ss D.
Proof.
  revert ss. induction l as [|i l IH]; simpl; intros ss.
  - intros [= <-]. intros x [].
  - destruct (nth_error D i) as [s|] eqn:E; [|discriminate].
    destruct (subset D l) as [r|]; [|discriminate].
    intros [= <-]. intros x [<- | Hx].
    + eapply nth_error_In; eauto.
    + now apply (IH r).
Qed.

Lemma Forall_lt_weaken (n m : nat) (l : list nat) :
  (n <= m)%nat -> Forall (fun i => (i < n)%nat) l ->
  Forall (fun i => (i < m)%nat) l.
Proof.
  intros Hnm H. induction H; constructor; [lia|assumption].
Qed.

(** ** Pulse ranges *)

Lemma range_of_snoc ps s : range_of (ps ++ [s]) = extend_range (range_of ps) s.
Proof. unfold range_of. now rewrite fold_left_app. Qed.

Lemma chain_overlap_nil : chain_overlap [].
Proof. intros [|? ?] s l2 H; discriminate H. Qed.

Lemma chain_overlap_snoc ps s :
  chain_overlap ps ->
  (ps <> [] -> overlaps_range (range_of ps) s = true) ->
  chain_overlap (ps ++ [s]).
Proof.
  intros Hps Hs l1 x l2 Heq Hl1.
  destruct (list_eq_nil_dec l2) as [->|Hl2].
  - apply app_inj_tail in Heq as [<- <-]. auto.
  - destruct (exists_last Hl2) as [l2' [y ->]].
    rewrite app_comm_cons, app_assoc in Heq.
    apply app_inj_tail in Heq as [-> _]. eapply Hps; eauto.
Qed.

(** ** The pulse state machine *)

Section Loop.

Variables tick rps : Z.

Lemma process_pulse_set_some (S : vl_lighthouse_samples) last_pulse :
  S <> [] ->
  exists t ch sw sk,
    median_timestamp S = Some t /\
    process_pulse_set tick rps S last_pulse = Some (Group.mk ch sw t sk 0 []).
Proof.
  intros HS. unfold process_pulse_set, decode_pulse.
  destruct (median_length_some S HS) as [m ->].
  destruct (median_timestamp_some S HS) as [t ->].
  do 4 eexists. split; reflexivity.
Qed.

(** The three outcomes of [update_pulse_state] on a non-empty pulse set:
    reset, no emission with the sweep kept, or a new sweep with its
    pulse-group. *)
Lemma update_pulse_state_cases (S : vl_lighthouse_samples) lpe cs seq :
  S <> [] ->
  exists t,
    median_timestamp S = Some t /\
    (update_pulse_state tick rps S lpe cs seq =
       Some (t, vl_light_sample_group_default, seq,
             vl_light_sample_group_default)
     \/ update_pulse_state tick rps S lpe cs seq =
       Some (t, cs, seq, vl_light_sample_group_default)
     \/ exists ch sw sk seq',
       update_pulse_state tick rps S lpe cs seq =
       Some (t, Group.mk ch sw t sk 0 S, seq', Group.mk ch sw t 0 seq' S)).
Proof.
  intros HS.
  destruct (process_pulse_set_some S (double_to_int64 lpe) HS)
    as (t & ch & sw & sk & Ht & Hp).
  exists t. split; [exact Ht|].
  unfold update_pulse_state. rewrite Hp. cbn [Group.channel Group.epoch Group.skip Group.sweep Group.seq].
  destruct (Ascii.eqb ch "e" || (Z.of_nat (length S) <? 5)); [now left|].
  destruct (sk =? 0); [|now right; left].
  right; right. eauto.
Qed.

(** ** The loop invariant *)

Lemma loop_inv_initial D : loop_inv D 0 initial_state.
Proof.
  constructor; simpl; try tauto; try discriminate.
  - constructor.
  - constructor.
  - intros ps [= <-]. split; [reflexivity|apply chain_overlap_nil].
Qed.

Lemma empty_range_inv (D : vl_lighthouse_samples) :
  forall ps, subset D [] = Some ps ->
    (UINT32_MAX, 0) = range_of ps /\ chain_overlap ps.
Proof. intros ps [= <-]. split; [reflexivity|apply chain_overlap_nil]. Qed.

Lemma flush_pulse_set_inv D n st :
  (n <= length D)%nat -> loop_inv D n st -> St.pulse_inds st <> [] ->
  exists st', flush_pulse_set tick rps D st = Some st' /\
    loop_inv D n st' /\ St.pulse_inds st' = [] /\
    St.sweep_inds st' = St.sweep_inds st /\ St.sweeps st' = St.sweeps st.
Proof.
  intros Hn Hinv Hne. unfold flush_pulse_set.
  destruct (subset_some D (St.pulse_inds st)) as (ps & Hps & Hlen).
  { eapply Forall_lt_weaken; [exact Hn|apply Hinv]. }
  rewrite Hps.
  assert (Hps_ne : ps <> []) by (rewrite (subset_nil_inv _ _ _ Hps); exact Hne).
  destruct (inv_range _ _ _ Hinv ps Hps) as [_ Hchain].
  pose proof (inv_exclusive _ _ _ Hinv Hne) as Hsw.
  destruct (update_pulse_state_cases ps (St.last_pulse_epoch st)
              (St.current_sweep st) (St.seq st) Hps_ne)
    as (t & _ & [-> | [-> | (ch & sw & sk & seq' & ->)]]).
  - eexists; split; [reflexivity|]. split; [|auto].
    constructor; cbn.
    + constructor.
    + apply Hinv.
    + intros _. exact Hsw.
    + apply (empty_range_inv D).
    + apply Hinv.
    + discriminate.
    + apply Hinv.
  - eexists; split; [reflexivity|]. split; [|auto].
    constructor; cbn.
    + constructor.
    + apply Hinv.
    + intros _. exact Hsw.
    + apply (empty_range_inv D).
    + apply Hinv.
    + apply Hinv.
    + apply Hinv.
  - assert (Hout : isempty (Group.mk ch sw t 0 seq' ps) = false)
      by (destruct ps; [congruence|reflexivity]).
    rewrite Hout.
    eexists; split; [reflexivity|]. split; [|auto].
    constructor; cbn.
    + constructor.
    + apply Hinv.
    + intros _. exact Hsw.
    + apply (empty_range_inv D).
    + intros p [Hp | [<- | []]]%in_app_or;
        [exact (inv_pulses_chain _ _ _ Hinv p Hp)|].
      split; [exact Hchain|exact (subset_incl _ _ _ Hps)].
    + intros _. eexists; split; [apply in_or_app; right; left; reflexivity|].
      cbn. auto.
    + intros s Hs. destruct (inv_sweeps _ _ _ Hinv s Hs) as (p & Hp & Hi).
      exists p. split; [apply in_or_app; now left|exact Hi].
Qed.

Lemma store_sweep_inv D n st :
  (n <= length D)%nat -> loop_inv D n st -> St.sweep_inds st <> [] ->
  exists st', store_sweep D st = Some st' /\
    loop_inv D n st' /\ St.sweep_inds st' = [] /\
    St.pulse_inds st' = [] /\ St.pulses st' = St.pulses st.
Proof.
  intros Hn Hinv Hne. unfold store_sweep.
  destruct (subset_some D (St.sweep_inds st)) as (ss & -> & _).
  { eapply Forall_lt_weaken; [exact Hn|apply Hinv]. }
  assert (Hpi : St.pulse_inds st = []).
  { destruct (St.pulse_inds st) eqn:E; [reflexivity|].
    exfalso. apply Hne. apply (inv_exclusive _ _ _ Hinv). rewrite E. discriminate. }
  eexists; split; [reflexivity|]. split; [|cbn; auto].
  constructor; cbn.
  - apply (inv_pulse_idx _ _ _ Hinv).
  - constructor.
  - reflexivity.
  - apply (inv_range _ _ _ Hinv).
  - apply (inv_pulses_chain _ _ _ Hinv).
  - apply (inv_current _ _ _ Hinv).
  - destruct (isempty (St.current_sweep st)) eqn:E.
    + apply (inv_sweeps _ _ _ Hinv).
    + intros s [Hs | [<- | []]]%in_app_or.
      * apply (inv_sweeps _ _ _ Hinv s Hs).
      * destruct (inv_current _ _ _ Hinv E) as (p & Hp & H1 & H2 & H3 & H4).
        exists p. split; [exact Hp|]. unfold inherits; cbn. auto.
Qed.

Lemma is_nil_true {A : Type} (l : list A) : is_nil l = true <-> l = [].
Proof. destruct l; simpl; split; congruence. Qed.

Lemma is_nil_false {A : Type} (l : list A) : is_nil l = false <-> l <> [].
Proof. destruct l; simpl; split; congruence. Qed.

Lemma Forall_lt_snoc (n : nat) (l : list nat) :
  Forall (fun i => (i < n)%nat) l ->
  Forall (fun i => (i < S n)%nat) (l ++ [n]).
Proof.
  intros H. apply Forall_app. split.
  - eapply Forall_lt_weaken; [|exact H]. lia.
  - constructor; [lia|constructor].
Qed.

(** One iteration keeps the invariant and never fails; the sweep-groups
    present after it inherit from pulse-groups present before it. *)
Lemma loop_body_inv D n st :
  (n < length D)%nat -> loop_inv D n st ->
  exists st', loop_body tick rps D st n = Some st' /\ loop_inv D (S n) st' /\
    forall s, In s (St.sweeps st') ->
      exists p, In p (St.pulses st) /\ inherits s p.
Proof.
  intros Hn Hinv. unfold loop_body.
  destruct (nth_error D n) as [sample|] eqn:Hsample;
    [|apply nth_error_None in Hsample; lia].
  assert (Hweak : forall st0, loop_inv D n st0 -> loop_inv D (S n) st0).
  { intros st0 H0. constructor; try apply H0.
    - eapply Forall_lt_weaken; [|apply (inv_pulse_idx _ _ _ H0)]. lia.
    - eapply Forall_lt_weaken; [|apply (inv_sweep_idx _ _ _ H0)]. lia. }
  destruct (Pulse2.length sample <? 2000).
  - (* sweep sample *)
    assert (exists st1,
      (if is_nil (St.pulse_inds st) then Some st
       else flush_pulse_set tick rps D st) = Some st1 /\
      loop_inv D n st1 /\ St.pulse_inds st1 = [] /\
      St.sweeps st1 = St.sweeps st) as (st1 & -> & Hinv1 & Hp1 & Hsw1).
    { destruct (is_nil (St.pulse_inds st)) eqn:E.
      - apply is_nil_true in E. eauto.
      - apply is_nil_false in E.
        destruct (flush_pulse_set_inv D n st)
          as (st1 & H1 & H2 & H3 & _ & H5);
          [lia|assumption|assumption|eauto]. }
    destruct (isempty (St.current_sweep st1)) eqn:Hcs.
    + eexists; split; [reflexivity|]. split; [auto|].
      rewrite Hsw1. apply (inv_sweeps _ _ _ Hinv).
    + eexists; split; [reflexivity|]. split.
      * constructor; cbn.
        -- rewrite Hp1. constructor.
        -- apply Forall_lt_snoc, (inv_sweep_idx _ _ _ Hinv1).
        -- rewrite Hp1. congruence.
        -- apply (inv_range _ _ _ Hinv1).
        -- apply (inv_pulses_chain _ _ _ Hinv1).
        -- apply (inv_current _ _ _ Hinv1).
        -- apply (inv_sweeps _ _ _ Hinv1).
      * cbn. rewrite Hsw1. apply (inv_sweeps _ _ _ Hinv).
  - (* pulse sample *)
    assert (exists st1,
      (if is_nil (St.sweep_inds st) then Some st
       else store_sweep D st) = Some st1 /\
      loop_inv D n st1 /\ St.sweep_inds st1 = [] /\
      St.pulses st1 = St.pulses st) as (st1 & -> & Hinv1 & Hs1 & Hpu1).
    { destruct (is_nil (St.sweep_inds st)) eqn:E.
      - apply is_nil_true in E. eauto.
      - apply is_nil_false in E.
        destruct (store_sweep_inv D n st) as (st1 & H1 & H2 & H3 & _ & H5);
          [lia|assumption|assumption|eauto 6]. }
    assert (Hprev : forall s, In s (St.sweeps st1) ->
              exists p, In p (St.pulses st) /\ inherits s p).
    { rewrite <- Hpu1. apply (inv_sweeps _ _ _ Hinv1). }
    destruct (is_nil (St.pulse_inds st1) ||
              overlaps_range (St.pulse_range st1) sample) eqn:Hjoin.
    + eexists; split; [reflexivity|]. split; [|exact Hprev].
      destruct (subset_some D (St.pulse_inds st1)) as (ps & Hps & _).
      { eapply Forall_lt_weaken; [|apply (inv_pulse_idx _ _ _ Hinv1)]. lia. }
      destruct (inv_range _ _ _ Hinv1 ps Hps) as [Hrange Hchain].
      constructor; cbn.
      * apply Forall_lt_snoc, (inv_pulse_idx _ _ _ Hinv1).
      * rewrite Hs1. constructor.
      * intros _. exact Hs1.
      * intros ps'. rewrite subset_snoc, Hps, Hsample. intros [= <-].
        rewrite range_of_snoc, Hrange. split; [reflexivity|].
        apply chain_overlap_snoc; [exact Hchain|].
        intros Hne. rewrite <- Hrange.
        apply orb_true_iff in Hjoin as [Hnil|Hov]; [|exact Hov].
        apply is_nil_true in Hnil. exfalso. apply Hne.
        now apply (subset_nil_inv _ _ _ Hps).
      * apply (inv_pulses_chain _ _ _ Hinv1).
      * apply (inv_current _ _ _ Hinv1).
      * apply (inv_sweeps _ _ _ Hinv1).
    + apply orb_false_iff in Hjoin as [Hnil _]. apply is_nil_false in Hnil.
      destruct (flush_pulse_set_inv D n st1)
        as (st2 & H1 & H2 & _ & _ & H5);
        [lia|assumption|assumption|].
      exists st2. split; [exact H1|]. split; [auto|].
      rewrite H5. exact Hprev.
Qed.

Lemma run_loop_app D l1 l2 st :
  run_loop tick rps D (l1 ++ l2) st =
  match run_loop tick rps D l1 st with
  | Some st' => run_loop tick rps D l2 st'
  | None => None
  end.
Proof.
  revert st. induction l1 as [|i l1 IH]; intros st; simpl; [reflexivity|].
  destruct (loop_body tick rps D st i); [apply IH|reflexivity].
Qed.

Lemma state_after_S D n :
  state_after tick rps D (S n) =
  match state_after tick rps D n with
  | Some st => loop_body tick rps D st n
  | None => None
  end.
Proof.
  unfold state_after. rewrite seq_S, run_loop_app. simpl.
  destruct (run_loop tick rps D (List.seq 0 n) initial_state) as [st|]; [|reflexivity].
  now destruct (loop_body tick rps D st n).
Qed.

(** The loop reaches every iteration and the invariant holds there. *)
Lemma state_after_inv D n :
  (n <= length D)%nat ->
  exists st, state_after tick rps D n = Some st /\ loop_inv D n st.
Proof.
  induction n as [|n IH]; intros Hn.
  - exists initial_state. split; [reflexivity|apply loop_inv_initial].
  - destruct IH as (st & Hst & Hinv); [lia|].
    rewrite state_after_S, Hst.
    destruct (loop_body_inv D n st) as (st' & H1 & H2 & _);
      [lia|exact Hinv|eauto].
Qed.

Lemma process_lighthouse_samples_some D :
  exists st, state_after tick rps D (length D) = Some st /\
    loop_inv D (length D) st /\
    process_lighthouse_samples tick rps D = Some (St.sweeps st, St.pulses st).
Proof.
  destruct (state_after_inv D (length D)) as (st & Hst & Hinv); [lia|].
  exists st. unfold process_lighthouse_samples. rewrite Hst. auto.
Qed.

(** ** Streams that share a prefix *)

Lemma flush_pulse_set_prefix D T st :
  Forall (fun i => (i < length D)%nat) (St.pulse_inds st) ->
  flush_pulse_set tick rps (D ++ T) st = flush_pulse_set tick rps D st.
Proof. intros H. unfold flush_pulse_set. now rewrite subset_prefix. Qed.

Lemma store_sweep_prefix D T st :
  Forall (fun i => (i < length D)%nat) (St.sweep_inds st) ->
  store_sweep (D ++ T) st = store_sweep D st.
Proof. intros H. unfold store_sweep. now rewrite subset_prefix. Qed.

Lemma loop_body_prefix D T st i :
  (i < length D)%nat ->
  Forall (fun i => (i < length D)%nat) (St.pulse_inds st) ->
  Forall (fun i => (i < length D)%nat) (St.sweep_inds st) ->
  loop_body tick rps (D ++ T) st i = loop_body tick rps D st i.
Proof.
  intros Hi Hp Hs. unfold loop_body. rewrite nth_error_app1 by exact Hi.
  destruct (nth_error D i) as [sample|]; [|reflexivity].
  rewrite flush_pulse_set_prefix, store_sweep_prefix by assumption.
  destruct (Pulse2.length sample <? 2000); [reflexivity|].
  destruct (is_nil (St.sweep_inds st)).
  - now rewrite flush_pulse_set_prefix.
  - unfold store_sweep. destruct (subset D (St.sweep_inds st)); [|reflexivity].
    now rewrite flush_pulse_set_prefix.
Qed.

Lemma state_after_prefix D T n :
  (n <= length D)%nat ->
  state_after tick rps (D ++ T) n = state_after tick rps D n.
Proof.
  induction n as [|n IH]; intros Hn; [reflexivity|].
  rewrite !state_after_S, IH by lia.
  destruct (state_after_inv D n) as (st & -> & Hinv); [lia|].
  apply loop_body_prefix; [lia| |].
  - eapply Forall_lt_weaken; [|apply (inv_pulse_idx _ _ _ Hinv)]. lia.
  - eapply Forall_lt_weaken; [|apply (inv_sweep_idx _ _ _ Hinv)]. lia.
Qed.

(** An absorbed sample changes neither output list. *)
Lemma loop_body_absorbs D st i sample :
  nth_error D i = Some sample -> absorbs st sample = true ->
  exists st', loop_body tick rps D st i = Some st' /\
    St.pulses st' = St.pulses st /\ St.sweeps st' = St.sweeps st.
Proof.
  intros Hs Ha. unfold loop_body. rewrite Hs. unfold absorbs in Ha.
  destruct (Pulse2.length sample <? 2000).
  - rewrite Ha. destruct (isempty (St.current_sweep st)); eauto.
  - apply andb_true_iff in Ha as [-> ->]. eauto.
Qed.

End Loop.

(** ** Pulse ranges of well-formed samples *)

Lemma range_of_attained (l : vl_lighthouse_samples) :
  l <> [] -> Forall Pulse2.wf l ->
  (exists b, In b l /\ fst (range_of l) = Pulse2.timestamp b) /\
  (exists a, In a l /\ snd (range_of l) = sample_end a).
Proof.
  induction l as [|s l IH] using rev_ind; [congruence|].
  intros _ Hwf. apply Forall_app in Hwf as [Hl Hs].
  inversion_clear Hs as [|? ? (Hts & _ & _) _].
  rewrite range_of_snoc. unfold extend_range. cbn [fst snd].
  fold (sample_end s).
  assert (Hend : 0 <= sample_end s) by (apply Z.mod_pos_bound; lia).
  destruct l as [|s0 l0].
  - cbn. unfold UINT32_MAX. split; exists s; (split; [now left|lia]).
  - destruct IH as [(b & Hb & Hfst) (a & Ha & Hsnd)]; [discriminate|exact Hl|].
    split.
    + destruct (Z.min_spec (fst (range_of (s0 :: l0))) (Pulse2.timestamp s))
        as [[_ ->] | [_ ->]].
      * exists b. split; [apply in_or_app; now left|exact Hfst].
      * exists s. split; [apply in_or_app; right; now left|reflexivity].
    + destruct (Z.max_spec (snd (range_of (s0 :: l0))) (sample_end s))
        as [[_ ->] | [_ ->]].
      * exists s. split; [apply in_or_app; right; now left|reflexivity].
      * exists a. split; [apply in_or_app; now left|exact Hsnd].
Qed.

Lemma chain_overlap_explicit (ps l1 l2 : vl_lighthouse_samples) s :
  chain_overlap ps -> Forall Pulse2.wf ps -> ps = l1 ++ s :: l2 -> l1 <> [] ->
  (exists a, In a l1 /\ Pulse2.timestamp s <= sample_end a) /\
  (exists b, In b l1 /\ Pulse2.timestamp b <= sample_end s).
Proof.
  intros Hchain Hwf Heq Hne.
  pose proof (Hchain l1 s l2 Heq Hne) as Hov.
  unfold overlaps_range in Hov. apply andb_true_iff in Hov as [H1 H2].
  apply Z.leb_le in H1, H2. fold (sample_end s) in H2.
  rewrite Heq in Hwf. apply Forall_app in Hwf as [Hwf1 _].
  destruct (range_of_attained l1 Hne Hwf1) as [(b & Hb & Hfst) (a & Ha & Hsnd)].
  split; [exists a|exists b]; (split; [assumption|lia]).
Qed.

(** ** The pulse classifier *)

Lemma pulse_window_spec L e : pulse_window L e = true <-> in_window L e.
Proof.
  unfold pulse_window, in_window.
  rewrite andb_true_iff, !Z.ltb_lt. lia.
Qed.

Lemma scan_first tbl L : forall i e,
  nth_error tbl i = Some e -> in_window L e ->
  (forall j e', (j < i)%nat -> nth_error tbl j = Some e' -> ~ in_window L e') ->
  scan_pulse_table tbl L = Some e.
Proof.
  induction tbl as [|a tbl IH]; intros [|i] e Hn Hw Hprev; simpl in *;
    try discriminate.
  - injection Hn as ->. apply pulse_window_spec in Hw. now rewrite Hw.
  - destruct (pulse_window L a) eqn:E.
    + exfalso. apply (Hprev 0%nat a); [lia|reflexivity|].
      now apply pulse_window_spec.
    + apply (IH i e Hn Hw). intros j e' Hj He'.
      apply (Hprev (S j) e'); [lia|exact He'].
Qed.

Lemma scan_none tbl L :
  (forall e, In e tbl -> ~ in_window L e) -> scan_pulse_table tbl L = None.
Proof.
  induction tbl as [|a tbl IH]; intros H; simpl; [reflexivity|].
  destruct (pulse_window L a) eqn:E.
  - exfalso. apply (H a); [now left|]. now apply pulse_window_spec.
  - apply IH. intros e He. apply H. now right.
Qed.

(** C2.  For every pulse length [L], [lookup_pulse_class] returns the first
    entry of [pulse_table] whose duration satisfies [|L - duration| < 250],
    without logging.  When no entry matches it logs an error and returns
    the value-initialised class: its skip, sweep and data are 0, not -1, so
    what [decode_pulse] hands on after the error is the triple of a valid
    pulse (no skip, rotor H, data bit 0) and not the [-1] that the comment
    above [decode_pulse] gives for an error in decoding. *)
Theorem lookup_pulse_class_first_match (L : Z) :
  (forall i e, nth_error pulse_table i = Some e -> in_window L e ->
     (forall j e', (j < i)%nat -> nth_error pulse_table j = Some e' ->
                   ~ in_window L e') ->
     lookup_pulse_class L = (e, []))
  /\
  ((forall e, In e pulse_table -> ~ in_window L e) ->
     lookup_pulse_class L = (SyncPulse.mk 0 0 0 0, [no_pulse_class_msg]) /\
     SyncPulse.skip (fst (lookup_pulse_class L)) <> -1 /\
     forall S, median_length S = Some L -> 0 <= L < 2 ^ 16 ->
       decode_pulse S = Some (0, 0, 0)).
Proof.
  split.
  - intros i e Hn Hw Hprev. unfold lookup_pulse_class.
    now rewrite (scan_first pulse_table L i e Hn Hw Hprev).
  - intros H.
    assert (lookup_pulse_class L =
            (SyncPulse.mk 0 0 0 0, [no_pulse_class_msg])) as E
      by (unfold lookup_pulse_class; now rewrite (scan_none _ _ H)).
    split; [exact E|]. split; [rewrite E; discriminate|].
    intros S Hm HL. unfold decode_pulse. rewrite Hm.
    unfold u16. rewrite Z.mod_small by exact HL. now rewrite E.
Qed.

Lemma lookup_pulse_class_first_match_witness :
  lookup_pulse_class 3100 = (SyncPulse.mk 3000 0 0 0, []) /\
  lookup_pulse_class 7300 = (SyncPulse.mk 0 0 0 0, [no_pulse_class_msg]) /\
  decode_pulse (cluster 0 7300 ids5) = Some (0, 0, 0).
Proof.
  split.
  - apply (proj1 (lookup_pulse_class_first_match 3100) 1%nat).
    + reflexivity.
    + unfold in_window; simpl; lia.
    + intros j e' Hj He'. assert (j = 0%nat) as -> by lia.
      injection He' as <-. unfold in_window; simpl; lia.
  - destruct (proj2 (lookup_pulse_class_first_match 7300)) as (E & _ & Hd).
    + intros e He. unfold in_window. simpl in He.
      repeat (destruct He as [<-|He]; [simpl; lia|]). destruct He.
    + split; [exact E|]. apply Hd; [reflexivity|lia].
Defined.

(** ** The sanitizer *)

Lemma filter_idempotent {A : Type} (f : A -> bool) (l : list A) :
  List.filter f (List.filter f l) = List.filter f l.
Proof.
  induction l as [|a l IH]; simpl; [reflexivity|].
  destruct (f a) eqn:E; simpl; [rewrite E, IH|]; auto.
Qed.

(** C8.  The sanitizer, [filter_reports] applied with [is_sample_valid], is
    idempotent: sanitizing a sanitized list changes nothing. *)
Theorem sanitize_idempotent (S : vl_lighthouse_samples) :
  sanitize (sanitize S) = sanitize S.
Proof. unfold sanitize, filter_reports. apply filter_idempotent. Qed.

(** ** Medians and the pipeline *)

Lemma update_pulse_state_nil tick rps lpe cs seq :
  update_pulse_state tick rps [] lpe cs seq = None.
Proof. reflexivity. Qed.

(** C9.  [median_timestamp] and [median_length] are defined exactly on the
    non-empty sample lists (on the empty list the even-size branch reads
    outside the vector), and so is [update_pulse_state], which calls both;
    [process_lighthouse_samples] nevertheless returns on every input: it
    hands [update_pulse_state] non-empty pulse sets only, so the failing
    branch is never reached (a flush of an empty accumulator would make
    the whole run fail). *)
Theorem medians_defined_on_pipeline tick rps :
  (forall S, median_timestamp S = None <-> S = []) /\
  (forall S, median_length S = None <-> S = []) /\
  (forall S lpe cs seq,
     update_pulse_state tick rps S lpe cs seq = None <-> S = []) /\
  (forall D sweep_inds lpe seq cs range pulses sweeps,
     flush_pulse_set tick rps D
       (St.mk [] sweep_inds lpe seq cs range pulses sweeps) = None) /\
  (forall D, exists sweeps pulses,
     process_lighthouse_samples tick rps D = Some (sweeps, pulses)).
Proof.
  repeat split.
  - intros H. destruct S as [|s S]; [reflexivity|].
    destruct (median_timestamp_some (s :: S)) as [t Ht]; congruence.
  - intros ->. reflexivity.
  - intros H. destruct S as [|s S]; [reflexivity|].
    destruct (median_length_some (s :: S)) as [t Ht]; congruence.
  - intros ->. reflexivity.
  - intros H. destruct S as [|s S]; [reflexivity|].
    destruct (update_pulse_state_cases tick rps (s :: S) lpe cs seq)
      as (t & _ & [H1 | [H1 | (? & ? & ? & ? & H1)]]); congruence.
  - intros ->. reflexivity.
  - intros D. destruct (process_lighthouse_samples_some tick rps D)
      as (st & _ & _ & H). eauto.
Qed.

(** C7.  Every sweep-group emitted by [process_lighthouse_samples] carries
    the channel, rotor, epoch and sequence number of a pulse-group of the
    output; and at every iteration of the loop, each sweep-group present
    after the iteration inherits from a pulse-group that was already
    emitted before the iteration. *)
Theorem sweep_inheritance tick rps (D : vl_lighthouse_samples) :
  (exists sweeps pulses,
     process_lighthouse_samples tick rps D = Some (sweeps, pulses) /\
     forall s, In s sweeps -> exists p, In p pulses /\ inherits s p)
  /\
  (forall n, (n < length D)%nat ->
     exists st st',
       state_after tick rps D n = Some st /\
       state_after tick rps D (S n) = Some st' /\
       forall s, In s (St.sweeps st') ->
         exists p, In p (St.pulses st) /\ inherits s p).
Proof.
  split.
  - destruct (process_lighthouse_samples_some tick rps D)
      as (st & _ & Hinv & H).
    exists (St.sweeps st), (St.pulses st). split; [exact H|].
    apply (inv_sweeps _ _ _ Hinv).
  - intros n Hn.
    destruct (state_after_inv tick rps D n) as (st & Hst & Hinv); [lia|].
    destruct (loop_body_inv tick rps D n st Hn Hinv) as (st' & Hb & _ & Hprev).
    exists st, st'. rewrite state_after_S, Hst. auto.
Qed.

Lemma sweep_inheritance_witness :
  exists st st',
    state_after 48000000 60 stream_len_2700 13 = Some st /\
    state_after 48000000 60 stream_len_2700 14 = Some st' /\
    length (St.sweeps st') = 1%nat /\
    forall s, In s (St.sweeps st') ->
      exists p, In p (St.pulses st) /\ inherits s p.
Proof.
  destruct (proj2 (sweep_inheritance 48000000 60 stream_len_2700) 13%nat)
    as (st & st' & H13 & H14 & Hinh).
  { vm_compute. lia. }
  exists st, st'. split; [exact H13|]. split; [exact H14|].
  split; [|exact Hinh].
  pose proof H14 as E. vm_compute in E. injection E as <-. reflexivity.
Defined.

(** C6.  In every pulse-group emitted by [process_lighthouse_samples], each
    event but the first overlaps the range that the events before it in the
    group span, which is the test of the loop: on well-formed input the
    event starts no later than the end of some earlier event of the group
    and ends no earlier than the start of some earlier event (ends being
    the 32-bit sums [timestamp + length]). *)
Theorem pulse_group_chain_overlap tick rps (D : vl_lighthouse_samples) :
  exists sweeps pulses,
    process_lighthouse_samples tick rps D = Some (sweeps, pulses) /\
    forall p, In p pulses ->
      chain_overlap (Group.samples p) /\
      (Forall Pulse2.wf D ->
       forall l1 s l2, Group.samples p = l1 ++ s :: l2 -> l1 <> [] ->
         (exists a, In a l1 /\ Pulse2.timestamp s <= sample_end a) /\
         (exists b, In b l1 /\ Pulse2.timestamp b <= sample_end s)).
Proof.
  destruct (process_lighthouse_samples_some tick rps D) as (st & _ & Hinv & H).
  exists (St.sweeps st), (St.pulses st). split; [exact H|].
  intros p Hp. destruct (inv_pulses_chain _ _ _ Hinv p Hp) as [Hchain Hincl].
  split; [exact Hchain|].
  intros Hwf l1 s l2 Heq Hne.
  apply (chain_overlap_explicit (Group.samples p) l1 l2 s); try assumption.
  apply List.Forall_forall. intros x Hx.
  apply (proj1 (List.Forall_forall Pulse2.wf D) Hwf). now apply Hincl.
Qed.

Lemma wf_stream_chained : Forall Pulse2.wf stream_chained.
Proof. repeat constructor; vm_compute; congruence. Qed.

Lemma pulse_group_chain_overlap_witness :
  exists sweeps pulses,
    process_lighthouse_samples 48000000 60 stream_chained =
      Some (sweeps, pulses) /\
    forall p, In p pulses ->
      chain_overlap (Group.samples p) /\
      forall l1 s l2, Group.samples p = l1 ++ s :: l2 -> l1 <> [] ->
        (exists a, In a l1 /\ Pulse2.timestamp s <= sample_end a) /\
        (exists b, In b l1 /\ Pulse2.timestamp b <= sample_end s).
Proof.
  destruct (pulse_group_chain_overlap 48000000 60 stream_chained)
    as (sweeps & pulses & Hrun & H).
  exists sweeps, pulses. split; [exact Hrun|].
  intros p Hp. destruct (H p Hp) as [H1 H2].
  split; [exact H1|exact (H2 wf_stream_chained)].
Defined.

(** C6, as stated, fails: [stream_chained] makes the decoder emit a
    pulse-group whose first and third events do not overlap (the first
    ends at 381000, the third starts at 383800). *)
Lemma pulse_group_not_pairwise_overlapping :
  exists sweeps p a b,
    process_lighthouse_samples 48000000 60 stream_chained =
      Some (sweeps, [p]) /\
    In a (Group.samples p) /\ In b (Group.samples p) /\
    ~ intervals_overlap a b.
Proof.
  exists [], (Group.mk "B" "H" (Dbl 761800) 0 1 chained_pulse_set),
    (Pulse2.mk 378000 0 3000), (Pulse2.mk 383800 2 3000).
  split; [vm_compute; reflexivity|].
  split; [now left|]. split; [right; right; now left|].
  unfold intervals_overlap. cbn. lia.
Qed.

Lemma absorbed_event_discarded tick rps (D : vl_lighthouse_samples)
  (e : vive_headset_lighthouse_pulse2) st :
  state_after tick rps D (length D) = Some st ->
  absorbs st e = true ->
  process_lighthouse_samples tick rps (D ++ [e]) =
  process_lighthouse_samples tick rps D.
Proof.
  intros Hst Ha. unfold process_lighthouse_samples.
  rewrite length_app, Nat.add_1_r, state_after_S.
  rewrite state_after_prefix, Hst by lia.
  destruct (loop_body_absorbs tick rps (D ++ [e]) st (length D) e)
    as (st' & -> & -> & ->); [|exact Ha|reflexivity].
  now rewrite nth_error_app2, Nat.sub_diag by lia.
Qed.

(** C3.  Nothing is flushed at the end of the stream: the output is made
    of the groups emitted during the loop, and the events left in the
    pulse accumulator are discarded like those left in the sweep buffer.
    Whenever the events of a tail [T] each join the pulse accumulator or
    the sweep buffer without triggering a flush, the output on [D ++ T] is
    the output on [D]; a pulse set reaches the state machine only when a
    later event arrives. *)
Theorem end_of_stream_discards tick rps (D T : vl_lighthouse_samples) :
  absorbed_tail tick rps D T ->
  process_lighthouse_samples tick rps (D ++ T) =
  process_lighthouse_samples tick rps D.
Proof.
  induction T as [|e T IH] using rev_ind; intros Htail.
  - now rewrite app_nil_r.
  - rewrite app_assoc.
    destruct (Htail (length T) e) as (st & Hst & Ha).
    { now rewrite nth_error_app2, Nat.sub_diag by lia. }
    rewrite app_assoc, state_after_prefix in Hst
      by (rewrite length_app; lia).
    rewrite <- length_app in Hst.
    rewrite (absorbed_event_discarded tick rps (D ++ T) e st Hst Ha).
    apply IH. intros k e' Hk.
    assert (k < length T)%nat as Hlt by (apply nth_error_Some; congruence).
    destruct (Htail k e') as (st' & Hst' & Ha').
    { now rewrite nth_error_app1. }
    exists st'. split; [|exact Ha'].
    rewrite app_assoc, state_after_prefix in Hst'
      by (rewrite length_app; lia).
    exact Hst'.
Qed.

Lemma end_of_stream_discards_witness :
  process_lighthouse_samples 48000000 60
    ((cluster 0 3000 ids8 ++ sweep_hits 200000 ids8) ++
     cluster 380000 3500 ids8) =
  process_lighthouse_samples 48000000 60
    (cluster 0 3000 ids8 ++ sweep_hits 200000 ids8).
Proof.
  apply (end_of_stream_discards 48000000 60
           (cluster 0 3000 ids8 ++ sweep_hits 200000 ids8)
           (cluster 380000 3500 ids8)).
  intros k e Hk.
  do 8 (destruct k as [|k];
        [injection Hk as <-; eexists; split; vm_compute; reflexivity|]).
  destruct k; discriminate Hk.
Defined.

(** C3, as stated, fails: [stream_trailing_pulse] ends inside a pulse set
    that the state machine would accept ([update_pulse_state] returns a
    non-empty pulse-group for it), yet the output holds no pulse-group. *)
Lemma trailing_pulse_set_not_flushed :
  exists st ps lpe cs seq out,
    state_after 48000000 60 stream_trailing_pulse
      (length stream_trailing_pulse) = Some st /\
    subset stream_trailing_pulse (St.pulse_inds st) = Some ps /\
    update_pulse_state 48000000 60 ps (St.last_pulse_epoch st)
      (St.current_sweep st) (St.seq st) = Some (lpe, cs, seq, out) /\
    isempty out = false /\
    process_lighthouse_samples 48000000 60 stream_trailing_pulse =
      Some ([], []).
Proof.
  do 6 eexists. split; [vm_compute; reflexivity|].
  split; [vm_compute; reflexivity|].
  split; [vm_compute; reflexivity|].
  split; reflexivity.
Qed.




Lemma scenario_S1_run :
  process_lighthouse_samples 48000000 60 scenario_S1 =
    Some ([], [Group.mk "B" "V" (double_of_Z 380000) 0 0
                 (cluster 380000 3500 ids8)]).
Proof. vm_compute. reflexivity. Qed.

(** C5.  On scenario S1 (with [VL_TICK_RATE = 48000000] and
    [VL_ROTOR_RPS = 60]) the decoder emits one pulse-group and no
    sweep-group.  The first pulse set, 4293967296 ticks away from the
    initial [last_pulse_epoch] once narrowed to 32 bits, gets channel ['e']
    and is dropped together with the sweep events that follow it; the
    second pulse set, 380000 ticks after the first, is emitted with
    channel B, rotor V, epoch 380000 and [seq = 0]; the last sweep events
    stay in the sweep buffer.  [seq] is 0 throughout. *)
Theorem scenario_S1_output :
  process_lighthouse_samples 48000000 60 scenario_S1 =
    Some ([], [Group.mk "B" "V" (double_of_Z 380000) 0 0
                 (cluster 380000 3500 ids8)]) /\
  (exists p,
     process_pulse_set 48000000 60 (cluster 0 3000 ids8)
       (double_to_int64 (St.last_pulse_epoch initial_state)) = Some p /\
     Group.channel p = "e"%char /\ Group.sweep p = "H"%char) /\
  (exists st,
     state_after 48000000 60 scenario_S1 (length scenario_S1) = Some st /\
     St.seq st = 0 /\ St.sweep_inds st = List.seq 24 8).
Proof.
  split; [exact scenario_S1_run|].
  split; eexists; (split; [vm_compute; reflexivity|split; reflexivity]).
Qed.

(** C5, as stated, fails: the output on scenario S1 does not consist of
    two pulse-groups and two sweep-groups. *)
Lemma scenario_S1_not_two_groups :
  ~ exists sweeps pulses,
      process_lighthouse_samples 48000000 60 scenario_S1 =
        Some (sweeps, pulses) /\
      length pulses = 2%nat /\ length sweeps = 2%nat.
Proof.
  intros (sweeps & pulses & H & Hp & _).
  rewrite scenario_S1_run in H. injection H as <- <-. discriminate Hp.
Qed.

(** ** The angle collator *)

Lemma sensor_body_same x_sweep y_sweep (R : gmap Z vl_angles) log s
      xi0 xi' yi0 yi' :
  filter_samples_by_sensor_id (Group.samples x_sweep) s = xi0 :: xi' ->
  filter_samples_by_sensor_id (Group.samples y_sweep) s = yi0 :: yi' ->
  fst (sensor_body x_sweep y_sweep (R, log) s) !! s =
  Some (push_t (double_to_u32 (Group.epoch x_sweep))
          (push_y (ticks_sample_to_angle yi0
                     (double_to_u32 (Group.epoch y_sweep)))
             (push_x (ticks_sample_to_angle xi0
                        (double_to_u32 (Group.epoch x_sweep)))
                (default vl_angles_default (R !! s))))).
Proof.
  intros Hx Hy. unfold sensor_body. rewrite Hx, Hy. cbn [fst].
  rewrite !lookup_alter_eq.
  destruct (R !! s) as [a|] eqn:E.
  - rewrite E. reflexivity.
  - rewrite lookup_insert_eq. reflexivity.
Qed.

Lemma sensor_body_other x_sweep y_sweep (acc : readings) s s' :
  s <> s' ->
  fst (sensor_body x_sweep y_sweep acc s) !! s' = fst acc !! s'.
Proof.
  intros Hne. destruct acc as [R log]. unfold sensor_body.
  destruct (filter_samples_by_sensor_id (Group.samples x_sweep) s);
    [reflexivity|].
  destruct (filter_samples_by_sensor_id (Group.samples y_sweep) s);
    [reflexivity|].
  cbn [fst]. rewrite !lookup_alter_ne by exact Hne.
  destruct (R !! s); [reflexivity|]. now rewrite lookup_insert_ne.
Qed.

(** One pass of the sensor loop records at most one triple for a sensor. *)
Lemma sensor_body_count x_sweep y_sweep (acc : readings) s :
  (readings_count (fst acc) s
   <= readings_count (fst (sensor_body x_sweep y_sweep acc s)) s
   <= S (readings_count (fst acc) s))%nat.
Proof.
  destruct acc as [R log].
  destruct (filter_samples_by_sensor_id (Group.samples x_sweep) s)
    as [|xi0 xi'] eqn:Hx.
  { unfold sensor_body. rewrite Hx. cbn. lia. }
  destruct (filter_samples_by_sensor_id (Group.samples y_sweep) s)
    as [|yi0 yi'] eqn:Hy.
  { unfold sensor_body. rewrite Hx, Hy. cbn. lia. }
  unfold readings_count at 2 3.
  rewrite (sensor_body_same _ _ _ _ _ _ _ _ _ Hx Hy).
  cbn [push_t push_y push_x Angles.x fst]. rewrite length_app.
  unfold readings_count. destruct (R !! s); cbn; lia.
Qed.

Lemma sensor_fold_count x_sweep y_sweep (l : list Z) (acc : readings) s :
  List.NoDup l ->
  (readings_count (fst acc) s
   <= readings_count (fst (fold_left (sensor_body x_sweep y_sweep) l acc)) s
   <= S (readings_count (fst acc) s))%nat /\
  (~ In s l ->
   fst (fold_left (sensor_body x_sweep y_sweep) l acc) !! s = fst acc !! s).
Proof.
  intros Hnd. revert acc.
  induction l as [|a l IH]; intros acc; cbn [fold_left].
  - split; [lia|reflexivity].
  - apply List.NoDup_cons_iff in Hnd as [Ha Hnd].
    destruct (IH Hnd (sensor_body x_sweep y_sweep acc a)) as [IH1 IH2].
    split.
    + destruct (Z.eq_dec a s) as [->|Hne].
      * unfold readings_count at 2 3. rewrite (IH2 Ha).
        apply sensor_body_count.
      * unfold readings_count at 1 4.
        rewrite <- (sensor_body_other x_sweep y_sweep acc a s Hne).
        exact IH1.
    + intros Hs. rewrite IH2 by (intros H; apply Hs; now right).
      apply sensor_body_other. intros ->. apply Hs. now left.
Qed.

Lemma NoDup_sensor_ids : List.NoDup sensor_ids.
Proof.
  unfold sensor_ids. apply Finite.Injective_map_NoDup.
  - intros a b. apply Nat2Z.inj.
  - apply seq_NoDup.
Qed.

Lemma sweep_body_count x_sweeps y_sweeps (acc : readings) sweep_i s :
  (readings_count (fst acc) s
   <= readings_count (fst (sweep_body x_sweeps y_sweeps acc sweep_i)) s
   <= readings_count (fst acc) s
      + (if (sweep_i <? length y_sweeps)%nat then 1 else 0))%nat.
Proof.
  unfold sweep_body.
  destruct (nth_error x_sweeps sweep_i) as [x_sweep|]; [|cbn; lia].
  destruct (nth_error y_sweeps sweep_i) as [y_sweep|] eqn:Hy; [|cbn; lia].
  assert (sweep_i < length y_sweeps)%nat as Hlt
    by (apply nth_error_Some; congruence).
  apply Nat.ltb_lt in Hlt. rewrite Hlt.
  destruct (sensor_fold_count x_sweep y_sweep sensor_ids acc s NoDup_sensor_ids)
    as [H _]. lia.
Qed.

Lemma sweep_fold_count x_sweeps y_sweeps (acc : readings) (n : nat) s :
  (readings_count (fst acc) s
   <= readings_count
        (fst (fold_left (sweep_body x_sweeps y_sweeps) (List.seq 0 n) acc)) s
   <= readings_count (fst acc) s + Nat.min n (length y_sweeps))%nat.
Proof.
  induction n as [|n IH]; [cbn; lia|].
  rewrite seq_S, fold_left_app. cbn [fold_left Nat.add].
  pose proof (sweep_body_count x_sweeps y_sweeps
    (fold_left (sweep_body x_sweeps y_sweeps) (List.seq 0 n) acc) n s) as H.
  destruct (n <? length y_sweeps)%nat eqn:E.
  - apply Nat.ltb_lt in E. lia.
  - apply Nat.ltb_ge in E. lia.
Qed.

Lemma seq_body_count station sweeps i (acc : readings) s :
  (readings_count (fst acc) s
   <= readings_count (fst (fst (seq_body station sweeps i acc))) s
   <= readings_count (fst acc) s
      + Nat.min (length (filter_sweeps sweeps station i "H"))
                (length (filter_sweeps sweeps station i "V")))%nat.
Proof.
  unfold seq_body.
  destruct ((Z.of_nat (length (filter_sweeps sweeps station i "H")) <? 1) ||
            (Z.of_nat (length (filter_sweeps sweeps station i "V")) <? 1));
    [cbn; lia|].
  cbn [fst].
  match goal with
  | |- context [fold_left _ _ ?a] =>
      replace (readings_count (fst acc) s) with (readings_count (fst a) s)
        by (destruct (_ || _); reflexivity)
  end.
  apply sweep_fold_count.
Qed.

Lemma seq_loop_count station sweeps count : forall i (acc : readings) s,
  (readings_count (fst (seq_loop station sweeps count i acc)) s
   <= readings_count (fst acc) s + sweep_pairs station sweeps count i)%nat.
Proof.
  induction count as [|count IH]; intros i acc s; cbn [seq_loop sweep_pairs];
    [lia|].
  pose proof (seq_body_count station sweeps i acc s) as H.
  destruct (seq_body station sweeps i acc) as [acc' continue].
  cbn [fst] in H. destruct continue.
  - specialize (IH (i + 1) acc' s). lia.
  - lia.
Qed.

Lemma sensor_body_log x_sweep y_sweep (acc : readings) s m :
  In m (snd acc) -> In m (snd (sensor_body x_sweep y_sweep acc s)).
Proof.
  destruct acc as [R log]. unfold sensor_body. cbn [snd]. intros Hm.
  assert (In m (if (1 <? Z.of_nat (length
                      (filter_samples_by_sensor_id (Group.samples x_sweep) s)))
                   || (1 <? Z.of_nat (length
                      (filter_samples_by_sensor_id (Group.samples y_sweep) s)))
                then log ++ [sensor_multiple_msg] else log)) as Hm'
    by (destruct (_ || _); [apply in_or_app; now left|exact Hm]).
  destruct (filter_samples_by_sensor_id (Group.samples x_sweep) s);
    [exact Hm'|].
  destruct (filter_samples_by_sensor_id (Group.samples y_sweep) s);
    exact Hm'.
Qed.

Lemma sensor_fold_log x_sweep y_sweep (l : list Z) m : forall acc : readings,
  In m (snd acc) ->
  In m (snd (fold_left (sensor_body x_sweep y_sweep) l acc)).
Proof.
  induction l as [|a l IH]; intros acc Hm; cbn [fold_left]; [exact Hm|].
  apply IH. now apply sensor_body_log.
Qed.

Lemma sweep_fold_log x_sweeps y_sweeps (l : list nat) m :
  forall acc : readings,
  In m (snd acc) ->
  In m (snd (fold_left (sweep_body x_sweeps y_sweeps) l acc)).
Proof.
  induction l as [|a l IH]; intros acc Hm; cbn [fold_left]; [exact Hm|].
  apply IH. unfold sweep_body.
  destruct (nth_error x_sweeps a);
    [destruct (nth_error y_sweeps a)|];
    [now apply sensor_fold_log|cbn; apply in_or_app; now left..].
Qed.

Lemma sensor_body_aligned x_sweep y_sweep (acc : readings) s :
  aligned (fst acc) -> aligned (fst (sensor_body x_sweep y_sweep acc s)).
Proof.
  destruct acc as [R log]. cbn [fst]. intros HR.
  destruct (filter_samples_by_sensor_id (Group.samples x_sweep) s)
    as [|xi0 xi'] eqn:Hx.
  { unfold sensor_body. rewrite Hx. exact HR. }
  destruct (filter_samples_by_sensor_id (Group.samples y_sweep) s)
    as [|yi0 yi'] eqn:Hy.
  { unfold sensor_body. rewrite Hx, Hy. exact HR. }
  intros s' a. destruct (Z.eq_dec s s') as [<-|Hne].
  - rewrite (sensor_body_same _ _ _ _ _ _ _ _ _ Hx Hy). intros [= <-].
    cbn [push_t push_y push_x Angles.x Angles.y Angles.t].
    rewrite !length_app. cbn [length].
    destruct (R !! s) as [a0|] eqn:E; cbn [default].
    + destruct (HR s a0 E). unfold id. lia.
    + cbn. lia.
  - rewrite (sensor_body_other x_sweep y_sweep (R, log) s s' Hne). apply HR.
Qed.

Lemma sensor_fold_aligned x_sweep y_sweep (l : list Z) :
  forall acc : readings,
  aligned (fst acc) ->
  aligned (fst (fold_left (sensor_body x_sweep y_sweep) l acc)).
Proof.
  induction l as [|a l IH]; intros acc H; cbn [fold_left]; [exact H|].
  apply IH. now apply sensor_body_aligned.
Qed.

Lemma sweep_fold_aligned x_sweeps y_sweeps (l : list nat) :
  forall acc : readings,
  aligned (fst acc) ->
  aligned (fst (fold_left (sweep_body x_sweeps y_sweeps) l acc)).
Proof.
  induction l as [|a l IH]; intros acc H; cbn [fold_left]; [exact H|].
  apply IH. unfold sweep_body.
  destruct (nth_error x_sweeps a);
    [destruct (nth_error y_sweeps a)|];
    [now apply sensor_fold_aligned|exact H..].
Qed.

Lemma seq_body_aligned station sweeps i (acc : readings) :
  aligned (fst acc) -> aligned (fst (fst (seq_body station sweeps i acc))).
Proof.
  intros H. unfold seq_body.
  destruct (_ || _); [exact H|].
  cbn [fst]. apply sweep_fold_aligned. now destruct (_ || _).
Qed.

Lemma seq_loop_aligned station sweeps count : forall i (acc : readings),
  aligned (fst acc) -> aligned (fst (seq_loop station sweeps count i acc)).
Proof.
  induction count as [|count IH]; intros i acc H; cbn [seq_loop];
    [exact H|].
  pose proof (seq_body_aligned station sweeps i acc H) as H'.
  destruct (seq_body station sweeps i acc) as [acc' continue].
  cbn [fst] in H'. destruct continue; [now apply IH|exact H'].
Qed.

Lemma record_triples_app l1 l2 o :
  record_triples (l1 ++ l2) o = record_triples l2 (record_triples l1 o).
Proof. apply fold_left_app. Qed.

Lemma record_triples_count l : forall o,
  (match record_triples l o with Some a => length (Angles.x a) | None => O end
   = match o with Some a => length (Angles.x a) | None => O end + length l)%nat.
Proof.
  induction l as [|tr l IH]; intros o; cbn [record_triples fold_left length].
  - lia.
  - fold (record_triples l (Some (push_triple tr (default vl_angles_default o)))).
    rewrite IH. cbn [push_triple push_t push_y push_x Angles.x].
    rewrite length_app. destruct o; cbn; lia.
Qed.

Lemma sensor_body_pair x_sweep y_sweep (acc : readings) s :
  fst (sensor_body x_sweep y_sweep acc s) !! s =
  record_triples
    (match pair_triple x_sweep y_sweep s with Some tr => [tr] | None => [] end)
    (fst acc !! s).
Proof.
  destruct acc as [R log]. unfold pair_triple.
  destruct (filter_samples_by_sensor_id (Group.samples x_sweep) s)
    as [|xi0 xi'] eqn:Hx.
  { unfold sensor_body. rewrite Hx. reflexivity. }
  destruct (filter_samples_by_sensor_id (Group.samples y_sweep) s)
    as [|yi0 yi'] eqn:Hy.
  { unfold sensor_body. rewrite Hx, Hy. reflexivity. }
  rewrite (sensor_body_same _ _ _ _ _ _ _ _ _ Hx Hy). reflexivity.
Qed.

Lemma sensor_fold_pair x_sweep y_sweep (l : list Z) s :
  List.NoDup l -> In s l -> forall acc : readings,
  fst (fold_left (sensor_body x_sweep y_sweep) l acc) !! s =
  record_triples
    (match pair_triple x_sweep y_sweep s with Some tr => [tr] | None => [] end)
    (fst acc !! s).
Proof.
  intros Hnd Hin.
  induction l as [|a l IH]; [destruct Hin|].
  apply List.NoDup_cons_iff in Hnd as [Ha Hnd]. intros acc.
  cbn [fold_left]. destruct (Z.eq_dec a s) as [->|Hne].
  - destruct (sensor_fold_count x_sweep y_sweep l
                (sensor_body x_sweep y_sweep acc s) s Hnd) as [_ Hsame].
    rewrite (Hsame Ha). apply sensor_body_pair.
  - destruct Hin as [Hin | Hin]; [contradiction|].
    rewrite (IH Hnd Hin).
    now rewrite (sensor_body_other x_sweep y_sweep acc a s Hne).
Qed.

Lemma In_sensor_ids (s : Z) : 0 <= s < 32 -> In s sensor_ids.
Proof.
  intros Hs. unfold sensor_ids. apply in_map_iff. exists (Z.to_nat s).
  split; [lia|]. apply in_seq. lia.
Qed.

Lemma firstn_S_nth {A : Type} (l : list A) : forall n,
  firstn (S n) l =
  firstn n l ++ match nth_error l n with Some a => [a] | None => [] end.
Proof.
  induction l as [|a l IH]; intros [|n]; try reflexivity.
  cbn [firstn nth_error app]. f_equal. apply IH.
Qed.

Lemma nth_error_combine {A B : Type} (l : list A) (l' : list B) : forall n,
  nth_error (combine l l') n =
  match nth_error l n, nth_error l' n with
  | Some a, Some b => Some (a, b)
  | _, _ => None
  end.
Proof.
  revert l'. induction l as [|a l IH]; intros [|b l'] [|n]; try reflexivity.
  - cbn. now destruct (nth_error l n).
  - cbn. apply IH.
Qed.

Lemma sensor_body_logged x_sweep y_sweep (acc : readings) s m :
  m <> sensor_multiple_msg ->
  logged m (snd (sensor_body x_sweep y_sweep acc s)) = logged m (snd acc).
Proof.
  intros Hm. destruct acc as [R log]. unfold sensor_body. cbn [snd].
  assert (logged m (if (1 <? Z.of_nat (length
                      (filter_samples_by_sensor_id (Group.samples x_sweep) s)))
                   || (1 <? Z.of_nat (length
                      (filter_samples_by_sensor_id (Group.samples y_sweep) s)))
                then log ++ [sensor_multiple_msg] else log) = logged m log)
    as E.
  { destruct (_ || _); [|reflexivity]. unfold logged.
    rewrite count_occ_app. cbn [count_occ].
    destruct (log_entry_eq_dec sensor_multiple_msg m); [congruence|lia]. }
  destruct (filter_samples_by_sensor_id (Group.samples x_sweep) s);
    [exact E|].
  destruct (filter_samples_by_sensor_id (Group.samples y_sweep) s);
    exact E.
Qed.

Lemma sensor_fold_logged x_sweep y_sweep (l : list Z) m :
  m <> sensor_multiple_msg -> forall acc : readings,
  logged m (snd (fold_left (sensor_body x_sweep y_sweep) l acc)) =
  logged m (snd acc).
Proof.
  intros Hm. induction l as [|a l IH]; intros acc; cbn [fold_left];
    [reflexivity|].
  rewrite IH. now apply sensor_body_logged.
Qed.

(** After the first [n] passes of the loop over the H sweeps. *)
Lemma sweep_fold_pairs x_sweeps y_sweeps s (acc : readings) :
  0 <= s < 32 -> forall n, (n <= length x_sweeps)%nat ->
  let acc' := fold_left (sweep_body x_sweeps y_sweeps) (List.seq 0 n) acc in
  fst acc' !! s =
    record_triples
      (pair_triples (firstn n x_sweeps) (firstn n y_sweeps) s) (fst acc !! s) /\
  logged dimension_missing_msg (snd acc') =
    (logged dimension_missing_msg (snd acc) + (n - length y_sweeps))%nat /\
  logged unexpected_number_msg (snd acc') =
    logged unexpected_number_msg (snd acc).
Proof.
  intros Hs. induction n as [|n IH]; intros Hn acc'.
  - subst acc'. cbn. repeat split; lia.
  - destruct (IH ltac:(lia)) as (IH1 & IH2 & IH3). clear IH.
    subst acc'. rewrite seq_S, fold_left_app. cbn [fold_left Nat.add].
    set (acc1 := fold_left (sweep_body x_sweeps y_sweeps) (List.seq 0 n) acc)
      in *.
    unfold pair_triples. rewrite <- combine_firstn, firstn_S_nth.
    rewrite flat_map_app, nth_error_combine.
    fold (pair_triples (firstn n x_sweeps) (firstn n y_sweeps) s) in *.
    unfold pair_triples in IH1. rewrite <- combine_firstn in IH1.
    rewrite record_triples_app, <- IH1.
    unfold sweep_body.
    destruct (nth_error x_sweeps n) as [x_sweep|] eqn:Hx;
      [|apply nth_error_None in Hx; lia].
    destruct (nth_error y_sweeps n) as [y_sweep|] eqn:Hy.
    + assert (n < length y_sweeps)%nat
        by (apply nth_error_Some; congruence).
      cbn [flat_map fst snd]. rewrite app_nil_r.
      rewrite (sensor_fold_pair x_sweep y_sweep sensor_ids s NoDup_sensor_ids
                 (In_sensor_ids s Hs)).
      rewrite !sensor_fold_logged by discriminate.
      repeat split; [lia|exact IH3].
    + apply nth_error_None in Hy.
      cbn [flat_map fst snd record_triples fold_left].
      unfold logged in *. rewrite !count_occ_app. cbn [count_occ].
      destruct (log_entry_eq_dec dimension_missing_msg dimension_missing_msg);
        [|congruence].
      destruct (log_entry_eq_dec dimension_missing_msg unexpected_number_msg);
        [discriminate|].
      repeat split; lia.
Qed.

Lemma firstn_combine_all {A B : Type} (l : list A) (l' : list B) :
  combine (firstn (length l) l) (firstn (length l) l') = combine l l'.
Proof.
  rewrite <- combine_firstn. apply firstn_all2.
  rewrite length_combine. lia.
Qed.

(** One sequence number with at least one H and one V sweep. *)
Lemma seq_body_pairs station sweeps i (R : gmap Z vl_angles) log s :
  let x_sweeps := filter_sweeps sweeps station i "H" in
  let y_sweeps := filter_sweeps sweeps station i "V" in
  x_sweeps <> [] -> y_sweeps <> [] -> 0 <= s < 32 ->
  let R' := fst (fst (seq_body station sweeps i (R, log))) in
  let log' := snd (fst (seq_body station sweeps i (R, log))) in
  snd (seq_body station sweeps i (R, log)) = true /\
  R' !! s = record_triples (pair_triples x_sweeps y_sweeps s) (R !! s) /\
  logged dimension_missing_msg log' =
    (logged dimension_missing_msg log
     + (length x_sweeps - length y_sweeps))%nat /\
  logged unexpected_number_msg log' =
    (logged unexpected_number_msg log
     + (if (length x_sweeps =? 1)%nat && (length y_sweeps =? 1)%nat
        then 0 else 1))%nat.
Proof.
  intros x_sweeps y_sweeps Hx Hy Hs R' log'.
  subst R' log'. unfold seq_body. fold x_sweeps. fold y_sweeps.
  replace ((Z.of_nat (length x_sweeps) <? 1) ||
           (Z.of_nat (length y_sweeps) <? 1)) with false
    by (symmetry; apply orb_false_iff; split; apply Z.ltb_ge;
        [destruct x_sweeps|destruct y_sweeps];
        try congruence; cbn [length]; lia).
  cbn [fst snd]. split; [reflexivity|].
  match goal with
  | |- context [fold_left _ _ ?a] =>
      destruct (sweep_fold_pairs x_sweeps y_sweeps s a Hs (length x_sweeps)
                  ltac:(lia)) as (H1 & H2 & H3);
      assert (fst a = R) as Ea by (destruct (_ || _); reflexivity)
  end.
  rewrite H1, H2, H3, Ea. unfold pair_triples at 1.
  rewrite firstn_combine_all. fold (pair_triples x_sweeps y_sweeps s).
  split; [reflexivity|].
  destruct (Nat.eqb_spec (length x_sweeps) 1) as [E1|E1];
    destruct (Nat.eqb_spec (length y_sweeps) 1) as [E2|E2]; cbn [andb].
  all: rewrite ?E1, ?E2.
  all: try (replace (Z.of_nat (length x_sweeps) =? 1) with false
           by (symmetry; apply Z.eqb_neq; lia)).
  all: try (replace (Z.of_nat (length y_sweeps) =? 1) with false
           by (symmetry; apply Z.eqb_neq; lia)).
  all: change (Z.of_nat 1 =? 1) with true.
  all: cbn [negb orb snd fst]; rewrite ?orb_true_r; cbn [snd].
  all: unfold logged; rewrite ?count_occ_app; cbn [count_occ].
  all: destruct (log_entry_eq_dec unexpected_number_msg dimension_missing_msg);
    [discriminate|].
  all: destruct (log_entry_eq_dec unexpected_number_msg unexpected_number_msg);
    [|congruence].
  all: split; lia.
Qed.

Lemma pair_triples_length x_sweeps y_sweeps s :
  (length (pair_triples x_sweeps y_sweeps s)
   <= Nat.min (length x_sweeps) (length y_sweeps))%nat.
Proof.
  unfold pair_triples. rewrite <- length_combine.
  induction (combine x_sweeps y_sweeps) as [|xy l IH]; [reflexivity|].
  cbn [flat_map]. rewrite length_app. cbn [length].
  destruct (pair_triple (fst xy) (snd xy) s); cbn [length]; lia.
Qed.

Lemma seq_loop_triples station sweeps s :
  0 <= s < 32 -> forall count i (acc : readings),
  fst (seq_loop station sweeps count i acc) !! s =
  record_triples (cycle_triples station sweeps count i s) (fst acc !! s).
Proof.
  intros Hs. induction count as [|count IH]; intros i acc;
    cbn [seq_loop cycle_triples]; [reflexivity|].
  destruct acc as [R log].
  destruct (filter_sweeps sweeps station i "H") as [|x xs] eqn:Hx.
  { unfold seq_body. rewrite Hx. reflexivity. }
  destruct (filter_sweeps sweeps station i "V") as [|y ys] eqn:Hy.
  { unfold seq_body. rewrite Hx, Hy. cbn [length].
    change (Z.of_nat 0 <? 1) with true. rewrite orb_true_r. reflexivity. }
  destruct (seq_body_pairs station sweeps i R log s) as (Hc & HR & _);
    [rewrite Hx; discriminate|rewrite Hy; discriminate|exact Hs|].
  rewrite Hx, Hy in HR.
  destruct (seq_body station sweeps i (R, log)) as [acc' continue].
  cbn [fst snd] in Hc, HR. rewrite Hc, IH, HR.
  symmetry. apply record_triples_app.
Qed.

(** C4.  For every station and sensor, one sequence number contributes at
    most one [(x, y, t)] triple per pair (k-th H sweep, k-th V sweep) of
    that station and sequence number, hence at most
    [min (#H sweeps) (#V sweeps)] triples, and at most one when there is a
    single H and a single V sweep.  When both kinds of sweep are present
    the collator goes through every pair [k < min (#H) (#V)], not only
    entry 0: the entry of a sensor below 32 grows by exactly the triples of
    the pairs that both hold the sensor, in the order of [k]; the error
    about the number of sweeps is logged once, and only if one of the two
    kinds occurs more than once; and the warning about a missing dimension
    is logged once for each H sweep without a V partner.  Over the whole
    map, the entry of a sensor is made of the triples of the sequence
    numbers [1 .. maxseq - 1], up to the first one that lacks an H or a V
    sweep; it holds no more triples than there are pairs, and its three
    vectors have the same length. *)
Theorem collect_readings_pairs (station : ascii)
  (sweeps : list vl_light_sample_group) (s : Z) :
  (forall i (R : gmap Z vl_angles) log,
     let x_sweeps := filter_sweeps sweeps station i "H" in
     let y_sweeps := filter_sweeps sweeps station i "V" in
     let R' := fst (fst (seq_body station sweeps i (R, log))) in
     let log' := snd (fst (seq_body station sweeps i (R, log))) in
     (readings_count R s <= readings_count R' s
      <= readings_count R s
         + Nat.min (length x_sweeps) (length y_sweeps))%nat /\
     (x_sweeps <> [] -> y_sweeps <> [] ->
      (length x_sweeps <> 1 \/ length y_sweeps <> 1)%nat ->
      In unexpected_number_msg log') /\
     (x_sweeps <> [] -> y_sweeps <> [] -> 0 <= s < 32 ->
      R' !! s = record_triples (pair_triples x_sweeps y_sweeps s) (R !! s) /\
      readings_count R' s =
        (readings_count R s + length (pair_triples x_sweeps y_sweeps s))%nat /\
      logged dimension_missing_msg log' =
        (logged dimension_missing_msg log
         + (length x_sweeps - length y_sweeps))%nat /\
      logged unexpected_number_msg log' =
        (logged unexpected_number_msg log
         + (if (length x_sweeps =? 1)%nat && (length y_sweeps =? 1)%nat
            then 0 else 1))%nat)) /\
  (readings_count (fst (collect_readings station sweeps)) s
   <= sweep_pairs station sweeps
        (Z.to_nat (fst (find_max_seq sweeps) - 1)) 1)%nat /\
  aligned (fst (collect_readings station sweeps)) /\
  (0 <= s < 32 ->
   fst (collect_readings station sweeps) !! s =
   record_triples
     (cycle_triples station sweeps
        (Z.to_nat (fst (find_max_seq sweeps) - 1)) 1 s) None).
Proof.
  split; [|split; [|split]].
  - intros i R log x_sweeps y_sweeps R' log'. split; [|split].
    + apply (seq_body_count station sweeps i (R, log) s).
    + intros Hx Hy Hlen. unfold log', seq_body.
      fold x_sweeps. fold y_sweeps.
      replace ((Z.of_nat (length x_sweeps) <? 1) ||
               (Z.of_nat (length y_sweeps) <? 1)) with false
        by (symmetry; apply orb_false_iff; split; apply Z.ltb_ge;
            [destruct x_sweeps|destruct y_sweeps];
            try congruence; cbn [length]; lia).
      replace (negb (Z.of_nat (length x_sweeps) =? 1) ||
               negb (Z.of_nat (length y_sweeps) =? 1)) with true.
      * cbn [fst snd]. apply sweep_fold_log. cbn [snd].
        apply in_or_app. right. now left.
      * symmetry. apply orb_true_iff.
        destruct Hlen as [H|H]; [left|right];
          apply negb_true_iff, Z.eqb_neq; lia.
    + intros Hx Hy Hs.
      destruct (seq_body_pairs station sweeps i R log s Hx Hy Hs)
        as (_ & HR & Hd & Hu).
      split; [exact HR|]. split; [|split; [exact Hd|exact Hu]].
      unfold readings_count. fold R'. unfold R'. rewrite HR.
      apply record_triples_count.
  - unfold collect_readings.
    destruct (find_max_seq sweeps) as [maxseq log]. cbn [fst].
    pose proof (seq_loop_count station sweeps (Z.to_nat (maxseq - 1)) 1
                  (empty, log) s) as H.
    cbn [fst] in H. unfold readings_count at 2 in H.
    rewrite lookup_empty in H. exact H.
  - unfold collect_readings.
    destruct (find_max_seq sweeps) as [maxseq log].
    apply seq_loop_aligned. intros k a. cbn [fst].
    rewrite lookup_empty. discriminate.
  - intros Hs. unfold collect_readings.
    destruct (find_max_seq sweeps) as [maxseq log]. cbn [fst].
    rewrite (seq_loop_triples station sweeps s Hs). cbn [fst].
    now rewrite lookup_empty.
Qed.

Lemma collect_readings_pairs_witness :
  (readings_count
     (fst (fst (seq_body "B" sweeps_dup 1 (empty, [])))) 0 <= 2)%nat /\
  In unexpected_number_msg (snd (fst (seq_body "B" sweeps_dup 1 (empty, [])))) /\
  fst (fst (seq_body "B" sweeps_dup 1 (empty, []))) !! 0 =
    Some (Angles.mk [200; 400] [120; 550] [200000; 1000000]) /\
  logged dimension_missing_msg
    (snd (fst (seq_body "B" sweeps_unpaired 1 (empty, [])))) = 1%nat /\
  fst (collect_readings "B" sweeps_unpaired) !! 0 =
    Some (Angles.mk [200] [120] [200000]).
Proof.
  destruct (proj1 (collect_readings_pairs "B" sweeps_dup 0) 1 empty [])
    as ([_ Hcount] & Hlog & Hpairs).
  destruct Hpairs as (HR & _); [discriminate|discriminate|lia|].
  destruct (proj1 (collect_readings_pairs "B" sweeps_unpaired 0) 1 empty [])
    as (_ & _ & Hun).
  destruct Hun as (_ & _ & Hd & _); [discriminate|discriminate|lia|].
  split; [exact Hcount|]. split; [|split; [|split]].
  - apply Hlog.
    + vm_compute. discriminate.
    + vm_compute. discriminate.
    + left. vm_compute. lia.
  - rewrite HR. vm_compute. reflexivity.
  - rewrite Hd. vm_compute. reflexivity.
  - rewrite (proj2 (proj2 (proj2 (collect_readings_pairs "B" sweeps_unpaired 0))))
      by lia.
    vm_compute. reflexivity.
Defined.

(** C4, as stated, fails: with two H and two V sweeps of station B for
    sequence number 1, sensor 0 gets two triples for that sequence number,
    the second one computed from the second H and V sweeps. *)
Lemma duplicate_sweeps_give_two_triples :
  fst (find_max_seq sweeps_dup) = 2 /\
  length (filter_sweeps sweeps_dup "B" 1 "H") = 2%nat /\
  length (filter_sweeps sweeps_dup "B" 1 "V") = 2%nat /\
  fst (collect_readings "B" sweeps_dup) !! 0 =
    Some (Angles.mk [200; 400] [120; 550] [200000; 1000000]) /\
  readings_count (fst (collect_readings "B" sweeps_dup)) 0 = 2%nat.
Proof. repeat split; vm_compute; reflexivity. Qed.



(** * Further properties *)

(** ** The sanitizer and the pipeline *)

Lemma is_sample_valid_false s : is_sample_valid s = false <-> s = sentinel.
Proof.
  unfold is_sample_valid, sentinel. destruct s as [ts id len]. cbn.
  rewrite negb_false_iff, !andb_true_iff, !Z.eqb_eq. split.
  - intros [[-> ->] ->]. reflexivity.
  - intros [= -> -> ->]. auto.
Qed.

(** The sanitized list holds exactly the events of the input other than
    the sentinel [{0xffffffff, 0xff, 0xffff}], in their input order, and
    sanitizing changes a list only if it contains the sentinel. *)
Theorem sanitize_removes_sentinels (S : vl_lighthouse_samples) :
  (forall s, In s (sanitize S) <-> In s S /\ s <> sentinel) /\
  sublist (sanitize S) S /\
  (sanitize S = S <-> ~ In sentinel S).
Proof.
  unfold sanitize, filter_reports. split; [|split].
  - intros s. rewrite filter_In. split; intros [H1 H2]; (split; [exact H1|]).
    + intros Hs. apply is_sample_valid_false in Hs. congruence.
    + destruct (is_sample_valid s) eqn:E; [reflexivity|].
      apply is_sample_valid_false in E. contradiction.
  - induction S as [|a S IH]; cbn; [constructor|].
    destruct (is_sample_valid a); now constructor.
  - induction S as [|a S IH]; cbn; [tauto|].
    destruct (is_sample_valid a) eqn:E.
    + split.
      * intros [= H] [Ha | Hs]; [|now apply IH].
        subst a. assert (is_sample_valid sentinel = false) by reflexivity.
        congruence.
      * intros H. f_equal. apply IH. tauto.
    + apply is_sample_valid_false in E. subst a. split.
      * intros H. exfalso.
        assert (Hlen : (length (List.filter is_sample_valid S) <= length S)%nat)
          by apply List.filter_length_le.
        rewrite H in Hlen. cbn in Hlen. lia.
      * intros H. exfalso. apply H. now left.
Qed.

(** A sentinel event inserted anywhere in the raw stream changes nothing
    of what [vl_light_classify_samples] computes: the pulse-groups, the
    sweep-groups and the two angle maps are those of the stream without
    it. *)
Theorem classify_ignores_sentinel tick rps (S1 S2 : vl_lighthouse_samples) :
  vl_light_classify_samples tick rps (S1 ++ sentinel :: S2) =
  vl_light_classify_samples tick rps (S1 ++ S2).
Proof.
  unfold vl_light_classify_samples, filter_reports.
  now rewrite !List.filter_app.
Qed.

(** ** Sorting *)

Lemma insert_sorted_perm (x : Z) (l : list Z) :
  Permutation (insert_sorted Z.leb x l) (x :: l).
Proof.
  induction l as [|y l IH]; cbn; [reflexivity|].
  destruct (x <=? y); [reflexivity|].
  rewrite IH. apply perm_swap.
Qed.

Lemma std_sort_perm (l : list Z) : Permutation (std_sort Z.leb l) l.
Proof.
  induction l as [|x l IH]; cbn; [reflexivity|].
  rewrite insert_sorted_perm. now constructor.
Qed.

Lemma insert_sorted_comm (x y : Z) (l : list Z) :
  insert_sorted Z.leb x (insert_sorted Z.leb y l) =
  insert_sorted Z.leb y (insert_sorted Z.leb x l).
Proof.
  induction l as [|z l IH]; cbn.
  - destruct (x <=? y) eqn:E1, (y <=? x) eqn:E2; try reflexivity.
    + apply Z.leb_le in E1, E2. now replace y with x by lia.
    + apply Z.leb_gt in E1, E2. lia.
  - destruct (y <=? z) eqn:Eyz, (x <=? z) eqn:Exz; cbn;
      rewrite ?Eyz, ?Exz.
    + destruct (x <=? y) eqn:E1, (y <=? x) eqn:E2; try reflexivity.
      * apply Z.leb_le in E1, E2. now replace y with x by lia.
      * apply Z.leb_gt in E1, E2. lia.
    + replace (x <=? y) with false
        by (symmetry; apply Z.leb_gt; apply Z.leb_le in Eyz;
            apply Z.leb_gt in Exz; lia).
      reflexivity.
    + replace (y <=? x) with false
        by (symmetry; apply Z.leb_gt; apply Z.leb_le in Exz;
            apply Z.leb_gt in Eyz; lia).
      reflexivity.
    + now rewrite IH.
Qed.

Lemma std_sort_permutation (l l' : list Z) :
  Permutation l l' -> std_sort Z.leb l = std_sort Z.leb l'.
Proof.
  induction 1 as [|x l l' _ IH|x y l|l l' l'' _ IH1 _ IH2]; cbn.
  - reflexivity.
  - unfold std_sort in IH. now rewrite IH.
  - apply insert_sorted_comm.
  - congruence.
Qed.

Lemma insert_sorted_sorted (x : Z) (l : list Z) :
  StronglySorted Z.le l -> StronglySorted Z.le (insert_sorted Z.leb x l).
Proof.
  induction 1 as [|y l Hs IH Hy]; cbn.
  - repeat constructor.
  - destruct (x <=? y) eqn:E.
    + apply Z.leb_le in E. constructor; [now constructor|].
      constructor; [exact E|].
      eapply List.Forall_impl; [|exact Hy]. intros; cbn in *; lia.
    + apply Z.leb_gt in E. constructor; [exact IH|].
      eapply Permutation_Forall; [symmetry; apply insert_sorted_perm|].
      constructor; [lia|exact Hy].
Qed.

Lemma std_sort_sorted (l : list Z) : StronglySorted Z.le (std_sort Z.leb l).
Proof.
  induction l as [|x l IH]; cbn; [constructor|].
  now apply insert_sorted_sorted.
Qed.

(** Sorting the timestamps as doubles is sorting them as integers. *)
Lemma std_sort_double_of_Z (l : list Z) :
  std_sort double_leb (map double_of_Z l) =
  map double_of_Z (std_sort Z.leb l).
Proof.
  induction l as [|x l IH]; cbn; [reflexivity|].
  unfold std_sort in IH. rewrite IH. clear IH.
  induction (fold_right (insert_sorted Z.leb) [] l) as [|y s IH]; cbn;
    [reflexivity|].
  replace (double_leb (double_of_Z x) (double_of_Z y)) with (x <=? y).
  - destruct (x <=? y); cbn; [reflexivity|now rewrite IH].
  - unfold double_leb, double_of_Z. cbn [halves].
    destruct (x <=? y) eqn:E1, (2 * x <=? 2 * y) eqn:E2; try reflexivity.
    + apply Z.leb_le in E1. apply Z.leb_gt in E2. lia.
    + apply Z.leb_gt in E1. apply Z.leb_le in E2. lia.
Qed.

Lemma vec_at_map {A B : Type} (f : A -> B) (v : list A) (i : Z) :
  vec_at (map f v) i = option_map f (vec_at v i).
Proof.
  unfold vec_at. rewrite length_map.
  destruct ((0 <=? i) && (i <? Z.of_nat (length v))); [|reflexivity].
  apply nth_error_map.
Qed.

(** The medians written over the sorted integer lists. *)
Lemma median_timestamp_sorted (S : vl_lighthouse_samples) :
  median_timestamp S =
  let ts := std_sort Z.leb (map Pulse2.timestamp S) in
  let size := Z.of_nat (length ts) in
  if size mod 2 =? 0 then
    match vec_at ts (size_t (size / 2 - 1)), vec_at ts (size / 2) with
    | Some a, Some b => Some (Dbl (a + b))
    | _, _ => None
    end
  else option_map double_of_Z (vec_at ts (size / 2)).
Proof.
  unfold median_timestamp.
  rewrite <- (map_map Pulse2.timestamp double_of_Z), std_sort_double_of_Z.
  cbv zeta. rewrite length_map, !vec_at_map.
  destruct (_ =? 0); [|reflexivity].
  destruct (vec_at _ (size_t _)) as [a|]; [|reflexivity].
  destruct (vec_at _ _) as [b|]; [|reflexivity].
  cbn. unfold double_div2, double_add, double_of_Z. cbn [halves].
  do 2 f_equal. rewrite <- Z.mul_add_distr_l, Z.mul_comm.
  apply Z.div_mul. lia.
Qed.

(** ** The medians *)

(** Neither median depends on the order of the samples. *)
Theorem medians_permutation_invariant (S S' : vl_lighthouse_samples) :
  Permutation S S' ->
  median_timestamp S = median_timestamp S' /\
  median_length S = median_length S'.
Proof.
  intros HP. split.
  - rewrite !median_timestamp_sorted.
    now rewrite (std_sort_permutation _ _ (Permutation_map Pulse2.timestamp HP)).
  - unfold median_length.
    now rewrite (std_sort_permutation _ _ (Permutation_map Pulse2.length HP)).
Qed.

Lemma medians_permutation_invariant_witness :
  median_timestamp [Pulse2.mk 5 0 3000; Pulse2.mk 9 1 3100] =
  median_timestamp [Pulse2.mk 9 1 3100; Pulse2.mk 5 0 3000] /\
  median_length [Pulse2.mk 5 0 3000; Pulse2.mk 9 1 3100] =
  median_length [Pulse2.mk 9 1 3100; Pulse2.mk 5 0 3000].
Proof.
  apply (medians_permutation_invariant
           [Pulse2.mk 5 0 3000; Pulse2.mk 9 1 3100]
           [Pulse2.mk 9 1 3100; Pulse2.mk 5 0 3000]).
  apply perm_swap.
Defined.

Lemma vec_at_In {A : Type} (v : list A) (i : Z) (a : A) :
  vec_at v i = Some a -> In a v.
Proof.
  unfold vec_at. destruct (_ && _); [|discriminate]. apply nth_error_In.
Qed.

Lemma sorted_field_In (f : vive_headset_lighthouse_pulse2 -> Z)
  (S : vl_lighthouse_samples) (i v : Z) :
  vec_at (std_sort Z.leb (map f S)) i = Some v ->
  exists s, In s S /\ f s = v.
Proof.
  intros H. apply vec_at_In in H.
  apply (Permutation_in _ (std_sort_perm _)) in H.
  apply in_map_iff in H as (s & Hs & Hin). eauto.
Qed.

Lemma median_length_between (S : vl_lighthouse_samples) (m : Z) :
  Forall Pulse2.wf S -> median_length S = Some m ->
  exists a b, In a S /\ In b S /\ Pulse2.length a <= m <= Pulse2.length b.
Proof.
  intros Hwf Hm.
  assert (Hin : forall s, In s S -> Pulse2.wf s)
    by (apply List.Forall_forall; exact Hwf).
  unfold median_length in Hm.
  destruct (_ =? 0).
  - destruct (vec_at _ (size_t _)) as [x|] eqn:Ex; [|discriminate].
    destruct (vec_at _ (_ / 2)) as [y|] eqn:Ey; [|discriminate].
    injection Hm as <-.
    apply sorted_field_In in Ex as (a & Ha & <-).
    apply sorted_field_In in Ey as (b & Hb & <-).
    destruct (Hin a Ha) as (_ & _ & Hla), (Hin b Hb) as (_ & _ & Hlb).
    rewrite Z.quot_div_nonneg by lia.
    destruct (Z_le_gt_dec (Pulse2.length a) (Pulse2.length b)).
    + exists a, b. repeat split; try assumption.
      * apply Z.div_le_lower_bound; lia.
      * apply Z.div_le_upper_bound; lia.
    + exists b, a. repeat split; try assumption.
      * apply Z.div_le_lower_bound; lia.
      * apply Z.div_le_upper_bound; lia.
  - apply sorted_field_In in Hm as (a & Ha & <-).
    exists a, a. repeat split; try assumption; lia.
Qed.

Lemma median_timestamp_between (S : vl_lighthouse_samples) (t : double) :
  median_timestamp S = Some t ->
  exists a b, In a S /\ In b S /\
    2 * Pulse2.timestamp a <= halves t <= 2 * Pulse2.timestamp b.
Proof.
  intros Ht. rewrite median_timestamp_sorted in Ht. cbv zeta in Ht.
  destruct (_ =? 0).
  - destruct (vec_at _ (size_t _)) as [x|] eqn:Ex; [|discriminate].
    destruct (vec_at _ (_ / 2)) as [y|] eqn:Ey; [|discriminate].
    injection Ht as <-. cbn [halves].
    apply sorted_field_In in Ex as (a & Ha & <-).
    apply sorted_field_In in Ey as (b & Hb & <-).
    destruct (Z_le_gt_dec (Pulse2.timestamp a) (Pulse2.timestamp b)).
    + exists a, b. repeat split; try assumption; lia.
    + exists b, a. repeat split; try assumption; lia.
  - destruct (vec_at _ _) as [x|] eqn:Ex; [|discriminate].
    injection Ht as <-. cbn [halves double_of_Z].
    apply sorted_field_In in Ex as (a & Ha & <-).
    exists a, a. repeat split; try assumption; lia.
Qed.

(** Each median lies between the values of two samples of the set, so on
    well-formed samples the narrowing of the median length to [uint16_t]
    in [decode_pulse] loses nothing and the median timestamp is a tick
    value below 2^32. *)
Theorem medians_between_samples (S : vl_lighthouse_samples) :
  Forall Pulse2.wf S ->
  (forall m, median_length S = Some m ->
     (exists a b, In a S /\ In b S /\
                  Pulse2.length a <= m <= Pulse2.length b) /\
     u16 m = m) /\
  (forall t, median_timestamp S = Some t ->
     (exists a b, In a S /\ In b S /\
                  2 * Pulse2.timestamp a <= halves t <=
                  2 * Pulse2.timestamp b) /\
     0 <= double_to_int64 t < 2 ^ 32).
Proof.
  intros Hwf.
  assert (Hin : forall s, In s S -> Pulse2.wf s)
    by (apply List.Forall_forall; exact Hwf).
  split.
  - intros m Hm.
    pose proof (median_length_between S m Hwf Hm) as Hab.
    split; [exact Hab|].
    destruct Hab as (a & b & Ha & Hb & Hle).
    destruct (Hin a Ha) as (_ & _ & Hla), (Hin b Hb) as (_ & _ & Hlb).
    unfold u16. apply Z.mod_small. lia.
  - intros t Ht.
    pose proof (median_timestamp_between S t Ht) as Hab.
    split; [exact Hab|].
    destruct Hab as (a & b & Ha & Hb & Hle).
    destruct (Hin a Ha) as (Hta & _), (Hin b Hb) as (Htb & _).
    unfold double_to_int64. rewrite Z.quot_div_nonneg by lia.
    split; [apply Z.div_pos; lia|].
    apply Z.div_lt_upper_bound; lia.
Qed.

Lemma medians_between_samples_witness :
  (forall m, median_length chained_pulse_set = Some m -> u16 m = m) /\
  (forall t, median_timestamp chained_pulse_set = Some t ->
     0 <= double_to_int64 t < 2 ^ 32).
Proof.
  assert (Hwf : Forall Pulse2.wf chained_pulse_set)
    by (repeat constructor; vm_compute; congruence).
  destruct (medians_between_samples chained_pulse_set Hwf) as [Hl Ht].
  split.
  - intros m Hm. apply (Hl m Hm).
  - intros t H. apply (Ht t H).
Defined.

(** ** Majority values *)

Lemma sorted_split_bounds (l1 l2 : list Z) (v : Z) :
  StronglySorted Z.le (l1 ++ v :: l2) ->
  Forall (fun x => x <= v) l1 /\ Forall (fun x => v <= x) l2.
Proof.
  induction l1 as [|a l1 IH]; cbn; intros H.
  - apply StronglySorted_inv in H as [_ H]. split; [constructor|exact H].
  - apply StronglySorted_inv in H as [Hs Ha].
    destruct (IH Hs) as [H1 H2]. split; [|exact H2].
    constructor; [|exact H1].
    apply (proj1 (List.Forall_forall _ _) Ha). apply in_or_app. right. now left.
Qed.

Lemma count_occ_none (l : list Z) (L : Z) :
  Forall (fun x => x <> L) l -> count_occ Z.eq_dec l L = O.
Proof.
  intros H. apply count_occ_not_In. intros Hin.
  apply (proj1 (List.Forall_forall _ _) H L Hin). reflexivity.
Qed.

(** In a sorted list, a value that fills more positions than there are on
    either side of position [i] is the value at [i]. *)
Lemma sorted_majority_at (l : list Z) (L v : Z) (i : nat) :
  StronglySorted Z.le l -> nth_error l i = Some v ->
  (i < count_occ Z.eq_dec l L)%nat ->
  (length l - 1 - i < count_occ Z.eq_dec l L)%nat ->
  v = L.
Proof.
  intros Hs Hn Hi Hj.
  destruct (nth_error_split l i Hn) as (l1 & l2 & -> & Hlen).
  destruct (sorted_split_bounds l1 l2 v Hs) as [H1 H2].
  rewrite count_occ_app in Hi, Hj. cbn [count_occ] in Hi, Hj.
  rewrite length_app in Hj. cbn [length] in Hj.
  pose proof (count_occ_bound Z.eq_dec L l1).
  pose proof (count_occ_bound Z.eq_dec L l2).
  destruct (Z.eq_dec v L) as [E|E]; [exact E|exfalso].
  destruct (Z_lt_le_dec v L).
  - assert (count_occ Z.eq_dec l1 L = O).
    { apply count_occ_none. eapply List.Forall_impl; [|exact H1].
      intros; cbn in *; lia. }
    lia.
  - assert (count_occ Z.eq_dec l2 L = O).
    { apply count_occ_none. eapply List.Forall_impl; [|exact H2].
      intros; cbn in *; lia. }
    lia.
Qed.

Lemma sorted_majority_median (l : list Z) (L : Z) :
  Z.of_nat (length l) < 2 ^ 64 ->
  (length l < 2 * count_occ Z.eq_dec l L)%nat ->
  let s := std_sort Z.leb l in
  let size := Z.of_nat (length s) in
  vec_at s (size / 2) = Some L /\
  (size mod 2 = 0 -> vec_at s (size_t (size / 2 - 1)) = Some L).
Proof.
  intros Hsmall Hmaj s size.
  assert (Hlen : length s = length l) by apply std_sort_length.
  assert (Hcount : count_occ Z.eq_dec s L = count_occ Z.eq_dec l L)
    by (apply Permutation_count_occ, std_sort_perm).
  assert (Hsorted : StronglySorted Z.le s) by apply std_sort_sorted.
  pose proof (count_occ_bound Z.eq_dec L l) as Hbound.
  assert (Hpos : 0 < size) by (unfold size; lia).
  assert (Hat : forall i, 0 <= i < size ->
            Z.of_nat (count_occ Z.eq_dec l L) > i ->
            Z.of_nat (count_occ Z.eq_dec l L) > size - 1 - i ->
            vec_at s i = Some L).
  { intros i Hi H1 H2.
    destruct (vec_at_in_range s i Hi) as [v Hv]. rewrite Hv. f_equal.
    unfold vec_at in Hv. destruct (_ && _); [|discriminate].
    apply (sorted_majority_at s L v (Z.to_nat i) Hsorted Hv);
      rewrite Hcount; unfold size in *; lia. }
  assert (Hdiv : 2 * (size / 2) <= size < 2 * (size / 2) + 2).
  { pose proof (Z.div_mod size 2). pose proof (Z.mod_pos_bound size 2). lia. }
  split.
  - apply Hat; unfold size in *; lia.
  - intros Heven.
    assert (size = 2 * (size / 2))
      by (pose proof (Z.div_mod size 2); lia).
    unfold size_t. rewrite Z.mod_small by (unfold size in *; lia).
    apply Hat; unfold size in *; lia.
Qed.

(** The medians are robust against outliers: a length (a timestamp) shared
    by more than half of the samples is the median length (timestamp),
    whatever the other samples hold. *)
Theorem medians_majority (S : vl_lighthouse_samples) :
  Z.of_nat (length S) < 2 ^ 64 ->
  (forall L,
     (length S < 2 * count_occ Z.eq_dec (map Pulse2.length S) L)%nat ->
     median_length S = Some L) /\
  (forall T,
     (length S < 2 * count_occ Z.eq_dec (map Pulse2.timestamp S) T)%nat ->
     median_timestamp S = Some (double_of_Z T)).
Proof.
  intros Hsmall. split.
  - intros L Hmaj. unfold median_length.
    destruct (sorted_majority_median (map Pulse2.length S) L) as [H1 H2];
      rewrite ?length_map; try assumption.
    cbv zeta in H1, H2. rewrite H1.
    destruct (_ =? 0) eqn:E; [|reflexivity].
    apply Z.eqb_eq in E. rewrite (H2 E).
    f_equal. replace (L + L) with (L * 2) by lia. apply Z.quot_mul. lia.
  - intros T Hmaj. rewrite median_timestamp_sorted. cbv zeta.
    destruct (sorted_majority_median (map Pulse2.timestamp S) T) as [H1 H2];
      rewrite ?length_map; try assumption.
    cbv zeta in H1, H2. rewrite H1.
    destruct (_ =? 0) eqn:E; [|reflexivity].
    apply Z.eqb_eq in E. rewrite (H2 E).
    unfold double_of_Z. do 2 f_equal. lia.
Qed.

(** ** Transitions of the segmentation loop *)

Section LoopRules.

Variables tick rps : Z.
Variable D : vl_lighthouse_samples.

(** A property of the loop state that is kept by the two flushes and by
    the two ways of buffering the current index is kept by an iteration. *)
Lemma loop_body_rules (n : nat) (P Q : St.t -> Prop) :
  (forall s, P s -> Q s) ->
  (forall s s', P s -> St.pulse_inds s <> [] ->
     flush_pulse_set tick rps D s = Some s' -> P s') ->
  (forall s s', P s -> St.sweep_inds s <> [] ->
     store_sweep D s = Some s' -> P s') ->
  (forall s sample, P s -> nth_error D n = Some sample ->
     Pulse2.length sample < 2000 -> St.pulse_inds s = [] ->
     isempty (St.current_sweep s) = false ->
     Q (St.mk (St.pulse_inds s) (St.sweep_inds s ++ [n])
          (St.last_pulse_epoch s) (St.seq s) (St.current_sweep s)
          (St.pulse_range s) (St.pulses s) (St.sweeps s))) ->
  (forall s sample, P s -> nth_error D n = Some sample ->
     2000 <= Pulse2.length sample -> St.sweep_inds s = [] ->
     Q (St.mk (St.pulse_inds s ++ [n]) (St.sweep_inds s)
          (St.last_pulse_epoch s) (St.seq s) (St.current_sweep s)
          (extend_range (St.pulse_range s) sample)
          (St.pulses s) (St.sweeps s))) ->
  forall st st', P st -> loop_body tick rps D st n = Some st' -> Q st'.
Proof.
  intros Hweak Hflush Hstore Hsweep Hpulse st st' HP. unfold loop_body.
  destruct (nth_error D n) as [sample|] eqn:Hs; [|discriminate].
  destruct (Pulse2.length sample <? 2000) eqn:Hlen.
  - apply Z.ltb_lt in Hlen.
    assert (forall st1, P st1 -> St.pulse_inds st1 = [] ->
              (if isempty (St.current_sweep st1) then Some st1
               else Some (St.mk (St.pulse_inds st1) (St.sweep_inds st1 ++ [n])
                            (St.last_pulse_epoch st1) (St.seq st1)
                            (St.current_sweep st1) (St.pulse_range st1)
                            (St.pulses st1) (St.sweeps st1))) = Some st' ->
              Q st') as Hrest.
    { intros st1 H1 Hnil. destruct (isempty (St.current_sweep st1)) eqn:E.
      - intros [= <-]. auto.
      - intros [= <-]. eapply Hsweep; eauto. }
    destruct (is_nil (St.pulse_inds st)) eqn:E.
    + apply is_nil_true in E. now apply Hrest.
    + apply is_nil_false in E.
      destruct (flush_pulse_set tick rps D st) as [st1|] eqn:Hf;
        [|discriminate].
      apply Hrest; [eapply Hflush; eauto|].
      unfold flush_pulse_set in Hf.
      destruct (subset D (St.pulse_inds st)); [|discriminate].
      destruct (update_pulse_state _ _ _ _ _ _) as [[[[? ?] ?] ?]|];
        [|discriminate].
      now injection Hf as <-.
  - apply Z.ltb_ge in Hlen.
    assert (forall st1, P st1 -> St.sweep_inds st1 = [] ->
              (if is_nil (St.pulse_inds st1) ||
                  overlaps_range (St.pulse_range st1) sample
               then Some (St.mk (St.pulse_inds st1 ++ [n]) (St.sweep_inds st1)
                            (St.last_pulse_epoch st1) (St.seq st1)
                            (St.current_sweep st1)
                            (extend_range (St.pulse_range st1) sample)
                            (St.pulses st1) (St.sweeps st1))
               else flush_pulse_set tick rps D st1) = Some st' ->
              Q st') as Hrest.
    { intros st1 H1 Hnil.
      destruct (is_nil (St.pulse_inds st1) || _) eqn:E.
      - intros [= <-]. eapply Hpulse; eauto.
      - apply orb_false_iff in E as [E _]. apply is_nil_false in E.
        intros Hf. apply Hweak. eapply Hflush; eauto. }
    destruct (is_nil (St.sweep_inds st)) eqn:E.
    + apply is_nil_true in E. now apply Hrest.
    + apply is_nil_false in E.
      destruct (store_sweep D st) as [st1|] eqn:Hst; [|discriminate].
      apply Hrest; [eapply Hstore; eauto|].
      unfold store_sweep in Hst.
      destruct (subset D (St.sweep_inds st)); [|discriminate].
      now injection Hst as <-.
Qed.

(** A property that holds at the start and is kept by every iteration
    holds in every state the loop goes through. *)
Lemma state_after_ind (P : nat -> St.t -> Prop) :
  P O initial_state ->
  (forall n st st', (n < length D)%nat -> P n st ->
     loop_body tick rps D st n = Some st' -> P (S n) st') ->
  forall n st, (n <= length D)%nat ->
    state_after tick rps D n = Some st -> P n st.
Proof.
  intros H0 Hstep. induction n as [|n IH]; intros st Hn Hst.
  - injection Hst as <-. exact H0.
  - rewrite state_after_S in Hst.
    destruct (state_after tick rps D n) as [st0|] eqn:E; [|discriminate].
    apply (Hstep n st0 st); [lia| |exact Hst]. apply IH; [lia|reflexivity].
Qed.

End LoopRules.

Lemma medians_majority_witness :
  median_length outlier_pulse_set = Some 3000 /\
  median_timestamp outlier_pulse_set = Some (double_of_Z 100).
Proof.
  destruct (medians_majority outlier_pulse_set) as [Hl Ht].
  - vm_compute. reflexivity.
  - split.
    + apply Hl. vm_compute. lia.
    + apply Ht. vm_compute. lia.
Defined.

(** ** Outcomes of the state machine *)

Lemma channel_detect_station tick rps last t :
  Ascii.eqb (channel_detect tick rps last t) "e" = false ->
  is_station (channel_detect tick rps last t).
Proof.
  unfold channel_detect, is_station.
  destruct (_ <? 4000); [auto|].
  destruct (_ <? 4000); [auto|].
  destruct (_ <? 4000); [auto|]. discriminate.
Qed.

Lemma update_pulse_state_outcomes tick rps (S : vl_lighthouse_samples)
      lpe cs seq lpe' cs' seq' out :
  update_pulse_state tick rps S lpe cs seq = Some (lpe', cs', seq', out) ->
  median_timestamp S = Some lpe' /\
  ((out = vl_light_sample_group_default /\ seq' = seq /\
    (cs' = cs \/ cs' = vl_light_sample_group_default)) \/
   (exists ch sw,
      out = Group.mk ch sw lpe' 0 seq' S /\
      cs' = Group.mk ch sw lpe' 0 0 S /\
      (5 <= length S)%nat /\
      is_station ch /\
      seq' = (if starts_cycle out then seq + 1 else seq) /\
      exists m,
        median_length S = Some m /\
        SyncPulse.skip (fst (lookup_pulse_class (u16 m))) = 0 /\
        sw = sweep_key (SyncPulse.sweep (fst (lookup_pulse_class (u16 m)))))).
Proof.
  unfold update_pulse_state, process_pulse_set, decode_pulse.
  destruct (median_length S) as [m|] eqn:Hm; [|discriminate].
  destruct (median_timestamp S) as [t|] eqn:Ht; [|discriminate].
  cbn [Group.channel Group.epoch Group.skip Group.sweep Group.seq].
  destruct (Ascii.eqb _ "e") eqn:Hch; cbn [orb].
  { intros [= <- <- <- <-]. split; [reflexivity|]. left. auto. }
  destruct (Z.of_nat (length S) <? 5) eqn:Hsize.
  { intros [= <- <- <- <-]. split; [reflexivity|]. left. auto. }
  destruct (_ =? 0) eqn:Hskip.
  - apply Z.eqb_eq in Hskip. apply Z.ltb_ge in Hsize.
    intros [= <- <- <- <-]. split; [reflexivity|]. right.
    do 2 eexists. split; [reflexivity|]. rewrite Hskip.
    split; [reflexivity|]. split; [lia|].
    split; [now apply channel_detect_station|].
    split; [reflexivity|]. eauto.
  - intros [= <- <- <- <-]. split; [reflexivity|]. left. auto.
Qed.

(** ** What the loop emits *)

Ltac st_simpl :=
  cbn [St.pulse_inds St.sweep_inds St.last_pulse_epoch St.seq
       St.current_sweep St.pulse_range St.pulses St.sweeps
       Group.channel Group.sweep Group.epoch Group.skip Group.seq
       Group.samples length app].

Lemma subset_Forall (Q : vive_headset_lighthouse_pulse2 -> Prop)
      (D : vl_lighthouse_samples) (l : list nat) ps :
  subset D l = Some ps ->
  Forall (fun i => exists s, nth_error D i = Some s /\ Q s) l ->
  Forall Q ps.
Proof.
  revert ps. induction l as [|i l IH]; cbn; intros ps Hps Hl.
  - injection Hps as <-. constructor.
  - destruct (nth_error D i) as [s|] eqn:E; [|discriminate].
    destruct (subset D l) as [r|]; [|discriminate].
    injection Hps as <-. inversion_clear Hl as [|? ? (s' & Hs' & HQ) Hrest].
    constructor; [congruence|now apply IH].
Qed.

Lemma subset_length (D : vl_lighthouse_samples) (l : list nat) ps :
  subset D l = Some ps -> length ps = length l.
Proof.
  revert ps. induction l as [|i l IH]; cbn; intros ps Hps.
  - now injection Hps as <-.
  - destruct (nth_error D i); [|discriminate].
    destruct (subset D l) as [r|]; [|discriminate].
    injection Hps as <-. cbn. f_equal. now apply IH.
Qed.

Lemma seq_after_snoc acc l p :
  seq_after acc (l ++ [p]) =
  if starts_cycle p then seq_after acc l + 1 else seq_after acc l.
Proof. unfold seq_after. now rewrite fold_left_app. Qed.

Lemma seq_numbers_snoc l p : forall acc,
  seq_numbers acc (l ++ [p]) =
  seq_numbers acc l ++ [seq_after acc (l ++ [p])].
Proof.
  induction l as [|q l IH]; intros acc; cbn; [reflexivity|].
  now rewrite IH.
Qed.

Lemma seq_after_ge l : forall acc, acc <= seq_after acc l.
Proof.
  induction l as [|p l IH]; intros acc; cbn; [lia|].
  fold (seq_after (if starts_cycle p then acc + 1 else acc) l).
  specialize (IH (if starts_cycle p then acc + 1 else acc)).
  destruct (starts_cycle p); lia.
Qed.

Lemma seq_after_le l : forall acc,
  seq_after acc l <= acc + Z.of_nat (length l).
Proof.
  induction l as [|p l IH]; intros acc; cbn [length]; [cbn; lia|].
  change (seq_after acc (p :: l))
    with (seq_after (if starts_cycle p then acc + 1 else acc) l).
  specialize (IH (if starts_cycle p then acc + 1 else acc)).
  destruct (starts_cycle p); lia.
Qed.

Lemma samples_held_snoc l g :
  samples_held (l ++ [g]) = (samples_held l + length (Group.samples g))%nat.
Proof.
  induction l as [|h l IH]; cbn; [lia|].
  fold (samples_held (l ++ [g])). fold (samples_held l). lia.
Qed.

Lemma sorted_snoc (l : list Z) (x : Z) :
  StronglySorted Z.le l -> Forall (fun y => y <= x) l ->
  StronglySorted Z.le (l ++ [x]).
Proof.
  induction 1 as [|y l Hs IH Hy]; cbn; intros Hx.
  - repeat constructor.
  - inversion_clear Hx as [|? ? Hyx Hlx].
    constructor; [now apply IH|].
    apply Forall_app. split; [exact Hy|]. now constructor.
Qed.

Lemma emit_inv_initial D : emit_inv D 0 initial_state.
Proof.
  constructor; cbn.
  - constructor.
  - constructor.
  - intros p [].
  - intros s [].
  - reflexivity.
  - reflexivity.
  - split; constructor.
  - lia.
Qed.

Lemma emit_inv_weaken D n st : emit_inv D n st -> emit_inv D (S n) st.
Proof.
  intros H. pose proof (e_count _ _ _ H). destruct H.
  constructor; try assumption. lia.
Qed.

Lemma emit_inv_flush tick rps D n st st' :
  emit_inv D n st -> St.pulse_inds st <> [] ->
  flush_pulse_set tick rps D st = Some st' -> emit_inv D n st'.
Proof.
  intros H Hne. unfold flush_pulse_set.
  destruct (subset D (St.pulse_inds st)) as [ps|] eqn:Hps; [|discriminate].
  destruct (update_pulse_state _ _ _ _ _ _) as [[[[lpe' cs'] seq'] out]|]
    eqn:Hup; [|discriminate].
  intros [= <-].
  pose proof (e_count _ _ _ H) as Hcount.
  destruct (update_pulse_state_outcomes _ _ _ _ _ _ _ _ _ _ Hup)
    as [Ht [(-> & -> & _) | (ch & sw & -> & _ & Hsize & Hch & Hseq & Hclass)]].
  - cbn [isempty vl_light_sample_group_default Group.samples].
    constructor; st_simpl.
    + constructor.
    + exact (e_sweep_idx _ _ _ H).
    + exact (e_pulses _ _ _ H).
    + exact (e_sweeps _ _ _ H).
    + exact (e_seq_numbers _ _ _ H).
    + exact (e_seq _ _ _ H).
    + exact (e_sweeps_seq _ _ _ H).
    + lia.
  - pose proof (subset_length _ _ _ Hps) as Hlen.
    assert (Hout : isempty (Group.mk ch sw lpe' 0 seq' ps) = false)
      by (destruct ps; [cbn in Hsize; lia|reflexivity]).
    rewrite Hout.
    assert (Hge : St.seq st <= seq')
      by (rewrite Hseq; destruct (starts_cycle _); lia).
    assert (Hafter : seq' = seq_after 0 (St.pulses st ++
                                         [Group.mk ch sw lpe' 0 seq' ps])).
    { rewrite seq_after_snoc, <- (e_seq _ _ _ H). exact Hseq. }
    constructor; st_simpl.
    + constructor.
    + exact (e_sweep_idx _ _ _ H).
    + intros p [Hp | [<- | []]]%in_app_or; [now apply (e_pulses _ _ _ H)|].
      unfold valid_pulse_group. st_simpl.
      split; [apply (subset_Forall _ _ _ _ Hps (e_pulse_idx _ _ _ H))|].
      repeat split; try assumption.
    + exact (e_sweeps _ _ _ H).
    + rewrite map_app, seq_numbers_snoc, <- Hafter.
      now rewrite (e_seq_numbers _ _ _ H).
    + exact Hafter.
    + destruct (e_sweeps_seq _ _ _ H) as [Hb Hs]. split; [|exact Hs].
      eapply List.Forall_impl; [|exact Hb]. intros; cbn in *; lia.
    + rewrite samples_held_snoc. st_simpl. lia.
Qed.

Lemma emit_inv_store D n st st' :
  emit_inv D n st -> St.sweep_inds st <> [] ->
  store_sweep D st = Some st' -> emit_inv D n st'.
Proof.
  intros H Hne. unfold store_sweep.
  destruct (subset D (St.sweep_inds st)) as [ss|] eqn:Hss; [|discriminate].
  intros [= <-].
  pose proof (subset_length _ _ _ Hss) as Hlen.
  pose proof (e_count _ _ _ H) as Hcount.
  destruct (e_sweeps_seq _ _ _ H) as [Hb Hs].
  destruct (isempty (St.current_sweep st)).
  - constructor; st_simpl.
    + exact (e_pulse_idx _ _ _ H).
    + constructor.
    + exact (e_pulses _ _ _ H).
    + exact (e_sweeps _ _ _ H).
    + exact (e_seq_numbers _ _ _ H).
    + exact (e_seq _ _ _ H).
    + now split.
    + lia.
  - constructor; st_simpl.
    + exact (e_pulse_idx _ _ _ H).
    + constructor.
    + exact (e_pulses _ _ _ H).
    + intros s [Hin | [<- | []]]%in_app_or; [now apply (e_sweeps _ _ _ H)|].
      unfold valid_sweep_group. st_simpl.
      split; [now rewrite (subset_nil_inv _ _ _ Hss)|].
      split; [apply (subset_Forall _ _ _ _ Hss (e_sweep_idx _ _ _ H))|].
      split; [reflexivity|apply (subset_incl _ _ _ Hss)].
    + exact (e_seq_numbers _ _ _ H).
    + exact (e_seq _ _ _ H).
    + pose proof (seq_after_ge (St.pulses st) 0) as Hpos.
      rewrite <- (e_seq _ _ _ H) in Hpos. split.
      * apply Forall_app. split; [exact Hb|].
        constructor; [st_simpl; lia|constructor].
      * rewrite map_app. apply sorted_snoc; [exact Hs|].
        apply Forall_map.
        eapply List.Forall_impl; [|exact Hb]. intros; cbn in *; lia.
    + rewrite samples_held_snoc. st_simpl. lia.
Qed.

Lemma emit_inv_step tick rps D n st st' :
  emit_inv D n st -> loop_body tick rps D st n = Some st' ->
  emit_inv D (S n) st'.
Proof.
  apply (loop_body_rules tick rps D n (emit_inv D n) (emit_inv D (S n))).
  - apply emit_inv_weaken.
  - apply emit_inv_flush.
  - apply emit_inv_store.
  - intros s sample H Hs Hlen Hnil _.
    pose proof (e_count _ _ _ H) as Hcount.
    constructor; st_simpl.
    + exact (e_pulse_idx _ _ _ H).
    + apply Forall_app. split; [exact (e_sweep_idx _ _ _ H)|].
      constructor; [eauto|constructor].
    + exact (e_pulses _ _ _ H).
    + exact (e_sweeps _ _ _ H).
    + exact (e_seq_numbers _ _ _ H).
    + exact (e_seq _ _ _ H).
    + exact (e_sweeps_seq _ _ _ H).
    + rewrite length_app. st_simpl. lia.
  - intros s sample H Hs Hlen Hnil.
    pose proof (e_count _ _ _ H) as Hcount.
    constructor; st_simpl.
    + apply Forall_app. split; [exact (e_pulse_idx _ _ _ H)|].
      constructor; [eauto|constructor].
    + exact (e_sweep_idx _ _ _ H).
    + exact (e_pulses _ _ _ H).
    + exact (e_sweeps _ _ _ H).
    + exact (e_seq_numbers _ _ _ H).
    + exact (e_seq _ _ _ H).
    + exact (e_sweeps_seq _ _ _ H).
    + rewrite length_app. st_simpl. lia.
Qed.

(** The loop returns, and both invariants hold of its final state. *)
Lemma process_lighthouse_samples_emit tick rps D :
  exists st,
    process_lighthouse_samples tick rps D =
      Some (St.sweeps st, St.pulses st) /\
    loop_inv D (length D) st /\ emit_inv D (length D) st.
Proof.
  destruct (process_lighthouse_samples_some tick rps D)
    as (st & Hst & Hinv & Hrun).
  exists st. split; [exact Hrun|]. split; [exact Hinv|].
  apply (state_after_ind tick rps D (emit_inv D)) with (n := length D);
    [apply emit_inv_initial| |lia|exact Hst].
  intros n st0 st1 _. apply emit_inv_step.
Qed.

(** The length threshold separates the two kinds of emitted group: every
    event of an emitted pulse-group has [length >= 2000], every event of
    an emitted sweep-group has [length < 2000]. *)
Theorem emitted_groups_length_partition tick rps (D : vl_lighthouse_samples) :
  exists sweeps pulses,
    process_lighthouse_samples tick rps D = Some (sweeps, pulses) /\
    (forall p e, In p pulses -> In e (Group.samples p) ->
       2000 <= Pulse2.length e) /\
    (forall s e, In s sweeps -> In e (Group.samples s) ->
       Pulse2.length e < 2000).
Proof.
  destruct (process_lighthouse_samples_emit tick rps D)
    as (st & Hrun & _ & He).
  exists (St.sweeps st), (St.pulses st). split; [exact Hrun|]. split.
  - intros p e Hp Hin. destruct (e_pulses _ _ _ He p Hp) as [H _].
    exact (proj1 (List.Forall_forall _ _) H e Hin).
  - intros s e Hs Hin. destruct (e_sweeps _ _ _ He s Hs) as (_ & H & _).
    exact (proj1 (List.Forall_forall _ _) H e Hin).
Qed.

(** Every emitted pulse-group holds at least five events, all of them
    events of the input, has channel A, B or C and [skip = 0], and its
    epoch is the median timestamp of its events. *)
Theorem emitted_pulse_groups_valid tick rps (D : vl_lighthouse_samples) :
  exists sweeps pulses,
    process_lighthouse_samples tick rps D = Some (sweeps, pulses) /\
    forall p, In p pulses ->
      (5 <= length (Group.samples p))%nat /\
      incl (Group.samples p) D /\
      is_station (Group.channel p) /\
      Group.skip p = 0 /\
      median_timestamp (Group.samples p) = Some (Group.epoch p).
Proof.
  destruct (process_lighthouse_samples_emit tick rps D)
    as (st & Hrun & Hinv & He).
  exists (St.sweeps st), (St.pulses st). split; [exact Hrun|].
  intros p Hp.
  destruct (e_pulses _ _ _ He p Hp) as (_ & H5 & Hch & Hsk & Hep & _).
  destruct (inv_pulses_chain _ _ _ Hinv p Hp) as [_ Hincl].
  auto.
Qed.

(** Every emitted sweep-group holds at least one event, all of them
    events of the input, has [skip = 0], and its channel is A, B or C. *)
Theorem emitted_sweep_groups_valid tick rps (D : vl_lighthouse_samples) :
  exists sweeps pulses,
    process_lighthouse_samples tick rps D = Some (sweeps, pulses) /\
    forall s, In s sweeps ->
      Group.samples s <> [] /\
      incl (Group.samples s) D /\
      Group.skip s = 0 /\
      is_station (Group.channel s).
Proof.
  destruct (process_lighthouse_samples_emit tick rps D)
    as (st & Hrun & Hinv & He).
  exists (St.sweeps st), (St.pulses st). split; [exact Hrun|].
  intros s Hs.
  destruct (e_sweeps _ _ _ He s Hs) as (Hne & _ & Hsk & Hincl).
  destruct (inv_sweeps _ _ _ Hinv s Hs) as (p & Hp & Hch & _).
  destruct (e_pulses _ _ _ He p Hp) as (_ & _ & Hst & _).
  rewrite Hch in Hst. auto.
Qed.

Lemma seq_numbers_sorted l : forall acc,
  StronglySorted Z.le (seq_numbers acc l) /\
  Forall (fun q => acc <= q <= acc + Z.of_nat (length l)) (seq_numbers acc l).
Proof.
  induction l as [|p l IH]; intros acc; cbn [seq_numbers length].
  - split; constructor.
  - destruct (IH (if starts_cycle p then acc + 1 else acc)) as [Hs Hb].
    assert (Hacc : acc <= (if starts_cycle p then acc + 1 else acc) <= acc + 1)
      by (destruct (starts_cycle p); lia).
    split.
    + constructor; [exact Hs|].
      eapply List.Forall_impl; [|exact Hb]. intros; cbn in *; lia.
    + constructor; [lia|].
      eapply List.Forall_impl; [|exact Hb]. intros; cbn in *; lia.
Qed.

(** Sequence numbers count scanning cycles: the [seq] of the k-th emitted
    pulse-group is the number of pulse-groups with channel A or B and
    rotor H among the first k.  In both output lists [seq] never
    decreases, and it lies between 0 and the number of emitted
    pulse-groups. *)
Theorem emitted_seq_counts_cycles tick rps (D : vl_lighthouse_samples) :
  exists sweeps pulses,
    process_lighthouse_samples tick rps D = Some (sweeps, pulses) /\
    map Group.seq pulses = seq_numbers 0 pulses /\
    StronglySorted Z.le (map Group.seq pulses) /\
    StronglySorted Z.le (map Group.seq sweeps) /\
    (forall g, In g pulses \/ In g sweeps ->
       0 <= Group.seq g <= Z.of_nat (length pulses)).
Proof.
  destruct (process_lighthouse_samples_emit tick rps D)
    as (st & Hrun & _ & He).
  exists (St.sweeps st), (St.pulses st). split; [exact Hrun|].
  destruct (seq_numbers_sorted (St.pulses st) 0) as [Hsorted Hbound].
  destruct (e_sweeps_seq _ _ _ He) as [Hb Hs].
  rewrite <- (e_seq_numbers _ _ _ He) in Hsorted, Hbound.
  split; [exact (e_seq_numbers _ _ _ He)|].
  split; [exact Hsorted|]. split; [exact Hs|].
  intros g [Hg | Hg].
  - apply (proj1 (List.Forall_forall _ _) Hbound). now apply in_map.
  - pose proof (proj1 (List.Forall_forall _ _) Hb g Hg) as Hg'. cbn in Hg'.
    pose proof (seq_after_le (St.pulses st) 0) as Hle.
    rewrite <- (e_seq _ _ _ He) in Hle. lia.
Qed.

(** The decoder never duplicates events: the emitted pulse-groups and
    sweep-groups together hold at most as many events as the input. *)
Theorem emitted_events_bounded tick rps (D : vl_lighthouse_samples) :
  exists sweeps pulses,
    process_lighthouse_samples tick rps D = Some (sweeps, pulses) /\
    (samples_held pulses + samples_held sweeps <= length D)%nat.
Proof.
  destruct (process_lighthouse_samples_emit tick rps D)
    as (st & Hrun & _ & He).
  exists (St.sweeps st), (St.pulses st). split; [exact Hrun|].
  pose proof (e_count _ _ _ He). lia.
Qed.

(** A stream without pulse events (all lengths below 2000) yields no
    group at all; a stream without sweep events yields no sweep-group. *)
Theorem one_kind_of_event_only tick rps (D : vl_lighthouse_samples) :
  (Forall (fun e => Pulse2.length e < 2000) D ->
   process_lighthouse_samples tick rps D = Some ([], [])) /\
  (Forall (fun e => 2000 <= Pulse2.length e) D ->
   exists pulses, process_lighthouse_samples tick rps D = Some ([], pulses)).
Proof.
  destruct (process_lighthouse_samples_emit tick rps D)
    as (st & Hrun & Hinv & He).
  split.
  - intros HD.
    assert (Hp : St.pulses st = []).
    { destruct (St.pulses st) as [|p l] eqn:E; [reflexivity|exfalso].
      assert (Hin : In p (St.pulses st)) by (rewrite E; now left).
      destruct (e_pulses _ _ _ He p Hin) as (Hlen & H5 & _).
      destruct (inv_pulses_chain _ _ _ Hinv p Hin) as [_ Hincl].
      destruct (Group.samples p) as [|e r]; [cbn in H5; lia|].
      inversion_clear Hlen as [|? ? He1 _].
      pose proof (proj1 (List.Forall_forall _ _) HD e (Hincl e (or_introl eq_refl))).
      cbn in *. lia. }
    assert (Hs : St.sweeps st = []).
    { destruct (St.sweeps st) as [|s l] eqn:E; [reflexivity|exfalso].
      assert (Hin : In s (St.sweeps st)) by (rewrite E; now left).
      destruct (inv_sweeps _ _ _ Hinv s Hin) as (p & Hpin & _).
      rewrite Hp in Hpin. destruct Hpin. }
    now rewrite Hrun, Hp, Hs.
  - intros HD. exists (St.pulses st).
    assert (Hs : St.sweeps st = []).
    { destruct (St.sweeps st) as [|s l] eqn:E; [reflexivity|exfalso].
      assert (Hin : In s (St.sweeps st)) by (rewrite E; now left).
      destruct (e_sweeps _ _ _ He s Hin) as (Hne & Hlen & _ & Hincl).
      destruct (Group.samples s) as [|e r]; [congruence|].
      inversion_clear Hlen as [|? ? He1 _].
      pose proof (proj1 (List.Forall_forall _ _) HD e (Hincl e (or_introl eq_refl))).
      cbn in *. lia. }
    now rewrite Hrun, Hs.
Qed.

Lemma one_kind_of_event_only_witness :
  process_lighthouse_samples 48000000 60 (sweep_hits 200000 ids8) =
    Some ([], []) /\
  exists pulses,
    process_lighthouse_samples 48000000 60
      (cluster 0 3000 ids8 ++ cluster 380000 3500 ids8) = Some ([], pulses).
Proof.
  split.
  - apply (proj1 (one_kind_of_event_only 48000000 60 (sweep_hits 200000 ids8))).
    repeat constructor.
  - apply (proj2 (one_kind_of_event_only 48000000 60
                    (cluster 0 3000 ids8 ++ cluster 380000 3500 ids8))).
    repeat constructor; cbn; lia.
Defined.

(** ** The pulse classes in closed form *)

Ltac decide_windows :=
  repeat match goal with
         | |- context [Z.ltb ?a ?b] =>
             destruct (Z.ltb_spec a b); try (exfalso; lia); cbn [andb]
         end.

(** The windows of the ten table rows are the open intervals of width 500
    around the durations 2500, 3000, ..., 7000: a length [L] strictly
    between 2250 and 7250 that is not one of the boundaries 2750, 3250,
    ..., 6750 gets row [(L - 2250) / 500] without an error; the
    boundaries themselves, like every length up to 2250 or from 7250 on,
    match no row: the error is logged and the class of no match is
    returned. *)
Theorem lookup_pulse_class_closed_form (L : Z) :
  (2250 < L < 7250 -> (L - 2250) mod 500 <> 0 ->
   exists e,
     nth_error pulse_table (Z.to_nat ((L - 2250) / 500)) = Some e /\
     lookup_pulse_class L = (e, [])) /\
  (L <= 2250 \/ 7250 <= L \/ (L - 2250) mod 500 = 0 ->
   lookup_pulse_class L =
     (lighthouse_sync_pulse_default, [no_pulse_class_msg])).
Proof.
  pose proof (Z.div_mod (L - 2250) 500 ltac:(lia)) as Hdm.
  pose proof (Z.mod_pos_bound (L - 2250) 500 ltac:(lia)) as Hr.
  set (q := (L - 2250) / 500) in *. set (r := (L - 2250) mod 500) in *.
  split.
  - intros HL Hne.
    assert (q = 0 \/ q = 1 \/ q = 2 \/ q = 3 \/ q = 4 \/ q = 5 \/ q = 6 \/
            q = 7 \/ q = 8 \/ q = 9) as Hq by lia.
    unfold lookup_pulse_class, pulse_table, scan_pulse_table, pulse_window.
    cbn [SyncPulse.duration].
    repeat (destruct Hq as [Hq|Hq]);
      rewrite Hq in *; (eexists; split; [reflexivity|]);
      decide_windows; reflexivity.
  - intros HL.
    unfold lookup_pulse_class, pulse_table, scan_pulse_table, pulse_window.
    cbn [SyncPulse.duration].
    destruct (Z_le_gt_dec L 2250); [decide_windows; reflexivity|].
    destruct (Z_le_gt_dec 7250 L); [decide_windows; reflexivity|].
    assert (r = 0) as Hr0 by lia.
    assert (q = 1 \/ q = 2 \/ q = 3 \/ q = 4 \/ q = 5 \/ q = 6 \/
            q = 7 \/ q = 8 \/ q = 9) as Hq by lia.
    repeat (destruct Hq as [Hq|Hq]);
      rewrite Hq in *; decide_windows; reflexivity.
Qed.

Lemma lookup_pulse_class_closed_form_witness :
  (exists e, nth_error pulse_table 2 = Some e /\
             lookup_pulse_class 3400 = (e, [])) /\
  lookup_pulse_class 3250 =
    (lighthouse_sync_pulse_default, [no_pulse_class_msg]).
Proof.
  split.
  - apply (proj1 (lookup_pulse_class_closed_form 3400)); [lia|].
    vm_compute. discriminate.
  - apply (proj2 (lookup_pulse_class_closed_form 3250)).
    right; right. reflexivity.
Defined.

(** The lengths whose class has [skip = 0]: those strictly inside the
    window of one of the rows 3000, 3500, 4000, 4500, with the rotor of
    the row, and those that match no row at all, for which the class of no
    match gives rotor H. *)
Lemma lookup_skip_zero (L : Z) :
  SyncPulse.skip (fst (lookup_pulse_class L)) = 0 ->
  ((2750 < L < 3250 \/ 3750 < L < 4250) /\
   sweep_key (SyncPulse.sweep (fst (lookup_pulse_class L))) = "H"%char)
  \/
  ((3250 < L < 3750 \/ 4250 < L < 4750) /\
   sweep_key (SyncPulse.sweep (fst (lookup_pulse_class L))) = "V"%char)
  \/
  ((L <= 2250 \/ 7250 <= L \/ (L - 2250) mod 500 = 0) /\
   snd (lookup_pulse_class L) = [no_pulse_class_msg] /\
   sweep_key (SyncPulse.sweep (fst (lookup_pulse_class L))) = "H"%char).
Proof.
  unfold lookup_pulse_class, pulse_table, scan_pulse_table, pulse_window.
  cbn [SyncPulse.duration].
  decide_windows; cbn; intros Hs; try discriminate Hs;
    first
      [ left; split; [lia|reflexivity]
      | right; left; split; [lia|reflexivity]
      | right; right; split; [|split; reflexivity];
        first
          [ lia
          | right; right;
            first [ replace L with 2750 by lia | replace L with 3250 by lia
                  | replace L with 3750 by lia | replace L with 4250 by lia
                  | replace L with 4750 by lia | replace L with 5250 by lia
                  | replace L with 5750 by lia | replace L with 6250 by lia
                  | replace L with 6750 by lia ];
            reflexivity ] ].
Qed.

(** Every emitted pulse-group decodes to a class with [skip = 0] and has
    rotor H or V.  The median length of its events, narrowed to 16 bits,
    is either strictly inside the window of one of the rows 3000, 3500,
    4000 and 4500, and the group carries the rotor of that row (H for the
    rows 3000 and 4000, V for 3500 and 4500); or it matches no row at all
    (at most 2250, at least 7250, or one of the boundaries 2750, 3250,
    ..., 6750), and the group is emitted with rotor H: a pulse set whose
    length falls outside every window is not rejected.  Lengths inside the
    windows of the rows 2500, 5000, ..., 7000 never occur. *)
Theorem emitted_pulse_groups_class tick rps (D : vl_lighthouse_samples) :
  exists sweeps pulses,
    process_lighthouse_samples tick rps D = Some (sweeps, pulses) /\
    forall p, In p pulses ->
      is_rotor (Group.sweep p) /\
      exists m, median_length (Group.samples p) = Some m /\
        (((2750 < u16 m < 3250 \/ 3750 < u16 m < 4250) /\
          Group.sweep p = "H"%char)
         \/
         ((3250 < u16 m < 3750 \/ 4250 < u16 m < 4750) /\
          Group.sweep p = "V"%char)
         \/
         ((u16 m <= 2250 \/ 7250 <= u16 m \/ (u16 m - 2250) mod 500 = 0) /\
          Group.sweep p = "H"%char)).
Proof.
  destruct (process_lighthouse_samples_emit tick rps D)
    as (st & Hrun & _ & He).
  exists (St.sweeps st), (St.pulses st). split; [exact Hrun|].
  intros p Hp.
  destruct (e_pulses _ _ _ He p Hp) as (_ & _ & _ & _ & _ & m & Hm & Hsk & Hsw).
  rewrite Hsw.
  destruct (lookup_skip_zero _ Hsk) as [[Hr Hk]|[[Hr Hk]|(Hr & _ & Hk)]];
    rewrite Hk; (split; [unfold is_rotor; auto|]);
    exists m; (split; [exact Hm|]); auto.
Qed.

(** A pulse set of median length 7300, beyond every window, one period
    after an accepted pulse: the group is emitted, with rotor H, and it
    counts as the start of a cycle. *)
Lemma unmatched_length_group_emitted :
  exists sweeps p1 p2,
    process_lighthouse_samples 48000000 60 stream_len_7300 =
      Some (sweeps, [p1; p2]) /\
    median_length (Group.samples p2) = Some 7300 /\
    Group.channel p2 = "A"%char /\ Group.sweep p2 = "H"%char /\
    Group.skip p2 = 0 /\ Group.seq p2 = Group.seq p1 + 1.
Proof.
  do 3 eexists. split; [vm_compute; reflexivity|].
  repeat split.
Qed.

(** ** Channel detection *)

(** When the half period is at least 48000 ticks the three windows of
    [channel_detect] are disjoint, so each answer is decided by its own
    window alone, whatever the order of the tests: A when [dt] is within
    4000 of the period, B within 4000 of the period less 20000, C within
    4000 of 20000, and ['e'] otherwise. *)
Theorem channel_detect_windows tick rps (last : Z) (t : double) :
  let period := Z.quot (Z.quot tick rps) 2 in
  let dt := double_to_int64 (Dbl (halves t - 2 * last)) in
  48000 <= period ->
  (channel_detect tick rps last t = "A"%char <->
   Z.abs (dt - period) < 4000) /\
  (channel_detect tick rps last t = "B"%char <->
   Z.abs (dt - (period - 20000)) < 4000) /\
  (channel_detect tick rps last t = "C"%char <->
   Z.abs (dt - 20000) < 4000) /\
  (channel_detect tick rps last t = "e"%char <->
   4000 <= Z.abs (dt - period) /\
   4000 <= Z.abs (dt - (period - 20000)) /\
   4000 <= Z.abs (dt - 20000)).
Proof.
  intros period dt Hp. unfold channel_detect. cbn [double_of_Z halves].
  fold period. fold dt.
  destruct (Z.ltb_spec (Z.abs (dt - period)) 4000);
    [repeat split; intros; try discriminate; try reflexivity; lia|].
  destruct (Z.ltb_spec (Z.abs (dt - (period - 20000))) 4000);
    [repeat split; intros; try discriminate; try reflexivity; lia|].
  destruct (Z.ltb_spec (Z.abs (dt - 20000)) 4000);
    repeat split; intros; try discriminate; try reflexivity; lia.
Qed.

Lemma channel_detect_windows_witness :
  channel_detect 48000000 60 0 (double_of_Z 380000) = "B"%char <->
  Z.abs (double_to_int64 (Dbl (halves (double_of_Z 380000) - 2 * 0))
         - (Z.quot (Z.quot 48000000 60) 2 - 20000)) < 4000.
Proof.
  apply (channel_detect_windows 48000000 60 0 (double_of_Z 380000)).
  vm_compute. discriminate.
Defined.

Lemma first_pulse_channel tick rps (t : double) :
  40000 <= Z.quot (Z.quot tick rps) 2 ->
  halves t <= 2 * 4293983296 ->
  channel_detect tick rps
    (u32 (double_to_int64 (St.last_pulse_epoch initial_state))) t = "e"%char.
Proof.
  intros Hp Ht.
  change (u32 (double_to_int64 (St.last_pulse_epoch initial_state)))
    with 4293967296.
  unfold channel_detect. cbn [double_of_Z halves].
  set (period := Z.quot (Z.quot tick rps) 2) in *.
  assert (Hdt : double_to_int64 (Dbl (halves t - 2 * 4293967296)) <= 16000).
  { unfold double_to_int64. cbn [halves].
    change 16000 with (Z.quot 32000 2). apply Z.quot_le_mono; lia. }
  set (dt := double_to_int64 _) in *.
  destruct (Z.ltb_spec (Z.abs (dt - period)) 4000); [lia|].
  destruct (Z.ltb_spec (Z.abs (dt - (period - 20000))) 4000); [lia|].
  destruct (Z.ltb_spec (Z.abs (dt - 20000)) 4000); [lia|reflexivity].
Qed.

Lemma median_timestamp_le (S : vl_lighthouse_samples) (t : double) (hi : Z) :
  Forall (fun s => 0 <= Pulse2.timestamp s <= hi) S ->
  median_timestamp S = Some t -> 0 <= halves t <= 2 * hi.
Proof.
  intros Hb Ht.
  destruct (median_timestamp_between S t Ht) as (a & b & Ha & Hb' & Hle).
  pose proof (proj1 (List.Forall_forall _ _) Hb a Ha).
  pose proof (proj1 (List.Forall_forall _ _) Hb b Hb').
  cbn in *. lia.
Qed.

Lemma first_flush_free_inv tick rps (D : vl_lighthouse_samples) :
  Forall (fun s => 0 <= Pulse2.timestamp s) D ->
  forall n st, (n <= length D)%nat ->
    state_after tick rps D n = Some st ->
    St.last_pulse_epoch st = St.last_pulse_epoch initial_state ->
    St.pulses st = [] /\ St.sweeps st = [] /\
    isempty (St.current_sweep st) = true /\ St.sweep_inds st = [].
Proof.
  intros HD.
  apply (state_after_ind tick rps D (fun _ st =>
    St.last_pulse_epoch st = St.last_pulse_epoch initial_state ->
    St.pulses st = [] /\ St.sweeps st = [] /\
    isempty (St.current_sweep st) = true /\ St.sweep_inds st = [])).
  { intros _. cbn. auto. }
  intros n st st' _.
  apply (loop_body_rules tick rps D n
           (fun st =>
              St.last_pulse_epoch st = St.last_pulse_epoch initial_state ->
              St.pulses st = [] /\ St.sweeps st = [] /\
              isempty (St.current_sweep st) = true /\ St.sweep_inds st = [])
           (fun st =>
              St.last_pulse_epoch st = St.last_pulse_epoch initial_state ->
              St.pulses st = [] /\ St.sweeps st = [] /\
              isempty (St.current_sweep st) = true /\ St.sweep_inds st = [])).
  - auto.
  - intros s s' _ _. unfold flush_pulse_set.
    destruct (subset D (St.pulse_inds s)) as [ps|] eqn:Hps; [|discriminate].
    destruct (update_pulse_state _ _ _ _ _ _) as [[[[lpe' cs'] seq'] out]|]
      eqn:Hup; [|discriminate].
    intros [= <-]. cbn [St.last_pulse_epoch]. intros Hlpe. exfalso.
    destruct (update_pulse_state_outcomes _ _ _ _ _ _ _ _ _ _ Hup) as [Ht _].
    destruct (median_timestamp_between ps lpe' Ht) as (a & _ & Ha & _ & Hle & _).
    pose proof (proj1 (List.Forall_forall _ _) HD a
                  (subset_incl _ _ _ Hps a Ha)) as Hts.
    rewrite Hlpe in Hle. cbn in Hle, Hts. lia.
  - intros s s' Hs Hne. unfold store_sweep.
    destruct (subset D (St.sweep_inds s)); [|discriminate].
    intros [= <-]. cbn [St.last_pulse_epoch]. intros Hlpe.
    destruct (Hs Hlpe) as (_ & _ & _ & Hnil). contradiction.
  - intros s sample Hs _ _ _ Hcs. cbn [St.last_pulse_epoch]. intros Hlpe.
    destruct (Hs Hlpe) as (_ & _ & Hempty & _). congruence.
  - intros s sample Hs _ _ _. cbn. exact Hs.
Qed.

(** The first pulse set of a stream is never emitted.  With a half period
    of at least 40000 ticks, a pulse set whose timestamps do not exceed
    4293983296 and that is measured against the initial
    [last_pulse_epoch] gets channel ['e']: no pulse-group, [seq] kept,
    [current_sweep] cleared.  And as long as [last_pulse_epoch] still has
    its initial value nothing has been emitted and no sweep is in
    progress. *)
Theorem first_pulse_set_rejected tick rps :
  40000 <= Z.quot (Z.quot tick rps) 2 ->
  (forall (S : vl_lighthouse_samples) cs seq,
     S <> [] ->
     Forall (fun s => 0 <= Pulse2.timestamp s <= 4293983296) S ->
     exists t,
       update_pulse_state tick rps S (St.last_pulse_epoch initial_state)
         cs seq =
       Some (t, vl_light_sample_group_default, seq,
             vl_light_sample_group_default)) /\
  (forall (D : vl_lighthouse_samples) n st,
     Forall (fun s => 0 <= Pulse2.timestamp s) D ->
     (n <= length D)%nat ->
     state_after tick rps D n = Some st ->
     St.last_pulse_epoch st = St.last_pulse_epoch initial_state ->
     St.pulses st = [] /\ St.sweeps st = [] /\
     isempty (St.current_sweep st) = true).
Proof.
  intros Hp. split.
  - intros S cs seq HS Hb.
    destruct (median_timestamp_some S HS) as [t Ht].
    destruct (median_length_some S HS) as [m Hm].
    pose proof (median_timestamp_le S t _ Hb Ht) as Hle.
    exists t. unfold update_pulse_state, process_pulse_set, decode_pulse.
    rewrite Hm, Ht. cbn [Group.channel Group.epoch].
    rewrite (first_pulse_channel tick rps t Hp) by lia.
    reflexivity.
  - intros D n st HD Hn Hst Hlpe.
    destruct (first_flush_free_inv tick rps D HD n st Hn Hst Hlpe)
      as (H1 & H2 & H3 & _). auto.
Qed.

Lemma first_pulse_set_rejected_witness :
  (exists t,
     update_pulse_state 48000000 60 (cluster 0 3000 ids8)
       (St.last_pulse_epoch initial_state) group_in_progress 7 =
     Some (t, vl_light_sample_group_default, 7,
           vl_light_sample_group_default)) /\
  (exists st,
     state_after 48000000 60 scenario_S1 5 = Some st /\
     length (St.pulse_inds st) = 5%nat /\
     St.pulses st = [] /\ St.sweeps st = [] /\
     isempty (St.current_sweep st) = true).
Proof.
  destruct (first_pulse_set_rejected 48000000 60) as [Hfirst Hfree].
  - vm_compute. discriminate.
  - split.
    + apply Hfirst; [discriminate|].
      repeat constructor; cbn; lia.
    + eexists. split; [vm_compute; reflexivity|]. split; [reflexivity|].
      apply (Hfree scenario_S1 5%nat).
      * repeat constructor; cbn; lia.
      * cbn. lia.
      * vm_compute. reflexivity.
      * reflexivity.
Defined.

(** ** More on the angle collator *)

Lemma u32_range (x : Z) : 0 <= u32 x < 2 ^ 32.
Proof. unfold u32. apply Z.mod_pos_bound. lia. Qed.

Lemma sensor_ids_range (s : Z) : In s sensor_ids -> 0 <= s < 32.
Proof.
  unfold sensor_ids. intros H. apply in_map_iff in H as (k & <- & Hk).
  apply in_seq in Hk. lia.
Qed.

Lemma sensor_body_in_range x_sweep y_sweep (acc : readings) s :
  0 <= s < 32 -> readings_in_range (fst acc) ->
  readings_in_range (fst (sensor_body x_sweep y_sweep acc s)).
Proof.
  destruct acc as [R log]. cbn [fst]. intros Hs HR.
  destruct (filter_samples_by_sensor_id (Group.samples x_sweep) s)
    as [|xi0 xi'] eqn:Hx.
  { unfold sensor_body. rewrite Hx. exact HR. }
  destruct (filter_samples_by_sensor_id (Group.samples y_sweep) s)
    as [|yi0 yi'] eqn:Hy.
  { unfold sensor_body. rewrite Hx, Hy. exact HR. }
  intros s' a. destruct (Z.eq_dec s s') as [<-|Hne].
  - rewrite (sensor_body_same _ _ _ _ _ _ _ _ _ Hx Hy). intros [= <-].
    cbn [push_t push_y push_x Angles.x Angles.y Angles.t].
    assert (Hold : Forall (fun v => 0 <= v < 2 ^ 32)
                     (Angles.x (default vl_angles_default (R !! s))) /\
                   Forall (fun v => 0 <= v < 2 ^ 32)
                     (Angles.y (default vl_angles_default (R !! s))) /\
                   Forall (fun v => 0 <= v < 2 ^ 32)
                     (Angles.t (default vl_angles_default (R !! s)))).
    { destruct (R !! s) as [a0|] eqn:E; cbn [default].
      - destruct (HR s a0 E) as (_ & _ & H1 & H2 & H3). auto.
      - cbn. repeat split; constructor. }
    destruct Hold as (H1 & H2 & H3).
    split; [exact Hs|]. split; [now destruct (Angles.x _)|].
    repeat split; apply Forall_app; (split; [assumption|]);
      (constructor; [|constructor]);
      first [apply u32_range | unfold ticks_sample_to_angle; apply u32_range].
  - rewrite (sensor_body_other x_sweep y_sweep (R, log) s s' Hne). apply HR.
Qed.

Lemma sensor_fold_in_range x_sweep y_sweep (l : list Z) :
  (forall s, In s l -> 0 <= s < 32) ->
  forall acc : readings,
  readings_in_range (fst acc) ->
  readings_in_range (fst (fold_left (sensor_body x_sweep y_sweep) l acc)).
Proof.
  induction l as [|a l IH]; intros Hl acc H; cbn [fold_left]; [exact H|].
  apply IH; [intros s Hs; apply Hl; now right|].
  apply sensor_body_in_range; [apply Hl; now left|exact H].
Qed.

Lemma sweep_fold_in_range x_sweeps y_sweeps (l : list nat) :
  forall acc : readings,
  readings_in_range (fst acc) ->
  readings_in_range (fst (fold_left (sweep_body x_sweeps y_sweeps) l acc)).
Proof.
  induction l as [|a l IH]; intros acc H; cbn [fold_left]; [exact H|].
  apply IH. unfold sweep_body.
  destruct (nth_error x_sweeps a);
    [destruct (nth_error y_sweeps a)|];
    [apply sensor_fold_in_range; [apply sensor_ids_range|exact H]
    |exact H..].
Qed.

Lemma seq_body_in_range station sweeps i (acc : readings) :
  readings_in_range (fst acc) ->
  readings_in_range (fst (fst (seq_body station sweeps i acc))).
Proof.
  intros H. unfold seq_body.
  destruct (_ || _); [exact H|].
  cbn [fst]. apply sweep_fold_in_range. now destruct (_ || _).
Qed.

Lemma seq_loop_in_range station sweeps count : forall i (acc : readings),
  readings_in_range (fst acc) ->
  readings_in_range (fst (seq_loop station sweeps count i acc)).
Proof.
  induction count as [|count IH]; intros i acc H; cbn [seq_loop];
    [exact H|].
  pose proof (seq_body_in_range station sweeps i acc H) as H'.
  destruct (seq_body station sweeps i acc) as [acc' continue].
  cbn [fst] in H'. destruct continue; [now apply IH|exact H'].
Qed.

(** The map returned by [collect_readings] has keys among the sensor
    numbers 0..31 only; every key holds at least one triple, and every
    recorded [x], [y] and [t] is a value of [0 .. 2^32 - 1] (never
    negative). *)
Theorem collect_readings_in_range (station : ascii)
  (sweeps : list vl_light_sample_group) :
  forall s a, fst (collect_readings station sweeps) !! s = Some a ->
    0 <= s < 32 /\ Angles.x a <> [] /\
    Forall (fun v => 0 <= v < 2 ^ 32) (Angles.x a) /\
    Forall (fun v => 0 <= v < 2 ^ 32) (Angles.y a) /\
    Forall (fun v => 0 <= v < 2 ^ 32) (Angles.t a).
Proof.
  change (readings_in_range (fst (collect_readings station sweeps))).
  unfold collect_readings.
  destruct (find_max_seq sweeps) as [maxseq log].
  apply seq_loop_in_range. intros s a. cbn [fst].
  rewrite lookup_empty. discriminate.
Qed.

(** ** Maxima *)

Lemma fold_max_spec (l : list Z) : forall q,
  (q <= fold_left Z.max l q) /\
  (forall x, In x l -> x <= fold_left Z.max l q) /\
  (fold_left Z.max l q = q \/ In (fold_left Z.max l q) l).
Proof.
  induction l as [|y l IH]; intros q; cbn [fold_left].
  - split; [lia|]. split; [intros x []|now left].
  - destruct (IH (Z.max q y)) as (H1 & H2 & H3).
    split; [lia|]. split.
    + intros x [<- | Hx]; [lia|now apply H2].
    + destruct H3 as [H3 | H3]; [|right; now right].
      rewrite H3. destruct (Z.max_spec q y) as [[_ ->] | [_ ->]];
        [right; now left|now left].
Qed.

(** [find_max_seq] of an empty list is 0, with an error logged; of a
    non-empty list it is, without any log, the largest sequence number:
    no group has a larger one and some group has exactly it. *)
Theorem find_max_seq_spec (sweeps : list vl_light_sample_group) :
  (sweeps = [] -> find_max_seq sweeps = (0, [sweep_vector_empty_msg])) /\
  (sweeps <> [] ->
   snd (find_max_seq sweeps) = [] /\
   (forall g, In g sweeps -> Group.seq g <= fst (find_max_seq sweeps)) /\
   exists g, In g sweeps /\ Group.seq g = fst (find_max_seq sweeps)).
Proof.
  split; [intros ->; reflexivity|].
  destruct sweeps as [|g0 l]; [congruence|]. intros _.
  unfold find_max_seq. cbn [map fst snd].
  destruct (fold_max_spec (map Group.seq l) (Group.seq g0)) as (H1 & H2 & H3).
  split; [reflexivity|]. split.
  - intros g [<- | Hg]; [exact H1|]. apply H2. now apply in_map.
  - destruct H3 as [H3 | H3].
    + exists g0. split; [now left|now rewrite H3].
    + apply in_map_iff in H3 as (g & Hg & Hin).
      exists g. split; [now right|exact Hg].
Qed.

Lemma find_max_seq_spec_witness :
  snd (find_max_seq sweeps_dup) = [] /\
  (forall g, In g sweeps_dup -> Group.seq g <= fst (find_max_seq sweeps_dup)) /\
  exists g, In g sweeps_dup /\ Group.seq g = fst (find_max_seq sweeps_dup).
Proof.
  apply (proj2 (find_max_seq_spec sweeps_dup)). discriminate.
Defined.

(** [find_max_sendor_id] is undefined on an empty vector (it dereferences
    the end iterator); on a non-empty one it returns the largest sensor
    id, which is the id of one of the samples. *)
Theorem find_max_sendor_id_spec (samples : vl_lighthouse_samples) :
  (find_max_sendor_id samples = None <-> samples = []) /\
  (forall m, find_max_sendor_id samples = Some m ->
     (forall s, In s samples -> Pulse2.sensor_id s <= m) /\
     exists s, In s samples /\ Pulse2.sensor_id s = m).
Proof.
  unfold find_max_sendor_id. destruct samples as [|s0 l]; cbn [map].
  - split; [tauto|discriminate].
  - split; [split; discriminate|]. intros m [= <-].
    destruct (fold_max_spec (map Pulse2.sensor_id l) (Pulse2.sensor_id s0))
      as (H1 & H2 & H3).
    split.
    + intros s [<- | Hs]; [exact H1|]. apply H2. now apply in_map.
    + destruct H3 as [H3 | H3].
      * exists s0. split; [now left|now rewrite H3].
      * apply in_map_iff in H3 as (s & Hs & Hin).
        exists s. split; [now right|exact Hs].
Qed.

(** [collect_readings] returns an empty map unless there are at least two
    sequence numbers and the station has both an H and a V sweep for
    sequence number 1: the loop runs over [1 .. maxseq - 1] and stops at
    the first sequence number that lacks one of the two sweeps. *)
Theorem collect_readings_needs_first_cycle (station : ascii)
  (sweeps : list vl_light_sample_group) :
  fst (find_max_seq sweeps) <= 1 \/
  filter_sweeps sweeps station 1 "H" = [] \/
  filter_sweeps sweeps station 1 "V" = [] ->
  fst (collect_readings station sweeps) = empty.
Proof.
  intros H. unfold collect_readings.
  destruct (find_max_seq sweeps) as [maxseq log]. cbn [fst] in H.
  destruct (Z.to_nat (maxseq - 1)) as [|count] eqn:E; [reflexivity|].
  destruct H as [H | H]; [lia|].
  cbn [seq_loop]. unfold seq_body.
  replace ((Z.of_nat (length (filter_sweeps sweeps station 1 "H")) <? 1) ||
           (Z.of_nat (length (filter_sweeps sweeps station 1 "V")) <? 1))
    with true; [reflexivity|].
  destruct H as [-> | ->]; cbn [length Z.of_nat];
    [reflexivity|symmetry; apply orb_true_r].
Qed.

Lemma collect_readings_needs_first_cycle_witness :
  fst (collect_readings "C" sweeps_dup) = empty.
Proof.
  apply (collect_readings_needs_first_cycle "C" sweeps_dup).
  right. left. reflexivity.
Defined.

Lemma seq_loop_ext station sweeps sweeps' count : forall i (acc : readings),
  (forall j rotor, i <= j < i + Z.of_nat count ->
     filter_sweeps sweeps station j rotor =
     filter_sweeps sweeps' station j rotor) ->
  seq_loop station sweeps count i acc = seq_loop station sweeps' count i acc.
Proof.
  induction count as [|count IH]; intros i acc H; cbn [seq_loop];
    [reflexivity|].
  assert (Hbody : seq_body station sweeps i acc =
                  seq_body station sweeps' i acc).
  { unfold seq_body. now rewrite !(H i) by lia. }
  rewrite Hbody. destruct (seq_body station sweeps' i acc) as [acc' continue].
  destruct continue; [|reflexivity].
  apply IH. intros j rotor Hj. apply H. lia.
Qed.

(** The sweeps of the highest sequence number never contribute: two lists
    of sweeps with the same [find_max_seq] result and the same sweeps of
    the station for the sequence numbers [1 .. maxseq - 1] give the same
    map. *)
Theorem collect_readings_ignores_last_cycle (station : ascii)
  (sweeps sweeps' : list vl_light_sample_group) :
  find_max_seq sweeps = find_max_seq sweeps' ->
  (forall j rotor, 1 <= j < fst (find_max_seq sweeps) ->
     filter_sweeps sweeps station j rotor =
     filter_sweeps sweeps' station j rotor) ->
  collect_readings station sweeps = collect_readings station sweeps'.
Proof.
  intros Hmax H. unfold collect_readings. rewrite <- Hmax.
  destruct (find_max_seq sweeps) as [maxseq log]. cbn [fst] in H.
  apply seq_loop_ext. intros j rotor Hj. apply H. lia.
Qed.

Lemma collect_readings_ignores_last_cycle_witness :
  collect_readings "B" sweeps_dup = collect_readings "B" sweeps_dup_other_last.
Proof.
  apply (collect_readings_ignores_last_cycle "B" sweeps_dup
           sweeps_dup_other_last).
  - reflexivity.
  - intros j rotor Hj. change (fst (find_max_seq sweeps_dup)) with 2 in Hj.
    assert (j = 1) as -> by lia. reflexivity.
Defined.

Lemma angle_plain_iff (sample : vive_headset_lighthouse_pulse2) (epoch : Z) :
  ticks_sample_to_angle sample epoch =
    Pulse2.timestamp sample + Z.quot (Pulse2.length sample) 2 - epoch <->
  epoch <= Pulse2.timestamp sample + Z.quot (Pulse2.length sample) 2
        < epoch + 2 ^ 32.
Proof.
  unfold ticks_sample_to_angle, u32.
  rewrite Zminus_mod_idemp_l.
  set (d := Pulse2.timestamp sample + Z.quot (Pulse2.length sample) 2 - epoch).
  replace (Pulse2.timestamp sample + Z.quot (Pulse2.length sample) 2)
    with (d + epoch) by (unfold d; lia).
  pose proof (Z.mod_pos_bound d (2 ^ 32) ltac:(lia)) as Hb.
  split.
  - intros E. rewrite E in Hb. lia.
  - intros H. apply Z.mod_small. lia.
Qed.

Lemma sensor_fold_lookup x_sweep y_sweep (l : list Z) s xi0 xi' yi0 yi' :
  List.NoDup l -> In s l ->
  filter_samples_by_sensor_id (Group.samples x_sweep) s = xi0 :: xi' ->
  filter_samples_by_sensor_id (Group.samples y_sweep) s = yi0 :: yi' ->
  forall acc : readings,
  fst (fold_left (sensor_body x_sweep y_sweep) l acc) !! s =
  Some (push_t (double_to_u32 (Group.epoch x_sweep))
          (push_y (ticks_sample_to_angle yi0
                     (double_to_u32 (Group.epoch y_sweep)))
             (push_x (ticks_sample_to_angle xi0
                        (double_to_u32 (Group.epoch x_sweep)))
                (default vl_angles_default (fst acc !! s))))).
Proof.
  intros Hnd Hin Hx Hy.
  induction l as [|a l IH]; [destruct Hin|].
  apply List.NoDup_cons_iff in Hnd as [Ha Hnd]. intros acc.
  cbn [fold_left]. destruct (Z.eq_dec a s) as [->|Hne].
  - destruct (sensor_fold_count x_sweep y_sweep l
                (sensor_body x_sweep y_sweep acc s) s Hnd) as [_ Hsame].
    rewrite (Hsame Ha). destruct acc as [R log].
    apply (sensor_body_same _ _ _ _ _ _ _ _ _ Hx Hy).
  - destruct Hin as [Hin | Hin]; [contradiction|].
    rewrite (IH Hnd Hin).
    now rewrite (sensor_body_other x_sweep y_sweep acc a s Hne).
Qed.

(** With exactly one H sweep and one V sweep of the station for a
    sequence number, a sensor below 32 that they both contain gets one
    more triple: the angle of its first H sample, the angle of its first V
    sample and the H epoch.  The angle is the plain difference
    [timestamp + length / 2 - epoch] exactly when that difference is a
    32-bit value, that is when the epoch does not exceed the middle of the
    sample and is less than 2^32 below it; the middle itself may be 2^32
    or more. *)
Theorem seq_body_single_pair (station : ascii)
  (sweeps : list vl_light_sample_group) (i : Z) (R : gmap Z vl_angles) log
  (x_sweep y_sweep : vl_light_sample_group) (s : Z) xi0 xi' yi0 yi' :
  filter_sweeps sweeps station i "H" = [x_sweep] ->
  filter_sweeps sweeps station i "V" = [y_sweep] ->
  0 <= s < 32 ->
  filter_samples_by_sensor_id (Group.samples x_sweep) s = xi0 :: xi' ->
  filter_samples_by_sensor_id (Group.samples y_sweep) s = yi0 :: yi' ->
  let old := default vl_angles_default (R !! s) in
  let x_epoch := double_to_u32 (Group.epoch x_sweep) in
  let y_epoch := double_to_u32 (Group.epoch y_sweep) in
  let middle (e : vive_headset_lighthouse_pulse2) :=
    Pulse2.timestamp e + Z.quot (Pulse2.length e) 2 in
  fst (fst (seq_body station sweeps i (R, log))) !! s =
    Some (Angles.mk
            (Angles.x old ++ [ticks_sample_to_angle xi0 x_epoch])
            (Angles.y old ++ [ticks_sample_to_angle yi0 y_epoch])
            (Angles.t old ++ [x_epoch])) /\
  (ticks_sample_to_angle xi0 x_epoch = middle xi0 - x_epoch <->
   x_epoch <= middle xi0 < x_epoch + 2 ^ 32) /\
  (ticks_sample_to_angle yi0 y_epoch = middle yi0 - y_epoch <->
   y_epoch <= middle yi0 < y_epoch + 2 ^ 32).
Proof.
  intros HH HV Hs Hx Hy old x_epoch y_epoch middle. split.
  - unfold seq_body. rewrite HH, HV. cbn [length].
    change (Z.of_nat 1) with 1. change (1 <? 1) with false.
    change (1 =? 1) with true.
    cbn [orb negb fst List.seq fold_left]. unfold sweep_body.
    cbn [nth_error].
    rewrite (sensor_fold_lookup x_sweep y_sweep sensor_ids s
               xi0 xi' yi0 yi' NoDup_sensor_ids); try assumption.
    + reflexivity.
    + unfold sensor_ids. apply in_map_iff. exists (Z.to_nat s).
      split; [lia|]. apply in_seq. lia.
  - split; apply angle_plain_iff.
Qed.

Lemma seq_body_single_pair_witness :
  fst (fst (seq_body "B" sweeps_S6 1 (empty, []))) !! 0 =
    Some (Angles.mk [200] [120] [200000]).
Proof.
  destruct (seq_body_single_pair "B" sweeps_S6 1 empty []
              (Group.mk "B" "H" (double_of_Z 200000) 0 1
                 [Pulse2.mk 200100 0 200])
              (Group.mk "B" "V" (double_of_Z 600000) 0 1
                 [Pulse2.mk 600060 0 120])
              0 (Pulse2.mk 200100 0 200) [] (Pulse2.mk 600060 0 120) []
              eq_refl eq_refl ltac:(lia) eq_refl eq_refl)
    as [H _].
  exact H.
Defined.

Lemma collect_readings_in_range_witness :
  0 <= 0 < 32 /\ Angles.x (Angles.mk [200] [120] [200000]) <> [] /\
  Forall (fun v => 0 <= v < 2 ^ 32) (Angles.x (Angles.mk [200] [120] [200000])) /\
  Forall (fun v => 0 <= v < 2 ^ 32) (Angles.y (Angles.mk [200] [120] [200000])) /\
  Forall (fun v => 0 <= v < 2 ^ 32) (Angles.t (Angles.mk [200] [120] [200000])).
Proof.
  apply (collect_readings_in_range "B" sweeps_S6 0
           (Angles.mk [200] [120] [200000])).
  vm_compute. reflexivity.
Defined.

Lemma find_max_sendor_id_spec_witness :
  (forall s, In s (cluster 0 3000 ids8) -> Pulse2.sensor_id s <= 7) /\
  exists s, In s (cluster 0 3000 ids8) /\ Pulse2.sensor_id s = 7.
Proof.
  apply (proj2 (find_max_sendor_id_spec (cluster 0 3000 ids8)) 7).
  reflexivity.
Defined.

(** ** Distinct sensors *)

Lemma sensor_set_size (l : vl_lighthouse_samples) : forall acc : gset Z,
  (size (fold_left (fun (ids : gset Z) s =>
                      union (singleton (Pulse2.sensor_id s)) ids) l acc)
   <= size acc + length l)%nat /\
  (size (fold_left (fun (ids : gset Z) s =>
                      union (singleton (Pulse2.sensor_id s)) ids) l acc)
   = (size acc + length l)%nat <->
   List.NoDup (map Pulse2.sensor_id l) /\
   forall s, In s l -> ~ elem_of (Pulse2.sensor_id s) acc).
Proof.
  induction l as [|s l IH]; intros acc; cbn [fold_left length map].
  - split; [lia|]. split; [intros _; split; [constructor|intros ? []]|lia].
  - destruct (IH (union (singleton (Pulse2.sensor_id s)) acc)) as [IH1 IH2].
    set (x := Pulse2.sensor_id s) in *.
    destruct (decide (elem_of x acc)) as [Hin | Hnin].
    + assert (Heq : union (singleton x) acc = acc).
      { apply subseteq_union_1_L. now apply singleton_subseteq_l. }
      rewrite Heq in *. split; [lia|]. split; [lia|].
      intros [_ H]. exfalso. apply (H s); [now left|exact Hin].
    + assert (Hsz : size (union (singleton x) acc) = S (size acc)).
      { rewrite size_union by (now apply disjoint_singleton_l).
        now rewrite size_singleton. }
      rewrite Hsz in *. split; [lia|].
      replace (size acc + S (length l))%nat with (S (size acc) + length l)%nat
        by lia.
      rewrite IH2. split.
      * intros [Hnd H]. split.
        -- constructor; [|exact Hnd]. intros Hx.
           apply in_map_iff in Hx as (s' & Hs' & Hin').
           apply (H s' Hin'). rewrite Hs'.
           apply elem_of_union. left. now apply elem_of_singleton.
        -- intros s' [<- | Hin']; [exact Hnin|].
           intros Hacc. apply (H s' Hin').
           apply elem_of_union. now right.
      * intros [Hnd H]. apply List.NoDup_cons_iff in Hnd as [Hx Hnd].
        split; [exact Hnd|]. intros s' Hin' Hel.
        apply elem_of_union in Hel as [Hel | Hel].
        -- apply elem_of_singleton in Hel. apply Hx.
           apply in_map_iff. exists s'. split; [exact Hel|exact Hin'].
        -- apply (H s'); [now right|exact Hel].
Qed.

(** [unique_sensor_ids] never exceeds the number of samples, so the
    unsigned count of duplicates in [decode_pulse] does not wrap, and it
    equals the number of samples exactly when no sensor id occurs twice:
    for fewer than 2^32 samples the duplicate-sensors warning is logged
    exactly when some sensor id occurs twice. *)
Theorem unique_sensor_ids_spec (S : vl_lighthouse_samples) :
  (unique_sensor_ids S <= length S)%nat /\
  (unique_sensor_ids S = length S <-> List.NoDup (map Pulse2.sensor_id S)) /\
  (Z.of_nat (length S) < 2 ^ 32 ->
   (decode_pulse_log S = [] <-> List.NoDup (map Pulse2.sensor_id S))).
Proof.
  destruct (sensor_set_size S empty) as [H1 H2].
  rewrite size_empty in H1, H2. cbn [Nat.add] in H1, H2.
  fold (unique_sensor_ids S) in H1, H2.
  assert (Hiff : unique_sensor_ids S = length S <->
                 List.NoDup (map Pulse2.sensor_id S)).
  { rewrite H2. split; [tauto|]. intros H. split; [exact H|].
    intros s _. apply not_elem_of_empty. }
  split; [exact H1|]. split; [exact Hiff|].
  intros Hsmall. rewrite <- Hiff. unfold decode_pulse_log, ndups, size_t, u32.
  rewrite (Z.mod_small (_ - _) (2 ^ 64)) by lia.
  rewrite (Z.mod_small (_ - _) (2 ^ 32)) by lia.
  destruct (Z.eqb_spec (Z.of_nat (length S) - Z.of_nat (unique_sensor_ids S)) 0).
  - split; [lia|reflexivity].
  - split; [discriminate|lia].
Qed.

Lemma unique_sensor_ids_spec_witness :
  decode_pulse_log (cluster 0 3000 ids8) = [] <->
  List.NoDup (map Pulse2.sensor_id (cluster 0 3000 ids8)).
Proof.
  apply (proj2 (proj2 (unique_sensor_ids_spec (cluster 0 3000 ids8)))).
  vm_compute. reflexivity.
Defined.

(** ** Skip pulses and the order of events *)

(** A pulse set whose class has a non-zero skip bit (a skip pulse) emits
    no pulse-group and leaves [seq] alone; [last_pulse_epoch] becomes its
    median timestamp all the same.  With a recognised channel and at
    least five events [current_sweep] is kept as it is, so the sweep in
    progress goes on; otherwise it is cleared. *)
Theorem skip_pulse_keeps_sweep tick rps (S : vl_lighthouse_samples)
  lpe cs seq (m : Z) (t : double) :
  median_length S = Some m ->
  median_timestamp S = Some t ->
  SyncPulse.skip (fst (lookup_pulse_class (u16 m))) <> 0 ->
  update_pulse_state tick rps S lpe cs seq =
    Some (t,
          (if Ascii.eqb (channel_detect tick rps
                           (u32 (double_to_int64 lpe)) t) "e" ||
              (Z.of_nat (length S) <? 5)
           then vl_light_sample_group_default else cs),
          seq, vl_light_sample_group_default).
Proof.
  intros Hm Ht Hskip.
  unfold update_pulse_state, process_pulse_set, decode_pulse.
  rewrite Hm, Ht.
  cbn [Group.channel Group.epoch Group.skip Group.sweep Group.seq].
  destruct (Ascii.eqb _ "e" || (Z.of_nat (length S) <? 5)); [reflexivity|].
  apply Z.eqb_neq in Hskip. now rewrite Hskip.
Qed.

Lemma skip_pulse_keeps_sweep_witness :
  update_pulse_state 48000000 60 (cluster 400000 5000 ids5) (double_of_Z 0)
    group_in_progress 1 =
  Some (double_of_Z 400000, group_in_progress, 1,
        vl_light_sample_group_default).
Proof.
  apply (skip_pulse_keeps_sweep 48000000 60 (cluster 400000 5000 ids5)
           (double_of_Z 0) group_in_progress 1 5000 (double_of_Z 400000)).
  - reflexivity.
  - reflexivity.
  - vm_compute. discriminate.
Defined.

Lemma firstn_snoc {A : Type} (l : list A) (n : nat) (x : A) :
  nth_error l n = Some x -> firstn (S n) l = firstn n l ++ [x].
Proof.
  revert n. induction l as [|a l IH]; intros [|n] H; try discriminate.
  - now injection H as ->.
  - cbn in *. f_equal. now apply IH.
Qed.

Lemma order_inv tick rps (D : vl_lighthouse_samples) :
  forall n st, (n <= length D)%nat ->
    state_after tick rps D n = Some st ->
    (forall ps, subset D (St.pulse_inds st) = Some ps ->
       sublist ps (firstn n D)) /\
    (forall ss, subset D (St.sweep_inds st) = Some ss ->
       sublist ss (firstn n D)) /\
    (forall g, In g (St.pulses st) \/ In g (St.sweeps st) ->
       sublist (Group.samples g) D).
Proof.
  set (P := fun (n : nat) (st : St.t) =>
    (forall ps, subset D (St.pulse_inds st) = Some ps ->
       sublist ps (firstn n D)) /\
    (forall ss, subset D (St.sweep_inds st) = Some ss ->
       sublist ss (firstn n D)) /\
    (forall g, In g (St.pulses st) \/ In g (St.sweeps st) ->
       sublist (Group.samples g) D)).
  assert (Hfirstn : forall n, sublist (firstn n D) D).
  { intros n. rewrite <- (firstn_skipn n D) at 2. now apply sublist_inserts_r. }
  assert (Hnil : forall n ps, subset D [] = Some ps -> sublist ps (firstn n D)).
  { intros n ps [= <-]. apply sublist_nil_l. }
  apply (state_after_ind tick rps D P).
  { split; [apply Hnil|]. split; [apply Hnil|]. intros g [[] | []]. }
  intros n st st' Hn.
  destruct (nth_error D n) as [d|] eqn:Hd;
    [|apply nth_error_None in Hd; lia].
  assert (Hgrow : forall l, sublist l (firstn n D) ->
                            sublist l (firstn (S n) D)).
  { intros l Hl. rewrite (firstn_snoc D n d Hd). now apply sublist_inserts_r. }
  apply (loop_body_rules tick rps D n (P n) (P (S n))).
  - intros s (H1 & H2 & H3). split; [|split; [|exact H3]].
    + intros ps Hps. apply Hgrow. now apply H1.
    + intros ss Hss. apply Hgrow. now apply H2.
  - intros s s' (H1 & H2 & H3) _. unfold flush_pulse_set.
    destruct (subset D (St.pulse_inds s)) as [ps|] eqn:Hps; [|discriminate].
    destruct (update_pulse_state _ _ _ _ _ _) as [[[[lpe' cs'] seq'] out]|]
      eqn:Hup; [|discriminate].
    intros [= <-]. split; [apply Hnil|]. split; [exact H2|].
    cbn [St.pulses St.sweeps]. intros g [Hg | Hg]; [|apply H3; now right].
    destruct (isempty out); [apply H3; now left|].
    apply in_app_or in Hg as [Hg | [<- | []]]; [apply H3; now left|].
    destruct (update_pulse_state_outcomes _ _ _ _ _ _ _ _ _ _ Hup)
      as [_ [(-> & _) | (ch & sw & -> & _)]].
    + apply sublist_nil_l.
    + cbn. transitivity (firstn n D); [apply (H1 ps eq_refl)|apply Hfirstn].
  - intros s s' (H1 & H2 & H3) _. unfold store_sweep.
    destruct (subset D (St.sweep_inds s)) as [ss|] eqn:Hss; [|discriminate].
    intros [= <-]. split; [exact H1|]. split; [apply Hnil|].
    cbn [St.pulses St.sweeps]. intros g [Hg | Hg]; [apply H3; now left|].
    destruct (isempty (St.current_sweep s)); [apply H3; now right|].
    apply in_app_or in Hg as [Hg | [<- | []]]; [apply H3; now right|].
    cbn. transitivity (firstn n D); [apply (H2 ss eq_refl)|apply Hfirstn].
  - intros s sample (H1 & H2 & H3) Hs _ _ _.
    cbn [St.pulse_inds St.sweep_inds St.pulses St.sweeps].
    split; [intros ps Hps; apply Hgrow; now apply H1|].
    split; [|exact H3].
    cbn [St.sweep_inds]. intros ss. rewrite subset_snoc, Hs.
    destruct (subset D (St.sweep_inds s)) as [ss0|]; [|discriminate].
    intros [= <-]. rewrite (firstn_snoc D n d Hd).
    replace sample with d by congruence.
    apply sublist_app; [now apply H2|reflexivity].
  - intros s sample (H1 & H2 & H3) Hs _ _.
    cbn [St.pulse_inds St.sweep_inds St.pulses St.sweeps].
    split; [|split; [intros ss Hss; apply Hgrow; now apply H2|exact H3]].
    cbn [St.pulse_inds]. intros ps. rewrite subset_snoc, Hs.
    destruct (subset D (St.pulse_inds s)) as [ps0|]; [|discriminate].
    intros [= <-]. rewrite (firstn_snoc D n d Hd).
    replace sample with d by congruence.
    apply sublist_app; [now apply H1|reflexivity].
Qed.

(** Every emitted group lists its events in the order of the input: the
    samples of each pulse-group and of each sweep-group form a
    subsequence of the stream. *)
Theorem emitted_groups_in_stream_order tick rps (D : vl_lighthouse_samples) :
  exists sweeps pulses,
    process_lighthouse_samples tick rps D = Some (sweeps, pulses) /\
    forall g, In g pulses \/ In g sweeps -> sublist (Group.samples g) D.
Proof.
  destruct (process_lighthouse_samples_some tick rps D)
    as (st & Hst & _ & Hrun).
  exists (St.sweeps st), (St.pulses st). split; [exact Hrun|].
  destruct (order_inv tick rps D (length D) st) as (_ & _ & H);
    [lia|exact Hst|exact H].
Qed.
